(** * cidr-convert: a shallow embedding of [cidr-convert.c] and its properties

    The program reads dotted quads, dash ranges and slash prefixes from
    standard input, stores the addresses in a binary tree whose uniform
    subtrees are replaced by the two sentinels [NONE] and [ALL], and prints
    one CIDR block per [ALL] node at end of input.

    C data model.  The source uses [unsigned long int] for addresses and
    [int] for everything else.  The embedding fixes the LP64 data model
    of the GNU toolchain the source is written for (it uses case ranges):
    [int] and [unsigned int] are 32 bits wide, [unsigned long] is 64 bits
    wide, and a left shift of a signed [int] wraps like the two's-complement
    bit pattern.  Every wrap-around is written out with the conversions
    below.  [line] is an [int] that is only incremented; its overflow (past
    2^31-1 newlines) is undefined in C and is not modelled.

    Memory.  [malloc] is taken to succeed (the source does not test its
    result), and [free] has no effect that the program can observe, so a
    tree of [NODE]s is a value.  The calls to [malloc] and [free] are
    counted in the section on the heap.

    Control.  A C function that loops is a [Fixpoint] on a fuel argument;
    where the loop can fail to finish for some arguments the result is an
    [option], and the properties show that the fuel granted is enough for
    the arguments the program passes.  [abort()] and the other ways to stop
    without returning are results of type [res]. *)

From Stdlib Require Import ZArith List Bool Lia String Ascii DecimalString Sorted.
Import ListNotations.
Local Open Scope Z_scope.

(** ** C integer conversions and operators *)

Definition ULONG_BITS : Z := 64.

(** Conversion to [unsigned long]. *)
Definition ulong (x : Z) : Z := x mod 2 ^ ULONG_BITS.

(** Conversion to [unsigned int]. *)
Definition uint (x : Z) : Z := x mod 2 ^ 32.

(** Conversion to [int] (two's complement). *)
Definition sint (x : Z) : Z := (x + 2 ^ 31) mod 2 ^ 32 - 2 ^ 31.

(** [a << k], [~a], [a + b] and [a - b] on [unsigned long]. *)
Definition ul_shl (a k : Z) : Z := ulong (Z.shiftl a k).
Definition ul_not (a : Z) : Z := ulong (Z.lnot a).
Definition ul_add (a b : Z) : Z := ulong (a + b).
Definition ul_sub (a b : Z) : Z := ulong (a - b).

(** [x << k] on [unsigned int]; the C standard leaves it undefined when the
    count is negative or reaches the width of the type. *)
Definition uint_shl (x k : Z) : option Z :=
  if (0 <=? k) && (k <? 32) then Some (uint (Z.shiftl x k)) else None.

(** ** The tree *)

(** A [NODE *] is either one of the two static sentinels or a heap node
    holding two child pointers.  Every heap node is reachable from exactly
    one parent slot, so the pointer structure is a tree. *)
Inductive NODE : Type :=
| NONE : NODE
| ALL : NODE
| Node (sub0 sub1 : NODE) : NODE.

Definition NODE_eqb_ALL (n : NODE) : bool :=
  match n with ALL => true | _ => false end.

(** [add_to_node(np, a, bit, end)]: the result is the new value of [*np].
    The recursion of the source goes down one level per call until
    [bit <= end]; [fuel] counts the levels that remain. *)
Fixpoint add_to_node_rec (fuel : nat) (n : NODE) (a bit end_ : Z) : NODE :=
  match n with
  | ALL => ALL
  | _ =>
      if bit <=? end_ then ALL
      else
        match fuel with
        | O => n
        | S fuel' =>
            let '(s0, s1) :=
              match n with Node s0 s1 => (s0, s1) | _ => (NONE, NONE) end in
            let '(t0, t1) :=
              if Z.land (Z.shiftr a bit) 1 =? 0
              then (add_to_node_rec fuel' s0 a (bit - 1) end_, s1)
              else (s0, add_to_node_rec fuel' s1 a (bit - 1) end_) in
            if NODE_eqb_ALL t0 && NODE_eqb_ALL t1 then ALL else Node t0 t1
        end
  end.

Definition add_to_node (n : NODE) (a bit end_ : Z) : NODE :=
  add_to_node_rec (Z.to_nat (bit - end_)) n a bit end_.

(** ** Output *)

(** The five arguments of the [printf] call in [dump_tree]. *)
Record cidr_line : Type := mk_line {
  oct1 : Z; oct2 : Z; oct3 : Z; oct4 : Z; width : Z
}.

Definition line_of (v bit : Z) : cidr_line :=
  mk_line (Z.land (Z.shiftr v 24) 255) (Z.land (Z.shiftr v 16) 255)
          (Z.land (Z.shiftr v 8) 255) (Z.land v 255) (31 - bit).

(** [dump_tree(n, v, bit)]: the lines printed, or [None] when the walk
    reaches [abort()].  [1<<bit] is an [int]; it is converted to
    [unsigned long] for the bitwise or with [v]. *)
Fixpoint dump_tree (n : NODE) (v bit : Z) : option (list cidr_line) :=
  match n with
  | NONE => Some []
  | ALL => Some [line_of v bit]
  | Node s0 s1 =>
      if bit <? 0 then None
      else
        match dump_tree s0 v (bit - 1) with
        | None => None
        | Some l0 =>
            match dump_tree s1 (Z.lor v (ulong (sint (Z.shiftl 1 bit)))) (bit - 1) with
            | None => None
            | Some l1 => Some (l0 ++ l1)
            end
        end
  end.

(** [%lu] and [%d] of a non-negative number. *)
Definition dec (x : Z) : string := NilZero.string_of_uint (N.to_uint (Z.to_N x)).

Definition LF : string := String (ascii_of_nat 10) EmptyString.

(** ["%lu.%lu.%lu.%lu/%d\n"] *)
Definition print_line (l : cidr_line) : string :=
  (dec (oct1 l) ++ "." ++ dec (oct2 l) ++ "." ++ dec (oct3 l) ++ "."
   ++ dec (oct4 l) ++ "/" ++ dec (width l) ++ LF)%string.

Definition print_lines (ls : list cidr_line) : string :=
  fold_right (fun l s => (print_line l ++ s)%string) EmptyString ls.

(** ** Adding addresses, ranges and blocks *)

Definition save_one_addr (root : NODE) (a : Z) : NODE :=
  add_to_node root a 31 (-1).

(** [while (a1+m > a2) m >>= 1;] *)
Fixpoint shrink_loop (fuel : nat) (a1 a2 m : Z) : option Z :=
  if ul_add a1 m >? a2 then
    match fuel with
    | O => None
    | S fuel' => shrink_loop fuel' a1 a2 (Z.shiftr m 1)
    end
  else Some m.

(** [for (bit=-1,t=m;t;bit++,t>>=1) ;] *)
Fixpoint bit_loop (fuel : nat) (bit t : Z) : option Z :=
  if t =? 0 then Some bit
  else
    match fuel with
    | O => None
    | S fuel' => bit_loop fuel' (bit + 1) (Z.shiftr t 1)
    end.

(** One turn of the outer loop of [save_range]: the block handed to
    [add_to_node] as [(a1, bit)], and the next value of [a1].  The two inner
    loops shift an [unsigned long] right until a test fails, which takes at
    most [ULONG_BITS] turns when it happens at all. *)
Definition range_step (a1 a2 : Z) : option (Z * Z * Z) :=
  let m := Z.land (ul_sub a1 1) (ul_not a1) in
  match shrink_loop (Z.to_nat ULONG_BITS) a1 a2 m with
  | None => None
  | Some m' =>
      match bit_loop (Z.to_nat ULONG_BITS) (-1) m' with
      | None => None
      | Some bit => Some (a1, bit, ul_add a1 (ul_add m' 1))
      end
  end.

(** [while (a1 <= a2) { ... }]: the tree after the loop and the blocks that
    were added, in order; [None] when [fuel] turns do not finish the loop. *)
Fixpoint range_loop (fuel : nat) (root : NODE) (a1 a2 : Z)
  : option (NODE * list (Z * Z)) :=
  if a1 <=? a2 then
    match fuel with
    | O => None
    | S fuel' =>
        match range_step a1 a2 with
        | None => None
        | Some (a, bit, a1') =>
            match range_loop fuel' (add_to_node root a 31 bit) a1' a2 with
            | None => None
            | Some (r, blocks) => Some (r, (a, bit) :: blocks)
            end
        end
    end
  else Some (root, []).

(** Number of turns granted to the outer loop of [save_range]. *)
Definition RANGE_FUEL : nat := 64.

(** Messages written to the standard error stream.  The numeric argument
    is the line number, or the offending byte for [InvalidChar]. *)
Inductive diag : Type :=
| RangeReversed
| NumberOutOfRange (line : Z)
| WidthOutOfRange (line : Z)
| BadDot (line : Z)
| BadDash (line : Z)
| BadSlash (line : Z)
| BadWhitespace (line : Z)
| BadEOF (line : Z)
| InvalidChar (c : Z).

(** [save_range(a1, a2)]: the new root and what was written to stderr;
    [None] when the loop does not finish. *)
Definition save_range (root : NODE) (a1 a2 : Z) : option (NODE * list diag) :=
  if a1 >? a2 then Some (root, [RangeReversed])
  else
    match range_loop RANGE_FUEL root a1 a2 with
    | None => None
    | Some (r, _) => Some (r, [])
    end.

(** The address argument of the [add_to_node] call in [save_cidr]:
    [n ? a&0xffffffff&(0xffffffff<<(32-n)) : 0].  The constant
    [0xffffffff] is an [unsigned int], and so is the shifted value. *)
Definition cidr_base (a n : Z) : option Z :=
  if n =? 0 then Some 0
  else
    match uint_shl 4294967295 (32 - n) with
    | None => None
    | Some m => Some (Z.land (Z.land a 4294967295) m)
    end.

(** [save_cidr(a, n)]; [None] when the shift is undefined. *)
Definition save_cidr (root : NODE) (a n : Z) : option NODE :=
  match cidr_base a n with
  | None => None
  | Some b => Some (add_to_node root b 31 (31 - n))
  end.

(** ** The input state machine *)

(** The calls [read_input] makes into the tree code. *)
Inductive call : Type :=
| SaveOneAddr (a : Z)
| SaveRange (a1 a2 : Z)
| SaveCidr (a n : Z).

(** What a run does besides updating its variables, in program order. *)
Inductive event : Type :=
| Call (c : call)
| Err (d : diag).

(** Ways in which a run stops without returning. *)
Inductive fault : Type :=
| FAbort      (* abort() *)
| FLoop       (* a loop of save_range did not finish *)
| FShift.     (* a shift with an undefined count *)

Inductive res (A : Type) : Type :=
| Ok (x : A)
| Fail (f : fault) (x : A).
Arguments Ok {A} x.
Arguments Fail {A} f x.

(** The global [root], the locals of [read_input], and the events so far
    (oldest first). *)
Record pstate : Type := mk_pstate {
  root : NODE;
  a1 : Z;
  a : Z;
  line : Z;
  n : Z;
  state : Z;
  trace : list event
}.

Definition with_root (s : pstate) (r : NODE) : pstate :=
  mk_pstate r (a1 s) (a s) (line s) (n s) (state s) (trace s).
Definition with_a1 (s : pstate) (v : Z) : pstate :=
  mk_pstate (root s) v (a s) (line s) (n s) (state s) (trace s).
Definition with_a (s : pstate) (v : Z) : pstate :=
  mk_pstate (root s) (a1 s) v (line s) (n s) (state s) (trace s).
Definition with_line (s : pstate) (v : Z) : pstate :=
  mk_pstate (root s) (a1 s) (a s) v (n s) (state s) (trace s).
Definition with_n (s : pstate) (v : Z) : pstate :=
  mk_pstate (root s) (a1 s) (a s) (line s) v (state s) (trace s).
Definition with_state (s : pstate) (v : Z) : pstate :=
  mk_pstate (root s) (a1 s) (a s) (line s) (n s) v (trace s).
Definition log (s : pstate) (es : list event) : pstate :=
  mk_pstate (root s) (a1 s) (a s) (line s) (n s) (state s) (trace s ++ es).

(** The three calls, as seen from [read_input]. *)
Definition do_save_one_addr (s : pstate) (x : Z) : pstate :=
  with_root (log s [Call (SaveOneAddr x)]) (save_one_addr (root s) x).

Definition do_save_range (s : pstate) (x y : Z) : res pstate :=
  let s' := log s [Call (SaveRange x y)] in
  match save_range (root s) x y with
  | None => Fail FLoop s'
  | Some (r, ds) => Ok (with_root (log s' (map Err ds)) r)
  end.

Definition do_save_cidr (s : pstate) (x w : Z) : res pstate :=
  let s' := log s [Call (SaveCidr x w)] in
  match save_cidr (root s) x w with
  | None => Fail FShift s'
  | Some r => Ok (with_root s' r)
  end.

(** [(a << 8) | n], with [n] converted to [unsigned long]. *)
Definition push_octet (s : pstate) : Z := Z.lor (ul_shl (a s) 8) (ulong (n s)).

(** The body shared by the octet states of the digit case:
    [if (n < 0) break; n = (n * 10) + (c - '0'); if (n > 255) ...].
    [n] is at most 255 before the multiplication, so the [int] arithmetic
    does not overflow. *)
Definition octet_digit (c : Z) (s : pstate) : pstate :=
  if n s <? 0 then s
  else
    let s' := with_n s (n s * 10 + (c - 48)) in
    if n s' >? 255
    then with_n (log s' [Err (NumberOutOfRange (line s'))]) (-1)
    else s'.

Definition on_digit (c : Z) (s : pstate) : res pstate :=
  match state s with
  | 1 => Ok (with_state (with_n s (c - 48)) 2)
  | 3 | 5 | 7 | 12 | 14 | 16 =>
      Ok (octet_digit c (with_state s (state s + 1)))
  | 2 | 4 | 6 | 8 | 11 | 13 | 15 | 17 =>
      Ok (octet_digit c s)
  | 9 =>
      Ok (with_state
            (if n s >=? 0 then with_n (do_save_one_addr s (a s)) (c - 48) else s)
            2)
  | 10 | 18 =>
      Ok (with_state (if n s >=? 0 then with_n s (c - 48) else s) (state s + 1))
  | 19 =>
      if n s <? 0 then Ok s
      else
        let s' := with_n s (n s * 10 + (c - 48)) in
        if n s' >? 32
        then Ok (with_n (log s' [Err (WidthOutOfRange (line s'))]) (-1))
        else Ok s'
  | _ => Fail FAbort s
  end.

(** The body shared by the octet states of the dot case. *)
Definition dot_shift (s : pstate) : pstate :=
  with_state
    (if n s >=? 0 then with_n (with_a s (push_octet s)) 0 else s)
    (state s + 1).

Definition on_dot (s : pstate) : res pstate :=
  match state s with
  | 1 | 3 | 5 | 7 | 8 | 10 | 12 | 14 | 16 | 17 | 18 | 19 =>
      Ok (with_n (if n s >=? 0 then log s [Err (BadDot (line s))] else s) (-1))
  | 2 | 11 => Ok (dot_shift (with_a s 0))
  | 4 | 6 | 13 | 15 => Ok (dot_shift s)
  | 9 =>
      Ok (with_n
            (if n s >=? 0
             then log (do_save_one_addr s (a s)) [Err (BadDot (line s))]
             else s)
            (-1))
  | _ => Fail FAbort s
  end.

Definition on_dash (s : pstate) : res pstate :=
  match state s with
  | 1 | 2 | 3 | 4 | 5 | 6 | 7
  | 10 | 11 | 12 | 13 | 14 | 15 | 16 | 17 | 18 | 19 =>
      Ok (with_n (log s [Err (BadDash (line s))]) (-1))
  | 8 =>
      Ok (with_state (if n s >=? 0 then with_a1 s (push_octet s) else s) 10)
  | 9 => Ok (with_state (with_a1 s (a s)) 10)
  | _ => Fail FAbort s
  end.

Definition on_slash (s : pstate) : res pstate :=
  match state s with
  | 1 | 2 | 3 | 4 | 5 | 6 | 7
  | 10 | 11 | 12 | 13 | 14 | 15 | 16 | 17 | 18 | 19 =>
      Ok (with_n (log s [Err (BadSlash (line s))]) (-1))
  | 8 =>
      Ok (with_state (if n s >=? 0 then with_a s (push_octet s) else s) 18)
  | 9 => Ok (with_state s 18)
  | _ => Fail FAbort s
  end.

Definition on_space (s : pstate) : res pstate :=
  match state s with
  | 1 | 9 | 10 | 18 => Ok s
  | 2 | 3 | 4 | 5 | 6 | 7 | 11 | 12 | 13 | 14 | 15 | 16 =>
      Ok (with_state
            (if n s >=? 0 then log s [Err (BadWhitespace (line s))] else s)
            1)
  | 8 =>
      Ok (with_state (if n s >=? 0 then with_a s (push_octet s) else s) 9)
  | 17 =>
      if n s >=? 0 then
        match do_save_range s (a1 s) (push_octet s) with
        | Ok s' => Ok (with_state s' 1)
        | Fail f s' => Fail f s'
        end
      else Ok (with_state s 1)
  | 19 =>
      if n s >=? 0 then
        match do_save_cidr s (a s) (n s) with
        | Ok s' => Ok (with_state s' 1)
        | Fail f s' => Fail f s'
        end
      else Ok (with_state s 1)
  | _ => Fail FAbort s
  end.

(** One turn of the [while (1)] loop for a character [c] other than [EOF]:
    the outer [switch (c)]. *)
Definition step (c : Z) (s : pstate) : res pstate :=
  if (48 <=? c) && (c <=? 57) (* '0' ... '9' *) then on_digit c s
  else if c =? 46 (* '.' *) then on_dot s
  else if c =? 45 (* '-' *) then on_dash s
  else if c =? 47 (* '/' *) then on_slash s
  else if c =? 10 (* '\n' *) then on_space (with_line s (line s + 1))
  else if (c =? 32) || (c =? 9) || (c =? 13) (* ' ', '\t', '\r' *) then on_space s
  else Ok (with_state (with_n (log s [Err (InvalidChar c)]) (-1)) 2).

(** The [switch (state)] after the loop. *)
Definition at_eof (s : pstate) : res pstate :=
  match state s with
  | 1 => Ok s
  | 2 | 3 | 4 | 5 | 6 | 7 | 10 | 11 | 12 | 13 | 14 | 15 | 16 =>
      Ok (if n s >=? 0 then log s [Err (BadEOF (line s))] else s)
  | 8 => Ok (if n s >=? 0 then do_save_one_addr s (push_octet s) else s)
  | 9 => Ok (if n s >=? 0 then do_save_one_addr s (a s) else s)
  | 17 => if n s >=? 0 then do_save_range s (a1 s) (push_octet s) else Ok s
  | _ => Fail FAbort s
  end.

(** The characters [getchar] returns before [EOF] are unsigned char
    values. *)
Definition bytes_of_string (s : string) : list Z :=
  map (fun ch => Z.of_N (N_of_ascii ch)) (list_ascii_of_string s).

Fixpoint read_loop (input : list Z) (s : pstate) : res pstate :=
  match input with
  | [] => Ok s
  | c :: rest =>
      match step c s with
      | Ok s' => read_loop rest s'
      | Fail f s' => Fail f s'
      end
  end.

(** The state in which the loop is entered.  [a] and [a1] are not
    initialised by the source; [a_init] and [a1_init] stand for whatever
    they hold. *)
Definition init_state (a_init a1_init : Z) : pstate :=
  mk_pstate NONE a1_init a_init 1 0 1 [].

Definition read_from (s : pstate) (input : list Z) : res pstate :=
  match read_loop input s with
  | Ok s' => at_eof s'
  | Fail f s' => Fail f s'
  end.

Definition read_input (a_init a1_init : Z) (input : list Z) : res pstate :=
  read_from (init_state a_init a1_init) input.

(** ** The program *)

Definition dump_output (r : NODE) : option (list cidr_line) := dump_tree r 0 31.

Definition calls_of (t : list event) : list call :=
  flat_map (fun e => match e with Call c => [c] | Err _ => [] end) t.

Definition diags_of (t : list event) : list diag :=
  flat_map (fun e => match e with Err d => [d] | Call _ => [] end) t.

Inductive outcome : Type :=
| Exit (status : Z)
| Killed (f : fault).

(** An execution of [main]: what reached the two output streams and how the
    process ended.  Output buffered when [abort()] strikes is dropped. *)
Record run : Type := mk_run {
  stdout : string;
  stderr : list diag;
  ending : outcome
}.

Definition main (a_init a1_init : Z) (input : list Z) : run :=
  match read_input a_init a1_init input with
  | Fail f s => mk_run EmptyString (diags_of (trace s)) (Killed f)
  | Ok s =>
      match dump_output (root s) with
      | None => mk_run EmptyString (diags_of (trace s)) (Killed FAbort)
      | Some ls => mk_run (print_lines ls) (diags_of (trace s)) (Exit 0)
      end
  end.

(** ** The state table of the source *)

(** The value of [state] before the first character and after each
    character of the input. *)
Fixpoint states_of (input : list Z) (s : pstate) : list Z :=
  state s ::
  match input with
  | [] => []
  | c :: rest =>
      match step c s with
      | Ok s' => states_of rest s'
      | Fail _ _ => []
      end
  end.

Definition text (s : string) : list Z := bytes_of_string s.

(** A line of input: the characters followed by a newline. *)
Definition ln (s : string) : string := (s ++ LF)%string.

(** The three rows of the table in the comment above [read_input]
    (a = 10, b = 11, ...). *)
Example state_table_addresses :
  states_of (text " 123.45.67.89   123.45") (init_state 0 0) =
    [1; 1; 2; 2; 2; 3; 4; 4; 5; 6; 6; 7; 8; 8; 9; 9; 9; 2; 2; 2; 3; 4; 4].
Proof. vm_compute. reflexivity. Qed.

Example state_table_range :
  states_of (text " 123.45.67.89 - 11.22.33.44  ") (init_state 0 0) =
    [1; 1; 2; 2; 2; 3; 4; 4; 5; 6; 6; 7; 8; 8; 9; 10; 10; 11; 11; 12; 13; 13;
     14; 15; 15; 16; 17; 17; 1; 1].
Proof. vm_compute. reflexivity. Qed.

Example state_table_block :
  states_of (text " 123.45.67.89 / 15  ") (init_state 0 0) =
    [1; 1; 2; 2; 2; 3; 4; 4; 5; 6; 6; 7; 8; 8; 9; 18; 18; 19; 19; 1; 1].
Proof. vm_compute. reflexivity. Qed.

(** The example of the comment above [save_range], and a range that is
    entered twice. *)
Example range_of_the_source a_init a1_init :
  main a_init a1_init (text (ln "10.20.30.40 - 10.20.32.77" ++ ln "10.20.30.40 - 10.20.32.77")) =
    mk_run (ln "10.20.30.40/29" ++ ln "10.20.30.48/28" ++ ln "10.20.30.64/26"
            ++ ln "10.20.30.128/25" ++ ln "10.20.31.0/24" ++ ln "10.20.32.0/26"
            ++ ln "10.20.32.64/29" ++ ln "10.20.32.72/30" ++ ln "10.20.32.76/31")
           [] (Exit 0).
Proof. vm_compute. reflexivity. Qed.

Example reversed_range a_init a1_init :
  main a_init a1_init (text (ln "10.0.0.3 - 10.0.0.0")) =
    mk_run EmptyString [RangeReversed] (Exit 0).
Proof. vm_compute. reflexivity. Qed.

Example right_half_of_the_address_space a_init a1_init :
  main a_init a1_init (text (ln "128.0.0.0 - 255.255.255.255")) =
    mk_run (ln "128.0.0.0/1") [] (Exit 0).
Proof. vm_compute. reflexivity. Qed.

(** * Properties *)

(** ** What a tree stands for *)

(** Invariant D: a heap node sits at a level [bit >= 0]; below bit 0 only
    the sentinels appear. *)
Fixpoint fits (t : NODE) (bit : Z) : bool :=
  match t with
  | Node s0 s1 => (0 <=? bit) && fits s0 (bit - 1) && fits s1 (bit - 1)
  | _ => true
  end.

(** Invariant C: no heap node has two [ALL] children. *)
Fixpoint canonical (t : NODE) : bool :=
  match t with
  | Node s0 s1 =>
      negb (NODE_eqb_ALL s0 && NODE_eqb_ALL s1) && canonical s0 && canonical s1
  | _ => true
  end.

Definition NODE_eqb_NONE (n : NODE) : bool :=
  match n with NONE => true | _ => false end.

(** No heap node has two [NONE] children either: a node is only allocated
    on the way to a leaf that is then set. *)
Fixpoint inhabited (t : NODE) : bool :=
  match t with
  | Node s0 s1 =>
      negb (NODE_eqb_NONE s0 && NODE_eqb_NONE s1) && inhabited s0 && inhabited s1
  | _ => true
  end.

(** Whether address [x] is marked in the subtree [t] whose root decides
    bit [bit]. *)
Fixpoint member (t : NODE) (bit x : Z) : bool :=
  match t with
  | NONE => false
  | ALL => true
  | Node s0 s1 =>
      if Z.testbit x bit then member s1 (bit - 1) x else member s0 (bit - 1) x
  end.

Definition good (t : NODE) : Prop :=
  fits t 31 = true /\ canonical t = true /\ inhabited t = true.

Definition is_addr (x : Z) : bool := (0 <=? x) && (x <? 2 ^ 32).

(** ** [add_to_node] *)

Section AddToNode.

Variables (a end_ : Z).

Lemma add_to_node_rec_ALL fuel bit : add_to_node_rec fuel ALL a bit end_ = ALL.
Proof. destruct fuel; reflexivity. Qed.

Lemma add_to_node_rec_bottom fuel n bit :
  bit <= end_ -> add_to_node_rec fuel n a bit end_ = ALL.
Proof.
  intros H. apply Z.leb_le in H.
  destruct fuel, n; simpl; rewrite ?H; reflexivity.
Qed.

(** The children of the node worked on once [NONE] has been replaced by a
    fresh node. *)
Definition subs (n : NODE) : NODE * NODE :=
  match n with Node s0 s1 => (s0, s1) | _ => (NONE, NONE) end.

Definition collapse (t0 t1 : NODE) : NODE :=
  if NODE_eqb_ALL t0 && NODE_eqb_ALL t1 then ALL else Node t0 t1.

Lemma add_to_node_rec_down fuel n bit :
  n <> ALL -> end_ < bit ->
  add_to_node_rec (S fuel) n a bit end_ =
    if Z.land (Z.shiftr a bit) 1 =? 0
    then collapse (add_to_node_rec fuel (fst (subs n)) a (bit - 1) end_) (snd (subs n))
    else collapse (fst (subs n)) (add_to_node_rec fuel (snd (subs n)) a (bit - 1) end_).
Proof.
  intros Hn Hb. apply Z.leb_gt in Hb.
  destruct n; try congruence; simpl; rewrite Hb;
    destruct (Z.land (Z.shiftr a bit) 1 =? 0); reflexivity.
Qed.

(** More fuel than there are levels left changes nothing. *)
Lemma add_to_node_rec_enough fuel : forall n bit,
  (Z.to_nat (bit - end_) <= fuel)%nat ->
  add_to_node_rec fuel n a bit end_ = add_to_node n a bit end_.
Proof.
  unfold add_to_node.
  induction fuel as [|fuel IH]; intros n bit Hf.
  - replace (Z.to_nat (bit - end_)) with O by lia. reflexivity.
  - destruct (Z_le_gt_dec bit end_) as [Hle|Hgt].
    + rewrite !add_to_node_rec_bottom by assumption. reflexivity.
    + destruct n as [| |s0 s1] eqn:En; [ | now rewrite !add_to_node_rec_ALL | ].
      all: replace (Z.to_nat (bit - end_)) with (S (Z.to_nat (bit - 1 - end_))) by lia.
      all: rewrite !add_to_node_rec_down by (try discriminate; lia).
      all: rewrite !IH by lia; reflexivity.
Qed.

(** The recursion equation of the source. *)
Lemma add_to_node_eq n bit :
  add_to_node n a bit end_ =
    match n with
    | ALL => ALL
    | _ =>
        if bit <=? end_ then ALL
        else if Z.land (Z.shiftr a bit) 1 =? 0
        then collapse (add_to_node (fst (subs n)) a (bit - 1) end_) (snd (subs n))
        else collapse (fst (subs n)) (add_to_node (snd (subs n)) a (bit - 1) end_)
    end.
Proof.
  destruct (Z_le_gt_dec bit end_) as [Hle|Hgt].
  - unfold add_to_node at 1. rewrite add_to_node_rec_bottom by assumption.
    apply Z.leb_le in Hle. rewrite Hle. destruct n; reflexivity.
  - assert (Hb : (bit <=? end_) = false) by (apply Z.leb_gt; lia).
    rewrite Hb.
    destruct n as [| |s0 s1] eqn:En;
      [ | unfold add_to_node; apply add_to_node_rec_ALL | ].
    all: unfold add_to_node at 1.
    all: replace (Z.to_nat (bit - end_)) with (S (Z.to_nat (bit - 1 - end_))) by lia.
    all: rewrite add_to_node_rec_down by (try discriminate; lia).
    all: reflexivity.
Qed.

Lemma collapse_fits t0 t1 bit :
  0 <= bit -> fits t0 (bit - 1) = true -> fits t1 (bit - 1) = true ->
  fits (collapse t0 t1) bit = true.
Proof.
  intros Hb H0 H1. unfold collapse.
  destruct (NODE_eqb_ALL t0 && NODE_eqb_ALL t1); simpl; [reflexivity|].
  rewrite H0, H1. apply Z.leb_le in Hb. rewrite Hb. reflexivity.
Qed.

Lemma collapse_canonical t0 t1 :
  canonical t0 = true -> canonical t1 = true ->
  canonical (collapse t0 t1) = true.
Proof.
  intros H0 H1. unfold collapse.
  destruct (NODE_eqb_ALL t0 && NODE_eqb_ALL t1) eqn:E; simpl; [reflexivity|].
  rewrite E, H0, H1. reflexivity.
Qed.

Lemma collapse_inhabited t0 t1 :
  inhabited t0 = true -> inhabited t1 = true ->
  (t0 <> NONE \/ t1 <> NONE) ->
  inhabited (collapse t0 t1) = true.
Proof.
  intros H0 H1 Hne. unfold collapse.
  destruct (NODE_eqb_ALL t0 && NODE_eqb_ALL t1) eqn:E; simpl; [reflexivity|].
  rewrite H0, H1.
  destruct t0, t1; simpl; try reflexivity. destruct Hne; congruence.
Qed.

Lemma collapse_member t0 t1 bit x :
  member (collapse t0 t1) bit x = member (Node t0 t1) bit x.
Proof.
  unfold collapse. destruct t0, t1; simpl; try reflexivity.
  destruct (Z.testbit x bit); reflexivity.
Qed.

Lemma subs_fits n bit :
  fits n bit = true ->
  fits (fst (subs n)) (bit - 1) = true /\ fits (snd (subs n)) (bit - 1) = true.
Proof.
  destruct n; simpl; auto.
  intros H. apply andb_prop in H as [H H1]. apply andb_prop in H as [_ H0]. auto.
Qed.

Lemma subs_canonical n :
  canonical n = true ->
  canonical (fst (subs n)) = true /\ canonical (snd (subs n)) = true.
Proof.
  destruct n; simpl; auto.
  intros H. apply andb_prop in H as [H H1]. apply andb_prop in H as [_ H0]. auto.
Qed.

Lemma subs_inhabited n :
  inhabited n = true ->
  inhabited (fst (subs n)) = true /\ inhabited (snd (subs n)) = true.
Proof.
  destruct n; simpl; auto.
  intros H. apply andb_prop in H as [H H1]. apply andb_prop in H as [_ H0]. auto.
Qed.

Lemma subs_member n bit x :
  n <> ALL -> member n bit x = member (Node (fst (subs n)) (snd (subs n))) bit x.
Proof.
  destruct n; simpl; try congruence. destruct (Z.testbit x bit); reflexivity.
Qed.

(** [add_to_node] never hands back [NONE]. *)
Lemma add_to_node_not_NONE : forall n bit, add_to_node n a bit end_ <> NONE.
Proof.
  intros n bit. rewrite add_to_node_eq.
  destruct n; try discriminate.
  all: destruct (bit <=? end_); try discriminate.
  all: destruct (Z.land (Z.shiftr a bit) 1 =? 0); unfold collapse.
  all: match goal with |- (if ?b then _ else _) <> _ => destruct b end; discriminate.
Qed.

(** Induction along the descent of [add_to_node]: the levels between [bit]
    and [end_] are counted by [k]. *)
Lemma add_to_node_ind (P : NODE -> Z -> NODE -> Prop) :
  (forall bit, P ALL bit ALL) ->
  (forall n bit, n <> ALL -> bit <= end_ -> P n bit ALL) ->
  (forall n bit, n <> ALL -> end_ < bit ->
     Z.land (Z.shiftr a bit) 1 = 0 ->
     P (fst (subs n)) (bit - 1) (add_to_node (fst (subs n)) a (bit - 1) end_) ->
     P n bit (collapse (add_to_node (fst (subs n)) a (bit - 1) end_) (snd (subs n)))) ->
  (forall n bit, n <> ALL -> end_ < bit ->
     Z.land (Z.shiftr a bit) 1 <> 0 ->
     P (snd (subs n)) (bit - 1) (add_to_node (snd (subs n)) a (bit - 1) end_) ->
     P n bit (collapse (fst (subs n)) (add_to_node (snd (subs n)) a (bit - 1) end_))) ->
  forall n bit, P n bit (add_to_node n a bit end_).
Proof.
  intros HALL Hbot H0 H1 n bit.
  remember (Z.to_nat (bit - end_)) as k eqn:Ek.
  revert n bit Ek. induction k as [|k IH]; intros n bit Ek.
  - rewrite add_to_node_eq. destruct n; try apply HALL.
    all: assert (Hle : bit <= end_) by lia.
    all: pose proof Hle as Hle'; apply Z.leb_le in Hle'; rewrite Hle'.
    all: apply Hbot; [discriminate|assumption].
  - assert (Hgt : end_ < bit) by lia.
    rewrite add_to_node_eq.
    destruct n as [| |s0 s1] eqn:En; [ | apply HALL | ].
    all: pose proof Hgt as Hgt'; apply Z.leb_gt in Hgt'; rewrite Hgt'.
    all: destruct (Z.land (Z.shiftr a bit) 1 =? 0) eqn:Eb;
      [ apply Z.eqb_eq in Eb | apply Z.eqb_neq in Eb ].
    all: first [ apply (H0 _ bit) | apply (H1 _ bit) ];
      try discriminate; try assumption; apply IH; lia.
Qed.

End AddToNode.

Lemma land_1_testbit a bit :
  0 <= bit -> (Z.land (Z.shiftr a bit) 1 =? 0) = negb (Z.testbit a bit).
Proof.
  intros Hb. rewrite Z.testbit_odd.
  change 1 with (Z.ones 1). rewrite Z.land_ones by lia.
  change (2 ^ 1) with 2. rewrite Zmod_odd.
  destruct (Z.odd (Z.shiftr a bit)); reflexivity.
Qed.

Lemma add_to_node_fits a end_ n bit :
  -1 <= end_ -> fits n bit = true -> fits (add_to_node n a bit end_) bit = true.
Proof.
  intros He. revert n bit.
  apply (add_to_node_ind a end_ (fun n bit r => fits n bit = true -> fits r bit = true));
    auto; intros n bit Hn Hb _ IH Hf; apply subs_fits in Hf as [H0 H1];
    apply collapse_fits; auto; lia.
Qed.

Lemma add_to_node_canonical a end_ n bit :
  canonical n = true -> canonical (add_to_node n a bit end_) = true.
Proof.
  revert n bit.
  apply (add_to_node_ind a end_ (fun n _ r => canonical n = true -> canonical r = true));
    auto; intros n bit Hn Hb _ IH Hf; apply subs_canonical in Hf as [H0 H1];
    apply collapse_canonical; auto.
Qed.

Lemma add_to_node_inhabited a end_ n bit :
  inhabited n = true -> inhabited (add_to_node n a bit end_) = true.
Proof.
  revert n bit.
  apply (add_to_node_ind a end_ (fun n _ r => inhabited n = true -> inhabited r = true));
    auto; intros n bit Hn Hb _ IH Hf; apply subs_inhabited in Hf as [H0 H1];
    apply collapse_inhabited; auto;
    [left|right]; apply add_to_node_not_NONE.
Qed.

(** The addresses [add_to_node] adds below a node at level [bit] are those
    that agree with [a] on the bits between [end_] (excluded) and [bit]. *)
Lemma add_to_node_member_bits a end_ n bit x :
  -1 <= end_ ->
  member (add_to_node n a bit end_) bit x = true <->
  member n bit x = true \/
  (forall i, end_ < i <= bit -> Z.testbit x i = Z.testbit a i).
Proof.
  intros He. revert n bit.
  apply (add_to_node_ind a end_ (fun n bit r =>
    member r bit x = true <->
    member n bit x = true \/
    (forall i, end_ < i <= bit -> Z.testbit x i = Z.testbit a i))).
  - intros bit. simpl. tauto.
  - intros n bit _ Hb. simpl. split; auto. intros _. right. intros i Hi. lia.
  - intros n bit Hn Hb Ha IH.
    assert (Hab : Z.testbit a bit = false).
    { pose proof (land_1_testbit a bit ltac:(lia)) as E. rewrite Ha in E.
      simpl in E. destruct (Z.testbit a bit); [discriminate|reflexivity]. }
    rewrite collapse_member, (subs_member n bit x Hn). simpl.
    destruct (Z.testbit x bit) eqn:Ex.
    + split; auto. intros [H|H]; auto.
      specialize (H bit ltac:(lia)). congruence.
    + rewrite IH. split; (intros [H|H]; [now left|right]); intros i Hi.
      * destruct (Z.eq_dec i bit) as [->|Hne]; [congruence|apply H; lia].
      * apply H; lia.
  - intros n bit Hn Hb Ha IH.
    assert (Hab : Z.testbit a bit = true).
    { pose proof (land_1_testbit a bit ltac:(lia)) as E.
      apply Z.eqb_neq in Ha. rewrite Ha in E.
      destruct (Z.testbit a bit); [reflexivity|discriminate]. }
    rewrite collapse_member, (subs_member n bit x Hn). simpl.
    destruct (Z.testbit x bit) eqn:Ex.
    + rewrite IH. split; (intros [H|H]; [now left|right]); intros i Hi.
      * destruct (Z.eq_dec i bit) as [->|Hne]; [congruence|apply H; lia].
      * apply H; lia.
    + split; auto. intros [H|H]; auto.
      specialize (H bit ltac:(lia)). congruence.
Qed.

(** Bits at and above position 32 of an address are clear. *)
Lemma addr_bits_high x i : 0 <= x < 2 ^ 32 -> 32 <= i -> Z.testbit x i = false.
Proof.
  intros Hx Hi. rewrite <- (Z.mod_small x (2 ^ 32)) by assumption.
  apply Z.mod_pow2_bits_high. lia.
Qed.

Lemma same_high_bits_iff a x k :
  0 <= k -> 0 <= a < 2 ^ 32 -> 0 <= x < 2 ^ 32 ->
  (forall i, k - 1 < i <= 31 -> Z.testbit x i = Z.testbit a i) <->
  x / 2 ^ k = a / 2 ^ k.
Proof.
  intros Hk Ha Hx. split; intros H.
  - apply Z.bits_inj'. intros j Hj.
    rewrite !Z.div_pow2_bits by lia.
    destruct (Z_le_gt_dec (j + k) 31).
    + apply H. lia.
    + rewrite !addr_bits_high by (assumption || lia). reflexivity.
  - intros i Hi.
    replace i with ((i - k) + k) by lia.
    rewrite <- !Z.div_pow2_bits by lia. rewrite H. reflexivity.
Qed.

Lemma aligned_block_iff a x k :
  0 <= k -> a mod 2 ^ k = 0 ->
  x / 2 ^ k = a / 2 ^ k <-> a <= x < a + 2 ^ k.
Proof.
  intros Hk Hal.
  assert (Hp : 0 < 2 ^ k) by (apply Z.pow_pos_nonneg; lia).
  pose proof (Z.div_mod a (2 ^ k) ltac:(lia)) as Ea. rewrite Hal in Ea.
  pose proof (Z.div_mod x (2 ^ k) ltac:(lia)) as Exd.
  pose proof (Z.mod_pos_bound x (2 ^ k) Hp) as Hm.
  split; intros H.
  - rewrite <- H in Ea. lia.
  - nia.
Qed.

(** The block with base [a] and [2^k] addresses. *)
Definition in_block (a k x : Z) : bool := (a <=? x) && (x <? a + 2 ^ k).

(** [add_to_node] from the root adds exactly one aligned block. *)
Lemma add_to_node_member root a end_ x :
  -1 <= end_ <= 31 -> 0 <= a < 2 ^ 32 -> a mod 2 ^ (end_ + 1) = 0 ->
  is_addr x = true ->
  member (add_to_node root a 31 end_) 31 x =
    member root 31 x || in_block a (end_ + 1) x.
Proof.
  intros He Ha Hal Hx.
  unfold is_addr in Hx. apply andb_prop in Hx as [Hx0 Hx1].
  apply Z.leb_le in Hx0. apply Z.ltb_lt in Hx1.
  apply eq_true_iff_eq.
  rewrite add_to_node_member_bits by lia.
  rewrite orb_true_iff.
  pose proof (same_high_bits_iff a x (end_ + 1) ltac:(lia) Ha ltac:(lia)) as E1.
  pose proof (aligned_block_iff a x (end_ + 1) ltac:(lia) Hal) as E2.
  unfold in_block. rewrite andb_true_iff, Z.leb_le, Z.ltb_lt.
  rewrite <- E2, <- E1.
  split; (intros [H|H]; [now left|right]); intros i Hi; apply H; lia.
Qed.

Lemma add_to_node_good root a end_ :
  -1 <= end_ -> good root -> good (add_to_node root a 31 end_).
Proof.
  intros He (Hf & Hc & Hi). repeat split.
  - apply add_to_node_fits; assumption.
  - apply add_to_node_canonical; assumption.
  - apply add_to_node_inhabited; assumption.
Qed.


(** ** [dump_tree] *)

(** The prefix a printed line denotes: its address and its block. *)
Definition line_addr (l : cidr_line) : Z :=
  oct1 l * 2 ^ 24 + oct2 l * 2 ^ 16 + oct3 l * 2 ^ 8 + oct4 l.

Definition covers (l : cidr_line) (x : Z) : bool :=
  in_block (line_addr l) (32 - width l) x.

Definition count_covering (x : Z) (ls : list cidr_line) : nat :=
  List.length (filter (fun l => covers l x) ls).

(** The walk of [dump_tree] with the address kept as a plain 32-bit
    number: the (address, width) pairs of the [ALL] nodes below [t], whose
    subtree starts at [base] and decides bit [bit]. *)
Fixpoint prefixes (t : NODE) (base bit : Z) : list (Z * Z) :=
  match t with
  | NONE => []
  | ALL => [(base, 31 - bit)]
  | Node s0 s1 =>
      prefixes s0 base (bit - 1) ++ prefixes s1 (base + 2 ^ bit) (bit - 1)
  end.

Definition line_of_prefix (p : Z * Z) : cidr_line := line_of (fst p) (31 - snd p).

Lemma land_255 y : Z.land y 255 = y mod 256.
Proof. change 255 with (Z.ones 8). rewrite Z.land_ones by lia. reflexivity. Qed.

Lemma line_of_low v bit : line_of v bit = line_of (v mod 2 ^ 32) bit.
Proof.
  unfold line_of. rewrite !land_255, !Z.shiftr_div_pow2 by lia.
  f_equal; Z.div_mod_to_equations; lia.
Qed.

Lemma line_addr_of v bit : 0 <= v < 2 ^ 32 -> line_addr (line_of v bit) = v.
Proof.
  intros Hv. unfold line_addr, line_of; cbn [oct1 oct2 oct3 oct4].
  rewrite !land_255, !Z.shiftr_div_pow2 by lia.
  Z.div_mod_to_equations; lia.
Qed.

(** The right child's address: the sign extension of [1<<31] only touches
    bits that are never printed. *)
Lemma lor_bit_low v bit :
  0 <= bit <= 31 -> (v mod 2 ^ 32) mod 2 ^ (bit + 1) = 0 ->
  (Z.lor v (ulong (sint (Z.shiftl 1 bit)))) mod 2 ^ 32 = v mod 2 ^ 32 + 2 ^ bit.
Proof.
  intros Hb Hal.
  assert (Hp : 0 < 2 ^ bit) by (apply Z.pow_pos_nonneg; lia).
  assert (Hp32 : 2 ^ bit < 2 ^ 32) by (apply Z.pow_lt_mono_r; lia).
  assert (E : ulong (sint (Z.shiftl 1 bit)) mod 2 ^ 32 = 2 ^ bit).
  { rewrite Z.shiftl_mul_pow2, Z.mul_1_l by lia.
    unfold ulong, sint, ULONG_BITS.
    change (2 ^ 64) with (2 ^ 32 * 2 ^ 32).
    rewrite Z.rem_mul_r by lia.
    rewrite Z.mul_comm, Z_mod_plus_full, Z.mod_mod by lia.
    rewrite Zminus_mod_idemp_l.
    replace (2 ^ bit + 2 ^ 31 - 2 ^ 31) with (2 ^ bit) by lia.
    apply Z.mod_small. lia. }
  rewrite <- !Z.land_ones by lia.
  rewrite Z.land_lor_distr_l, !Z.land_ones by lia.
  rewrite E.
  set (w := v mod 2 ^ 32) in *.
  assert (Hbit : Z.testbit w bit = false).
  { apply Z.testbit_false; [lia|].
    rewrite Z.pow_add_r in Hal by lia. change (2 ^ 1) with 2 in Hal.
    pose proof (Z.div_mod w (2 ^ bit * 2) ltac:(lia)) as Ew. rewrite Hal in Ew.
    rewrite Ew at 1. rewrite Z.add_0_r.
    replace (2 ^ bit * 2 * (w / (2 ^ bit * 2))) with (2 * (w / (2 ^ bit * 2)) * 2 ^ bit) by lia.
    rewrite Z.div_mul by lia. rewrite Z.mul_comm. apply Z_mod_mult. }
  assert (Hland : Z.land w (2 ^ bit) = 0).
  { apply Z.bits_inj'. intros i Hi.
    rewrite Z.land_spec, Z.pow2_bits_eqb, Z.bits_0 by lia.
    destruct (Z.eqb_spec bit i) as [<-|Hne]; [rewrite Hbit|]; auto using andb_false_r. }
  rewrite <- Z.lxor_lor by assumption.
  symmetry. apply Z.add_nocarry_lxor. assumption.
Qed.

Lemma dump_tree_prefixes t : forall v bit,
  fits t bit = true -> -1 <= bit <= 31 ->
  (v mod 2 ^ 32) mod 2 ^ (bit + 1) = 0 ->
  dump_tree t v bit = Some (map line_of_prefix (prefixes t (v mod 2 ^ 32) bit)).
Proof.
  induction t as [| |s0 IH0 s1 IH1]; intros v bit Hf Hb Hal;
    cbn [dump_tree prefixes map].
  - reflexivity.
  - unfold line_of_prefix; cbn [fst snd]. rewrite (line_of_low v).
    do 3 f_equal. lia.
  - cbn [fits] in Hf. apply andb_prop in Hf as [Hf H1]. apply andb_prop in Hf as [H H0].
    apply Z.leb_le in H.
    assert (Hlt : (bit <? 0) = false) by (apply Z.ltb_ge; lia). rewrite Hlt.
    assert (Hp : 0 < 2 ^ bit) by (apply Z.pow_pos_nonneg; lia).
    assert (Hal0 : (v mod 2 ^ 32) mod 2 ^ bit = 0).
    { rewrite Z.pow_add_r in Hal by lia. change (2 ^ 1) with 2 in Hal.
      rewrite Z.rem_mul_r in Hal by lia.
      pose proof (Z.mod_pos_bound (v mod 2 ^ 32) (2 ^ bit) Hp).
      pose proof (Z.mod_pos_bound ((v mod 2 ^ 32) / 2 ^ bit) 2 ltac:(lia)).
      nia. }
    rewrite (IH0 v (bit - 1)); try assumption; try lia;
      [ | replace (bit - 1 + 1) with bit by lia; assumption ].
    rewrite (IH1 _ (bit - 1)); try assumption; try lia.
    + rewrite lor_bit_low by (assumption || lia).
      rewrite map_app. reflexivity.
    + rewrite lor_bit_low by (assumption || lia).
      replace (bit - 1 + 1) with bit by lia.
      rewrite <- Zplus_mod_idemp_l, Hal0. apply Z_mod_same_full.
Qed.

(** In an aligned block of [2^(bit+1)] addresses, bit [bit] tells the two
    halves apart. *)
Lemma testbit_in_block base bit x :
  0 <= bit -> base mod 2 ^ (bit + 1) = 0 -> base <= x < base + 2 ^ (bit + 1) ->
  Z.testbit x bit = (base + 2 ^ bit <=? x).
Proof.
  intros Hb Hal Hx.
  rewrite Z.pow_add_r in * by lia. change (2 ^ 1) with 2 in *.
  assert (Hp : 0 < 2 ^ bit) by (apply Z.pow_pos_nonneg; lia).
  set (P := 2 ^ bit) in *.
  pose proof (Z.div_mod base (P * 2) ltac:(lia)) as Eb. rewrite Hal, Z.add_0_r in Eb.
  set (q := base / (P * 2)) in *.
  rewrite Z.testbit_eqb by lia. fold P.
  destruct (Z.leb_spec (base + P) x) as [H|H].
  - assert (E : x / P = 2 * q + 1).
    { symmetry. apply (Z.div_unique_pos x P (2 * q + 1) (x - base - P)); lia. }
    rewrite E. replace (2 * q + 1) with (1 + q * 2) by lia.
    rewrite Z_mod_plus_full. reflexivity.
  - assert (E : x / P = 2 * q).
    { symmetry. apply (Z.div_unique_pos x P (2 * q) (x - base)); lia. }
    rewrite E, Z.mul_comm, Z_mod_mult. reflexivity.
Qed.

Definition covers_prefix (p : Z * Z) (x : Z) : bool :=
  in_block (fst p) (32 - snd p) x.

(** Where the prefixes of a subtree lie, and how wide they are. *)
Lemma prefixes_shape t : forall base bit p,
  fits t bit = true -> -1 <= bit ->
  In p (prefixes t base bit) ->
  base <= fst p /\ fst p + 2 ^ (32 - snd p) <= base + 2 ^ (bit + 1) /\
  31 - bit <= snd p <= 32 /\
  (snd p = 31 - bit -> t = ALL) /\
  (base mod 2 ^ (bit + 1) = 0 -> fst p mod 2 ^ (32 - snd p) = 0).
Proof.
  induction t as [| |s0 IH0 s1 IH1]; intros base bit p Hf Hb Hin;
    cbn [prefixes] in Hin.
  - destruct Hin.
  - destruct Hin as [<-|[]]. cbn [fst snd].
    replace (32 - (31 - bit)) with (bit + 1) by lia.
    repeat split; auto; lia.
  - cbn [fits] in Hf. apply andb_prop in Hf as [Hf H1]. apply andb_prop in Hf as [H H0].
    apply Z.leb_le in H.
    assert (Hp : 0 < 2 ^ bit) by (apply Z.pow_pos_nonneg; lia).
    assert (E2 : 2 ^ (bit + 1) = 2 ^ bit * 2)
      by (rewrite Z.pow_add_r by lia; reflexivity).
    assert (Hhalf : base mod 2 ^ (bit + 1) = 0 -> base mod 2 ^ bit = 0).
    { rewrite E2. intros Hal. rewrite Z.rem_mul_r in Hal by lia.
      pose proof (Z.mod_pos_bound base (2 ^ bit) Hp).
      pose proof (Z.mod_pos_bound (base / 2 ^ bit) 2 ltac:(lia)). nia. }
    apply in_app_or in Hin as [Hin|Hin].
    + destruct (IH0 base (bit - 1) p H0 ltac:(lia) Hin) as (Ha & Hc & Hw & _ & Hal).
      replace (bit - 1 + 1) with bit in * by lia.
      repeat split; try lia; auto.
    + destruct (IH1 (base + 2 ^ bit) (bit - 1) p H1 ltac:(lia) Hin) as (Ha & Hc & Hw & _ & Hal).
      replace (bit - 1 + 1) with bit in * by lia.
      repeat split; try lia.
      intros Hbase. apply Hal.
      rewrite <- Zplus_mod_idemp_l, (Hhalf Hbase). apply Z_mod_same_full.
Qed.

Lemma count_covering_app x l1 l2 :
  count_covering x (l1 ++ l2) = (count_covering x l1 + count_covering x l2)%nat.
Proof. unfold count_covering. rewrite filter_app, length_app. reflexivity. Qed.

Definition count_prefixes (x : Z) (ps : list (Z * Z)) : nat :=
  List.length (filter (fun p => covers_prefix p x) ps).

(** Exactly one prefix of the walk covers a marked address of the subtree,
    and none covers any other address. *)
Lemma prefixes_count t : forall base bit x,
  fits t bit = true -> -1 <= bit -> base mod 2 ^ (bit + 1) = 0 ->
  count_prefixes x (prefixes t base bit) =
    if in_block base (bit + 1) x && member t bit x then 1%nat else 0%nat.
Proof.
  unfold count_prefixes.
  induction t as [| |s0 IH0 s1 IH1]; intros base bit x Hf Hb Hal;
    cbn [prefixes member filter List.length].
  - rewrite andb_false_r. reflexivity.
  - unfold covers_prefix; cbn [fst snd].
    replace (32 - (31 - bit)) with (bit + 1) by lia.
    rewrite andb_true_r. destruct (in_block base (bit + 1) x); reflexivity.
  - cbn [fits] in Hf. apply andb_prop in Hf as [Hf H1]. apply andb_prop in Hf as [H H0].
    apply Z.leb_le in H.
    assert (Hp : 0 < 2 ^ bit) by (apply Z.pow_pos_nonneg; lia).
    assert (E2 : 2 ^ (bit + 1) = 2 ^ bit * 2)
      by (rewrite Z.pow_add_r by lia; reflexivity).
    assert (Hhalf : base mod 2 ^ bit = 0).
    { rewrite E2 in Hal. rewrite Z.rem_mul_r in Hal by lia.
      pose proof (Z.mod_pos_bound base (2 ^ bit) Hp).
      pose proof (Z.mod_pos_bound (base / 2 ^ bit) 2 ltac:(lia)). nia. }
    rewrite filter_app, length_app.
    rewrite (IH0 base (bit - 1) x), (IH1 (base + 2 ^ bit) (bit - 1) x);
      try assumption; try lia.
    2:{ replace (bit - 1 + 1) with bit by lia.
        rewrite <- Zplus_mod_idemp_l, Hhalf. apply Z_mod_same_full. }
    2:{ replace (bit - 1 + 1) with bit by lia. assumption. }
    replace (bit - 1 + 1) with bit by lia.
    unfold in_block at 3.
    destruct (Z.leb_spec base x) as [Hlo|Hlo];
      [destruct (Z.ltb_spec x (base + 2 ^ (bit + 1))) as [Hhi|Hhi]|]; cbn [andb].
    + rewrite (testbit_in_block base bit x) by (assumption || lia).
      unfold in_block.
      destruct (Z.leb_spec (base + 2 ^ bit) x) as [Hm|Hm].
      * assert (E0 : (x <? base + 2 ^ bit) = false) by (apply Z.ltb_ge; lia).
        assert (E1 : (x <? base + 2 ^ bit + 2 ^ bit) = true) by (apply Z.ltb_lt; lia).
        rewrite E0, E1, andb_false_r. reflexivity.
      * assert (E0 : (x <? base + 2 ^ bit) = true) by (apply Z.ltb_lt; lia).
        assert (E1 : (base <=? x) = true) by (apply Z.leb_le; lia).
        rewrite E0, E1. cbn [andb]. rewrite Nat.add_0_r. reflexivity.
    + unfold in_block.
      assert (E0 : (x <? base + 2 ^ bit) = false) by (apply Z.ltb_ge; lia).
      assert (E1 : (x <? base + 2 ^ bit + 2 ^ bit) = false) by (apply Z.ltb_ge; lia).
      rewrite E0, E1, !andb_false_r. reflexivity.
    + unfold in_block.
      assert (E0 : (base <=? x) = false) by (apply Z.leb_gt; lia).
      assert (E1 : (base + 2 ^ bit <=? x) = false) by (apply Z.leb_gt; lia).
      rewrite E0, E1. reflexivity.
Qed.

(** The spec's buddy relation on (address, width) pairs: equal widths, and
    addresses that differ exactly in the lowest bit of the prefix. *)
Definition buddies (p q : Z * Z) : Prop :=
  snd p = snd q /\ Z.lxor (fst p) (fst q) = Z.shiftl 1 (32 - snd p).

Lemma halves_not_buddies base bit p q :
  0 <= bit -> base mod 2 ^ (bit + 1) = 0 ->
  base <= fst p < base + 2 ^ bit ->
  base + 2 ^ bit <= fst q < base + 2 ^ (bit + 1) ->
  32 - bit < snd p <= 32 ->
  ~ buddies p q.
Proof.
  intros Hb Hal Hp Hq Hw [Ew Ex].
  assert (Hpow : 0 < 2 ^ bit) by (apply Z.pow_pos_nonneg; lia).
  assert (E2 : 2 ^ (bit + 1) = 2 ^ bit * 2)
    by (rewrite Z.pow_add_r by lia; reflexivity).
  assert (Bp : Z.testbit (fst p) bit = false).
  { rewrite (testbit_in_block base bit) by (assumption || lia). apply Z.leb_gt. lia. }
  assert (Bq : Z.testbit (fst q) bit = true).
  { rewrite (testbit_in_block base bit) by (assumption || lia). apply Z.leb_le. lia. }
  assert (Bx : Z.testbit (Z.lxor (fst p) (fst q)) bit = true)
    by (rewrite Z.lxor_spec, Bp, Bq; reflexivity).
  rewrite Ex, Z.shiftl_mul_pow2, Z.mul_1_l in Bx by lia.
  rewrite Z.pow2_bits_false in Bx by lia. discriminate.
Qed.

Lemma buddies_sym p q : buddies p q -> buddies q p.
Proof.
  intros [Ew Ex]. split; [congruence|].
  rewrite Z.lxor_comm, <- Ew. assumption.
Qed.

(** Invariant C makes the walk free of buddies. *)
Lemma prefixes_no_buddies t : forall base bit p q,
  fits t bit = true -> canonical t = true ->
  -1 <= bit -> base mod 2 ^ (bit + 1) = 0 ->
  In p (prefixes t base bit) -> In q (prefixes t base bit) ->
  ~ buddies p q.
Proof.
  induction t as [| |s0 IH0 s1 IH1]; intros base bit p q Hf Hc Hb Hal Hp Hq;
    cbn [prefixes] in Hp, Hq.
  - destruct Hp.
  - destruct Hp as [<-|[]], Hq as [<-|[]]. intros [_ Ex]. cbn [fst snd] in Ex.
    rewrite Z.lxor_nilpotent, Z.shiftl_mul_pow2, Z.mul_1_l in Ex by lia.
    assert (0 < 2 ^ (32 - (31 - bit))) by (apply Z.pow_pos_nonneg; lia). lia.
  - pose proof Hf as Hfit.
    cbn [fits] in Hf. apply andb_prop in Hf as [Hf H1]. apply andb_prop in Hf as [H H0].
    apply Z.leb_le in H.
    cbn [canonical] in Hc. apply andb_prop in Hc as [Hc C1]. apply andb_prop in Hc as [Hc C0].
    assert (Hpow : 0 < 2 ^ bit) by (apply Z.pow_pos_nonneg; lia).
    assert (E2 : 2 ^ (bit + 1) = 2 ^ bit * 2)
      by (rewrite Z.pow_add_r by lia; reflexivity).
    assert (Hhalf : base mod 2 ^ bit = 0).
    { rewrite E2 in Hal. rewrite Z.rem_mul_r in Hal by lia.
      pose proof (Z.mod_pos_bound base (2 ^ bit) Hpow).
      pose proof (Z.mod_pos_bound (base / 2 ^ bit) 2 ltac:(lia)). nia. }
    assert (Hhalf1 : (base + 2 ^ bit) mod 2 ^ bit = 0).
    { rewrite <- Zplus_mod_idemp_l, Hhalf. apply Z_mod_same_full. }
    assert (Hcross : forall p q,
      In p (prefixes s0 base (bit - 1)) ->
      In q (prefixes s1 (base + 2 ^ bit) (bit - 1)) -> ~ buddies p q).
    { intros p' q' Hp' Hq' Hbud.
      destruct (prefixes_shape s0 base (bit - 1) p' H0 ltac:(lia) Hp')
        as (Pa & Pc & Pw & Pall & _).
      destruct (prefixes_shape s1 (base + 2 ^ bit) (bit - 1) q' H1 ltac:(lia) Hq')
        as (Qa & Qc & Qw & Qall & _).
      replace (bit - 1 + 1) with bit in * by lia.
      assert (0 < 2 ^ (32 - snd p')) by (apply Z.pow_pos_nonneg; lia).
      assert (0 < 2 ^ (32 - snd q')) by (apply Z.pow_pos_nonneg; lia).
      destruct (Z.eq_dec (snd p') (31 - (bit - 1))) as [Ew|Ew].
      - assert (s0 = ALL) by auto.
        assert (s1 = ALL) by (apply Qall; destruct Hbud; lia).
        subst s0 s1. discriminate Hc.
      - revert Hbud. apply (halves_not_buddies base bit); try assumption; lia. }
    apply in_app_or in Hp as [Hp|Hp]; apply in_app_or in Hq as [Hq|Hq].
    + apply (IH0 base (bit - 1)); try assumption; try lia.
      replace (bit - 1 + 1) with bit by lia. assumption.
    + apply Hcross; assumption.
    + intros Hbud. apply buddies_sym in Hbud. revert Hbud. apply Hcross; assumption.
    + apply (IH1 (base + 2 ^ bit) (bit - 1)); try assumption; try lia.
      replace (bit - 1 + 1) with bit by lia. assumption.
Qed.

(** *** The whole tree *)

Definition prefix_of_line (l : cidr_line) : Z * Z := (line_addr l, width l).

Lemma prefix_of_line_of_prefix p :
  0 <= fst p < 2 ^ 32 -> prefix_of_line (line_of_prefix p) = p.
Proof.
  intros Hp. destruct p as [a0 w]. unfold prefix_of_line, line_of_prefix.
  cbn [fst snd] in *. rewrite line_addr_of by assumption.
  unfold line_of; cbn [width]. f_equal. lia.
Qed.

Lemma root_prefix_bounds t p :
  fits t 31 = true -> In p (prefixes t 0 31) ->
  0 <= fst p < 2 ^ 32 /\ 0 <= snd p <= 32 /\ fst p mod 2 ^ (32 - snd p) = 0.
Proof.
  intros Hf Hin.
  destruct (prefixes_shape t 0 31 p Hf ltac:(lia) Hin) as (Ha & Hc & Hw & _ & Hal).
  assert (0 < 2 ^ (32 - snd p)) by (apply Z.pow_pos_nonneg; lia).
  change (0 + 2 ^ (31 + 1)) with (2 ^ 32) in Hc.
  repeat split; try lia. apply Hal. reflexivity.
Qed.

(** [dump_output] does not abort on a tree that respects invariant D, and
    its lines are the prefixes of the walk. *)
Lemma dump_output_prefixes t :
  fits t 31 = true ->
  exists ls, dump_output t = Some ls /\ map prefix_of_line ls = prefixes t 0 31.
Proof.
  intros Hf. unfold dump_output.
  rewrite dump_tree_prefixes by (assumption || lia || reflexivity).
  change (0 mod 2 ^ 32) with 0.
  eexists; split; [reflexivity|].
  rewrite map_map.
  rewrite <- (map_id (prefixes t 0 31)) at 2.
  apply map_ext_in. intros p Hin.
  apply prefix_of_line_of_prefix. apply (root_prefix_bounds t); assumption.
Qed.

Lemma count_covering_prefixes x ls :
  count_covering x ls = count_prefixes x (map prefix_of_line ls).
Proof.
  unfold count_covering, count_prefixes.
  induction ls as [|l ls IH]; cbn [map filter]; [reflexivity|].
  change (covers_prefix (prefix_of_line l) x) with (covers l x).
  destruct (covers l x); cbn [List.length]; rewrite IH; reflexivity.
Qed.

Lemma dump_output_count t x :
  fits t 31 = true ->
  exists ls, dump_output t = Some ls /\
    count_covering x ls = if is_addr x && member t 31 x then 1%nat else 0%nat.
Proof.
  intros Hf. destruct (dump_output_prefixes t Hf) as (ls & Hd & Hm).
  exists ls. split; [assumption|].
  rewrite count_covering_prefixes, Hm.
  rewrite prefixes_count by (assumption || lia || reflexivity).
  reflexivity.
Qed.

(** ** [save_range] *)

(** Every positive number is an odd number times a power of two. *)
Lemma odd_part a : 0 < a -> exists t q, 0 <= t /\ 0 <= q /\ a = 2 ^ t * (2 * q + 1).
Proof.
  destruct a as [|p|p]; try lia. intros _.
  induction p as [p _|p IH|].
  - exists 0, (Z.pos p). repeat split; lia.
  - destruct IH as (t & q & Ht & Hq & E).
    exists (t + 1), q. repeat split; try lia.
    rewrite Z.pow_add_r by lia. change (2 ^ 1) with 2.
    change (Z.pos p~0) with (2 * Z.pos p). rewrite E. ring.
  - exists 0, 0. repeat split; lia.
Qed.

Lemma testbit_split c r t i :
  0 <= t -> 0 <= r < 2 ^ t -> 0 <= i ->
  Z.testbit (c * 2 ^ t + r) i =
    if i <? t then Z.testbit r i else Z.testbit c (i - t).
Proof.
  intros Ht Hr Hi.
  assert (Hp : 0 < 2 ^ t) by (apply Z.pow_pos_nonneg; lia).
  destruct (Z.ltb_spec i t) as [H|H].
  - rewrite <- (Z.mod_pow2_bits_low _ t) by lia.
    rewrite Z.add_comm, Z_mod_plus_full, Z.mod_small by lia. reflexivity.
  - replace i with ((i - t) + t) at 1 by lia.
    rewrite <- Z.div_pow2_bits by lia.
    rewrite Z.div_add_l, Z.div_small, Z.add_0_r by lia. reflexivity.
Qed.

(** [(a1 - 1) & ~a1] is the run of ones below the lowest set bit of [a1];
    for [a1 = 0] it is the all-ones word. *)
Lemma low_mask a1 :
  0 <= a1 < 2 ^ 32 ->
  exists t, 0 <= t <= 64 /\
    Z.land (ul_sub a1 1) (ul_not a1) = 2 ^ t - 1 /\
    a1 mod 2 ^ t = 0 /\
    (0 < a1 -> 2 ^ t <= a1) /\
    (forall j, t < j -> a1 mod 2 ^ j = 0 -> a1 = 0).
Proof.
  intros Ha. destruct (Z.eq_dec a1 0) as [->|Hne].
  - exists 64. repeat split; try lia; try reflexivity.
  - destruct (odd_part a1 ltac:(lia)) as (t & q & Ht & Hq & E).
    assert (Hp : 0 < 2 ^ t) by (apply Z.pow_pos_nonneg; lia).
    assert (Ht32 : t < 32).
    { destruct (Z_lt_ge_dec t 32); [assumption|].
      assert (2 ^ 32 <= 2 ^ t) by (apply Z.pow_le_mono_r; lia). nia. }
    exists t. split; [lia|]. split; [|split; [|split]].
    + unfold ul_sub, ul_not, ulong, ULONG_BITS.
      rewrite (Z.mod_small (a1 - 1)) by lia.
      apply Z.bits_inj'. intros i Hi.
      assert (Ta : Z.testbit a1 i =
                   if i <? t then false else Z.testbit (2 * q + 1) (i - t)).
      { replace a1 with ((2 * q + 1) * 2 ^ t + 0) by lia.
        rewrite testbit_split, Z.bits_0 by lia. reflexivity. }
      assert (Tb : Z.testbit (a1 - 1) i =
                   if i <? t then true else Z.testbit (2 * q) (i - t)).
      { replace (a1 - 1) with ((2 * q) * 2 ^ t + Z.ones t)
          by (rewrite Z.ones_equiv; lia).
        rewrite testbit_split by (rewrite ?Z.ones_equiv; lia).
        rewrite Z.testbit_ones_nonneg by lia.
        destruct (Z.ltb_spec i t); reflexivity. }
      rewrite Z.land_spec, Z.testbit_mod_pow2, Z.lnot_spec, Ta, Tb by lia.
      replace (2 ^ t - 1) with (Z.ones t) by (rewrite Z.ones_equiv; lia).
      rewrite Z.testbit_ones_nonneg by lia.
      destruct (Z.ltb_spec i t) as [H|H].
      * assert (E2 : (i <? 64) = true) by (apply Z.ltb_lt; lia).
        rewrite E2. reflexivity.
      * destruct (Z.eq_dec i t) as [->|Hit].
        -- rewrite Z.sub_diag, Z.testbit_even_0. reflexivity.
        -- replace (i - t) with (Z.succ (i - t - 1)) by lia.
           rewrite Z.testbit_even_succ, Z.testbit_odd_succ by lia.
           destruct (Z.testbit q (i - t - 1)), (i <? 64); reflexivity.
    + rewrite E, Z.mul_comm. apply Z_mod_mult.
    + intros _. nia.
    + intros j Hj Hm. exfalso.
      apply Z.mod_divide in Hm; [|apply Z.pow_nonzero; lia].
      destruct Hm as [c Hc].
      replace j with ((j - t - 1) + 1 + t) in Hc by lia.
      rewrite !Z.pow_add_r in Hc by lia. change (2 ^ 1) with 2 in Hc.
      set (d := c * 2 ^ (j - t - 1)) in *.
      assert (2 ^ t * (2 * q + 1) = 2 ^ t * (2 * d)) by (unfold d; lia).
      assert (2 * q + 1 = 2 * d) by nia. lia.
Qed.

Lemma ones_shiftr t : 1 <= t -> Z.shiftr (2 ^ t - 1) 1 = 2 ^ (t - 1) - 1.
Proof.
  intros Ht. rewrite Z.shiftr_div_pow2 by lia. change (2 ^ 1) with 2.
  replace t with ((t - 1) + 1) at 1 by lia.
  rewrite Z.pow_add_r by lia. change (2 ^ 1) with 2.
  assert (0 < 2 ^ (t - 1)) by (apply Z.pow_pos_nonneg; lia).
  symmetry. apply (Z.div_unique_pos _ 2 _ 1); lia.
Qed.

(** The inner [while] of [save_range] finds the largest block, among those
    of size at most [2^t], that stays below [a2]. *)
Lemma shrink_loop_spec a1 a2 : forall fuel t,
  0 <= t <= Z.of_nat fuel -> 0 <= a1 <= a2 -> a1 + 2 ^ t - 1 < 2 ^ 64 ->
  exists k, 0 <= k <= t /\
    shrink_loop fuel a1 a2 (2 ^ t - 1) = Some (2 ^ k - 1) /\
    a1 + 2 ^ k - 1 <= a2 /\
    (forall j, k < j <= t -> a2 < a1 + 2 ^ j - 1).
Proof.
  induction fuel as [|fuel IH]; intros t Ht Ha Hw.
  - assert (t = 0) by lia. subst t. exists 0. cbn [shrink_loop].
    unfold ul_add, ulong, ULONG_BITS. rewrite Z.mod_small by (simpl; lia).
    assert (E : (a1 + (2 ^ 0 - 1) >? a2) = false) by (simpl; lia).
    rewrite E. repeat split; simpl; lia.
  - assert (Hp : 0 < 2 ^ t) by (apply Z.pow_pos_nonneg; lia).
    cbn [shrink_loop]. unfold ul_add, ulong, ULONG_BITS.
    rewrite Z.mod_small by lia.
    destruct (Z.gtb_spec (a1 + (2 ^ t - 1)) a2) as [Hgt|Hle].
    + assert (Ht1 : 1 <= t).
      { destruct (Z.eq_dec t 0) as [->|]; [simpl in Hgt; lia|lia]. }
      rewrite ones_shiftr by assumption.
      assert (2 ^ (t - 1) <= 2 ^ t) by (apply Z.pow_le_mono_r; lia).
      destruct (IH (t - 1) ltac:(lia) Ha ltac:(lia)) as (k & Hk & E & Hfit & Hmax).
      exists k. repeat split; try lia; try assumption.
      intros j Hj. destruct (Z.eq_dec j t) as [->|]; [lia|apply Hmax; lia].
    + exists t. repeat split; try lia.
Qed.

(** The [for] loop of [save_range] counts the ones of the mask. *)
Lemma bit_loop_spec : forall fuel k bit,
  0 <= k <= Z.of_nat fuel -> bit_loop fuel bit (2 ^ k - 1) = Some (bit + k).
Proof.
  induction fuel as [|fuel IH]; intros k bit Hk.
  - assert (k = 0) by lia. subst k. cbn. f_equal. lia.
  - cbn [bit_loop]. destruct (Z.eq_dec k 0) as [->|Hne].
    + cbn. f_equal. lia.
    + assert (1 < 2 ^ k) by (apply Z.pow_gt_1; lia).
      assert (E : (2 ^ k - 1 =? 0) = false) by (apply Z.eqb_neq; lia).
      rewrite E, ones_shiftr, IH by lia. f_equal. lia.
Qed.

(** One turn of the outer loop strips the largest aligned block that starts
    at [a1] and does not go past [a2]. *)
Lemma range_step_spec a1 a2 :
  0 <= a1 <= a2 -> a2 < 2 ^ 32 ->
  exists k, 0 <= k <= 32 /\
    range_step a1 a2 = Some (a1, k - 1, a1 + 2 ^ k) /\
    a1 mod 2 ^ k = 0 /\
    a1 + 2 ^ k - 1 <= a2 /\
    (forall j, k < j -> a1 mod 2 ^ j = 0 -> a2 < a1 + 2 ^ j - 1).
Proof.
  intros Ha Ha2. unfold range_step.
  destruct (low_mask a1 ltac:(lia)) as (t & Ht & Em & Hal & Hle & Hmax).
  rewrite Em.
  assert (Hw : a1 + 2 ^ t - 1 < 2 ^ 64).
  { destruct (Z.eq_dec a1 0) as [->|Hne].
    - assert (2 ^ t <= 2 ^ 64) by (apply Z.pow_le_mono_r; lia). lia.
    - specialize (Hle ltac:(lia)). lia. }
  destruct (shrink_loop_spec a1 a2 (Z.to_nat ULONG_BITS) t
              ltac:(unfold ULONG_BITS; lia) Ha Hw) as (k & Hk & Es & Hfit & Hbig).
  assert (Hpk : 0 < 2 ^ k) by (apply Z.pow_pos_nonneg; lia).
  assert (Hk32 : k <= 32).
  { destruct (Z_le_gt_dec k 32); [assumption|].
    assert (2 ^ 33 <= 2 ^ k) by (apply Z.pow_le_mono_r; lia). lia. }
  exists k. rewrite Es, bit_loop_spec by (unfold ULONG_BITS; lia).
  split; [lia|]. split; [|split; [|split]].
  - unfold ul_add, ulong, ULONG_BITS.
    assert (2 ^ k <= 2 ^ 32) by (apply Z.pow_le_mono_r; lia).
    rewrite (Z.mod_small (2 ^ k - 1 + 1)) by lia.
    rewrite Z.mod_small by lia.
    do 3 f_equal; lia.
  - destruct (Z.eq_dec k t) as [->|Hkt]; [assumption|].
    replace t with ((t - k) + k) in Hal by lia.
    rewrite Z.pow_add_r in Hal by lia.
    apply Z.mod_divide in Hal; [|lia]. destruct Hal as [c Hc].
    rewrite Hc, Z.mul_assoc. apply Z_mod_mult.
  - assumption.
  - intros j Hj Hm. destruct (Z_le_gt_dec j t) as [Hjt|Hjt].
    + apply Hbig. lia.
    + assert (a1 = 0) by (apply (Hmax j); [lia|assumption]). subst a1.
      assert (t = 64).
      { destruct (Z.eq_dec t 64); [assumption|].
        exfalso. assert (E64 : 2 ^ t - 1 = 2 ^ 64 - 1) by (rewrite <- Em; reflexivity).
        assert (2 ^ t < 2 ^ 64) by (apply Z.pow_lt_mono_r; lia). lia. }
      assert (2 ^ 64 <= 2 ^ j) by (apply Z.pow_le_mono_r; lia).
      lia.
Qed.

Lemma mod_pow2_le a j k : 0 <= j <= k -> a mod 2 ^ k = 0 -> a mod 2 ^ j = 0.
Proof.
  intros Hj Hk.
  replace k with ((k - j) + j) in Hk by lia.
  rewrite Z.pow_add_r in Hk by lia.
  assert (0 < 2 ^ j) by (apply Z.pow_pos_nonneg; lia).
  assert (0 < 2 ^ (k - j)) by (apply Z.pow_pos_nonneg; lia).
  apply Z.mod_divide in Hk; [|lia]. destruct Hk as [c Hc].
  rewrite Hc, Z.mul_assoc. apply Z_mod_mult.
Qed.

(** [k] is the size exponent of the largest aligned block at [lo] that
    does not go past [hi]. *)
Definition largest_block (lo hi k : Z) : Prop :=
  0 <= k <= 32 /\ lo mod 2 ^ k = 0 /\ lo + 2 ^ k - 1 <= hi /\
  forall j, k < j -> lo mod 2 ^ j = 0 -> hi < lo + 2 ^ j - 1.

(** The blocks of a finished loop, read as its turns: each turn starts at
    the current [lo], takes the largest block there, and moves [lo] past
    it. *)
Fixpoint strips (lo hi : Z) (blocks : list (Z * Z)) : Prop :=
  match blocks with
  | [] => hi < lo
  | (b, bit) :: rest =>
      b = lo /\ lo <= hi /\ largest_block lo hi (bit + 1) /\
      lo < lo + 2 ^ (bit + 1) /\
      strips (lo + 2 ^ (bit + 1)) hi rest
  end.

Definition add_blocks (root : NODE) (blocks : list (Z * Z)) : NODE :=
  fold_left (fun t b => add_to_node t (fst b) 31 (snd b)) blocks root.

Lemma range_loop_strips : forall fuel root a1 a2 r blocks,
  range_loop fuel root a1 a2 = Some (r, blocks) ->
  0 <= a1 -> a2 < 2 ^ 32 ->
  strips a1 a2 blocks /\ r = add_blocks root blocks.
Proof.
  induction fuel as [|fuel IH]; intros root a1 a2 r blocks E Ha Ha2;
    cbn [range_loop] in E.
  - destruct (Z.leb_spec a1 a2); [discriminate|].
    injection E as <- <-. split; [simpl; lia|reflexivity].
  - destruct (Z.leb_spec a1 a2) as [Hle|Hgt].
    + destruct (range_step_spec a1 a2 ltac:(lia) Ha2) as (k & Hk & Es & Hal & Hfit & Hmax).
      rewrite Es in E.
      destruct (range_loop fuel (add_to_node root a1 31 (k - 1)) (a1 + 2 ^ k) a2)
        as [[r' bl]|] eqn:El; [|discriminate].
      injection E as <- <-.
      assert (0 < 2 ^ k) by (apply Z.pow_pos_nonneg; lia).
      destruct (IH _ _ _ _ _ El ltac:(lia) Ha2) as [Hs ->].
      cbn [strips]. replace (k - 1 + 1) with k by lia.
      repeat split; try assumption; try lia.
    + injection E as <- <-. split; [simpl; lia|reflexivity].
Qed.

(** What the loop adds to the tree. *)
Lemma range_loop_member : forall fuel root a1 a2 r blocks,
  range_loop fuel root a1 a2 = Some (r, blocks) ->
  0 <= a1 -> a2 < 2 ^ 32 -> good root ->
  good r /\
  forall x, is_addr x = true ->
    member r 31 x = member root 31 x || ((a1 <=? x) && (x <=? a2)).
Proof.
  induction fuel as [|fuel IH]; intros root a1 a2 r blocks E Ha Ha2 Hg;
    cbn [range_loop] in E.
  - destruct (Z.leb_spec a1 a2); [discriminate|].
    injection E as <- <-. split; [assumption|]. intros x _.
    destruct (Z.leb_spec a1 x), (Z.leb_spec x a2); cbn [andb];
      rewrite ?orb_false_r; try reflexivity; lia.
  - destruct (Z.leb_spec a1 a2) as [Hle|Hgt].
    + destruct (range_step_spec a1 a2 ltac:(lia) Ha2) as (k & Hk & Es & Hal & Hfit & Hmax).
      rewrite Es in E.
      destruct (range_loop fuel (add_to_node root a1 31 (k - 1)) (a1 + 2 ^ k) a2)
        as [[r' bl]|] eqn:El; [|discriminate].
      injection E as <- <-.
      assert (0 < 2 ^ k) by (apply Z.pow_pos_nonneg; lia).
      destruct (IH _ _ _ _ _ El ltac:(lia) Ha2
                  (add_to_node_good root a1 (k - 1) ltac:(lia) Hg)) as [Hg' Hm].
      split; [assumption|]. intros x Hx.
      rewrite (Hm x Hx), add_to_node_member;
        try assumption; try lia;
        [ | replace (k - 1 + 1) with k by lia; assumption ].
      replace (k - 1 + 1) with k by lia. unfold in_block.
      rewrite <- orb_assoc. f_equal.
      destruct (Z.leb_spec a1 x), (Z.ltb_spec x (a1 + 2 ^ k)),
        (Z.leb_spec (a1 + 2 ^ k) x), (Z.leb_spec x a2); cbn [andb orb];
        try reflexivity; lia.
    + injection E as <- <-. split; [assumption|]. intros x _.
      destruct (Z.leb_spec a1 x), (Z.leb_spec x a2); cbn [andb];
        rewrite ?orb_false_r; try reflexivity; lia.
Qed.

(** Once a block has been cut short by [a2], the blocks get strictly
    smaller, so at most [k] turns remain. *)
Lemma range_loop_descending : forall fuel k root a1 a2,
  1 <= a1 -> a2 < 2 ^ 32 -> 0 <= k ->
  a1 mod 2 ^ k = 0 -> a2 < a1 + 2 ^ k - 1 ->
  Z.min k 32 <= Z.of_nat fuel ->
  exists r blocks, range_loop fuel root a1 a2 = Some (r, blocks) /\
    Z.of_nat (List.length blocks) <= Z.min k 32.
Proof.
  induction fuel as [|fuel IH]; intros k root a1 a2 Ha Ha2 Hk Hal Hcut Hf;
    cbn [range_loop]; destruct (Z.leb_spec a1 a2) as [Hle|Hgt];
    try (exists root, []; split; [reflexivity|cbn [List.length]; lia]).
  all: destruct (range_step_spec a1 a2 ltac:(lia) Ha2) as (k' & Hk' & Es & Hal' & Hfit & Hmax).
  all: assert (Hp' : 0 < 2 ^ k') by (apply Z.pow_pos_nonneg; lia).
  all: assert (Hlt : k' < k)
    by (destruct (Z_lt_ge_dec k' k); [assumption|];
        assert (2 ^ k <= 2 ^ k') by (apply Z.pow_le_mono_r; lia); lia).
  all: assert (Hlt32 : k' < 32)
    by (destruct (Z_lt_ge_dec k' 32); [assumption|];
        assert (2 ^ 32 <= 2 ^ k') by (apply Z.pow_le_mono_r; lia); lia).
  - lia.
  - rewrite Es.
    assert (Hcut' : a2 < a1 + 2 ^ k' + 2 ^ k' - 1).
    { specialize (Hmax (k' + 1) ltac:(lia)
                    (mod_pow2_le a1 (k' + 1) k ltac:(lia) Hal)).
      rewrite Z.pow_add_r in Hmax by lia. change (2 ^ 1) with 2 in Hmax. lia. }
    assert (Hal1 : (a1 + 2 ^ k') mod 2 ^ k' = 0).
    { rewrite <- Zplus_mod_idemp_l, Hal'. apply Z_mod_same_full. }
    destruct (IH k' (add_to_node root a1 31 (k' - 1)) (a1 + 2 ^ k') a2
                ltac:(lia) Ha2 ltac:(lia) Hal1 Hcut' ltac:(lia))
      as (r & bl & El & Hlen).
    rewrite El. exists r, ((a1, k' - 1) :: bl). split; [reflexivity|].
    cbn [List.length]. lia.
Qed.

(** Before that, the alignment of [a1] grows with every turn. *)
Lemma range_loop_ascending : forall fuel t root a1 a2,
  0 <= a1 -> a2 < 2 ^ 32 -> 0 <= t <= 32 -> a1 mod 2 ^ t = 0 ->
  64 - t <= Z.of_nat fuel ->
  exists r blocks, range_loop fuel root a1 a2 = Some (r, blocks) /\
    Z.of_nat (List.length blocks) <= 64 - t.
Proof.
  induction fuel as [|fuel IH]; intros t root a1 a2 Ha Ha2 Ht Hal Hf; [lia|].
  cbn [range_loop]. destruct (Z.leb_spec a1 a2) as [Hle|Hgt];
    [|exists root, []; split; [reflexivity|cbn [List.length]; lia]].
  destruct (range_step_spec a1 a2 ltac:(lia) Ha2) as (k & Hk & Es & Halk & Hfit & Hmax).
  assert (Hp : 0 < 2 ^ k) by (apply Z.pow_pos_nonneg; lia).
  rewrite Es.
  assert (Hal1 : (a1 + 2 ^ k) mod 2 ^ k = 0).
  { rewrite <- Zplus_mod_idemp_l, Halk. apply Z_mod_same_full. }
  destruct (Z.eq_dec (a1 mod 2 ^ (k + 1)) 0) as [Hev|Hodd].
  - (* the block was cut short by [a2] *)
    assert (Hcut : a2 < a1 + 2 ^ k + 2 ^ k - 1).
    { specialize (Hmax (k + 1) ltac:(lia) Hev).
      rewrite Z.pow_add_r in Hmax by lia. change (2 ^ 1) with 2 in Hmax. lia. }
    destruct (Z.eq_dec k 32) as [->|Hk32].
    + assert (E : range_loop fuel (add_to_node root a1 31 (32 - 1)) (a1 + 2 ^ 32) a2
                  = Some (add_to_node root a1 31 (32 - 1), [])).
      { destruct fuel; cbn [range_loop];
          (destruct (Z.leb_spec (a1 + 2 ^ 32) a2); [lia|reflexivity]). }
      rewrite E. eexists _, _. split; [reflexivity|]. cbn [List.length]. lia.
    + destruct (range_loop_descending fuel k (add_to_node root a1 31 (k - 1))
                  (a1 + 2 ^ k) a2 ltac:(lia) Ha2 ltac:(lia) Hal1 Hcut ltac:(lia))
        as (r & bl & El & Hlen).
      rewrite El. eexists _, _. split; [reflexivity|]. cbn [List.length]. lia.
  - (* the block is as large as the alignment of [a1] allows *)
    assert (Hkt : t <= k).
    { destruct (Z_le_gt_dec t k); [assumption|].
      exfalso. apply Hodd. apply (mod_pow2_le a1 (k + 1) t); [lia|assumption]. }
    assert (Hne : a1 <> 0) by (intros ->; apply Hodd; apply Z.mod_0_l; lia).
    assert (Hk31 : k <= 31).
    { destruct (Z_le_gt_dec k 31); [assumption|].
      assert (k = 32) by lia. subst k.
      apply Z.mod_divide in Halk; [|lia]. destruct Halk as [c Hc]. lia. }
    assert (Hal2 : (a1 + 2 ^ k) mod 2 ^ (k + 1) = 0).
    { rewrite Z.pow_add_r in * by lia. change (2 ^ 1) with 2 in *.
      rewrite Z.rem_mul_r in * by lia.
      rewrite Hal1. rewrite Halk in Hodd.
      replace (a1 + 2 ^ k) with (a1 + 1 * 2 ^ k) by lia.
      rewrite Z.div_add by lia.
      pose proof (Z.mod_pos_bound (a1 / 2 ^ k) 2 ltac:(lia)).
      assert (E1 : (a1 / 2 ^ k) mod 2 = 1) by nia.
      replace ((a1 / 2 ^ k + 1) mod 2) with 0; [lia|].
      rewrite <- Zplus_mod_idemp_l, E1. reflexivity. }
    destruct (IH (k + 1) (add_to_node root a1 31 (k - 1)) (a1 + 2 ^ k) a2
                ltac:(lia) Ha2 ltac:(lia) Hal2 ltac:(lia))
      as (r & bl & El & Hlen).
    rewrite El. eexists _, _. split; [reflexivity|]. cbn [List.length]. lia.
Qed.

(** Granting the loop more turns than it takes changes nothing. *)
Lemma range_loop_more_fuel : forall fuel fuel' root a1 a2 res,
  range_loop fuel root a1 a2 = Some res -> (fuel <= fuel')%nat ->
  range_loop fuel' root a1 a2 = Some res.
Proof.
  induction fuel as [|fuel IH]; intros fuel' root a1 a2 res E Hf.
  - cbn [range_loop] in E. destruct (a1 <=? a2) eqn:El; [discriminate|].
    destruct fuel'; cbn [range_loop]; rewrite El; assumption.
  - destruct fuel' as [|fuel']; [lia|].
    cbn [range_loop] in *. destruct (a1 <=? a2); [|assumption].
    destruct (range_step a1 a2) as [[[b bit] a1']|]; [|discriminate].
    destruct (range_loop fuel (add_to_node root b 31 bit) a1' a2) as [[r bl]|] eqn:El;
      [|discriminate].
    rewrite (IH fuel' _ _ _ _ El ltac:(lia)). assumption.
Qed.

Lemma range_member_empty a1 a2 x : a2 < a1 -> (a1 <=? x) && (x <=? a2) = false.
Proof.
  intros H. destruct (Z.leb_spec a1 x), (Z.leb_spec x a2); try reflexivity; lia.
Qed.

(** [save_range] returns for every pair of addresses, and adds the
    addresses between them. *)
Lemma save_range_spec root a1 a2 :
  0 <= a1 -> 0 <= a2 < 2 ^ 32 -> good root ->
  exists r ds, save_range root a1 a2 = Some (r, ds) /\ good r /\
    forall x, is_addr x = true ->
      member r 31 x = member root 31 x || ((a1 <=? x) && (x <=? a2)).
Proof.
  intros Ha1 Ha2 Hg. unfold save_range.
  destruct (Z.gtb_spec a1 a2) as [Hgt|Hle].
  - exists root, [RangeReversed]. repeat split; try apply Hg.
    intros x _. rewrite range_member_empty by lia. rewrite orb_false_r. reflexivity.
  - destruct (range_loop_ascending RANGE_FUEL 0 root a1 a2 Ha1 ltac:(lia) ltac:(lia)
                ltac:(apply Z.mod_1_r) ltac:(unfold RANGE_FUEL; lia))
      as (r & bl & El & _).
    rewrite El. exists r, []. split; [reflexivity|].
    apply (range_loop_member _ _ _ _ _ _ El); (assumption || lia).
Qed.

(** ** [save_cidr] *)

(** The netmask of width [w]: the high [w] bits of a 32-bit word. *)
Definition mask (w : Z) : Z := 2 ^ 32 - 2 ^ (32 - w).

Definition prefix_base (a w : Z) : Z := Z.land a (mask w).

Lemma mask_range w : 0 <= w <= 32 -> 0 <= mask w < 2 ^ 32.
Proof.
  intros Hw. unfold mask.
  assert (0 < 2 ^ (32 - w)) by (apply Z.pow_pos_nonneg; lia).
  assert (2 ^ (32 - w) <= 2 ^ 32) by (apply Z.pow_le_mono_r; lia). lia.
Qed.

Lemma mask_bits w i :
  0 <= w <= 32 -> 0 <= i ->
  Z.testbit (mask w) i = (32 - w <=? i) && (i <? 32).
Proof.
  intros Hw Hi. unfold mask.
  replace (2 ^ 32 - 2 ^ (32 - w)) with (Z.ones w * 2 ^ (32 - w)).
  2:{ rewrite Z.ones_equiv. replace 32 with (w + (32 - w)) at 2 by lia.
      rewrite Z.pow_add_r by lia. lia. }
  rewrite Z.mul_pow2_bits by lia.
  destruct (Z.leb_spec (32 - w) i) as [H|H].
  - rewrite Z.testbit_ones_nonneg by lia.
    destruct (Z.ltb_spec (i - (32 - w)) w), (Z.ltb_spec i 32); try reflexivity; lia.
  - apply Z.testbit_neg_r. lia.
Qed.

(** The shift in [save_cidr] is evaluated with a count below 32 only, and
    the address handed to [add_to_node] is [a AND mask(n)]. *)
Lemma cidr_base_spec a n :
  0 <= n <= 32 -> cidr_base a n = Some (prefix_base a n).
Proof.
  intros Hn. unfold cidr_base, prefix_base.
  destruct (Z.eqb_spec n 0) as [->|Hne].
  - change (mask 0) with 0. rewrite Z.land_0_r. reflexivity.
  - unfold uint_shl.
    assert (E1 : (0 <=? 32 - n) && (32 - n <? 32) = true).
    { apply andb_true_intro. split; [apply Z.leb_le|apply Z.ltb_lt]; lia. }
    rewrite E1. f_equal.
    assert (Em : uint (Z.shiftl 4294967295 (32 - n)) = mask n).
    { unfold uint, mask. rewrite Z.shiftl_mul_pow2 by lia.
      assert (0 < 2 ^ (32 - n)) by (apply Z.pow_pos_nonneg; lia).
      assert (2 ^ (32 - n) < 2 ^ 32) by (apply Z.pow_lt_mono_r; lia).
      replace (4294967295 * 2 ^ (32 - n))
        with (2 ^ 32 - 2 ^ (32 - n) + (2 ^ (32 - n) - 1) * 2 ^ 32) by lia.
      rewrite Z_mod_plus_full. apply Z.mod_small. lia. }
    rewrite Em, <- Z.land_assoc. f_equal.
    change 4294967295 with (Z.ones 32).
    rewrite Z.land_comm, Z.land_ones by lia.
    apply Z.mod_small. apply mask_range. lia.
Qed.

Lemma prefix_base_eq a w :
  0 <= w <= 32 -> 0 <= a < 2 ^ 32 ->
  prefix_base a w = a / 2 ^ (32 - w) * 2 ^ (32 - w).
Proof.
  intros Hw Ha. unfold prefix_base.
  apply Z.bits_inj'. intros i Hi.
  rewrite Z.land_spec, mask_bits by lia.
  rewrite Z.mul_pow2_bits by lia.
  destruct (Z.leb_spec (32 - w) i) as [H|H].
  - rewrite Z.div_pow2_bits by lia.
    replace (i - (32 - w) + (32 - w)) with i by lia.
    destruct (Z.ltb_spec i 32); [apply andb_true_r|].
    rewrite addr_bits_high by (assumption || lia). reflexivity.
  - rewrite (Z.testbit_neg_r _ (i - (32 - w))) by lia. apply andb_false_r.
Qed.

Lemma prefix_base_props a w :
  0 <= w <= 32 -> 0 <= a < 2 ^ 32 ->
  0 <= prefix_base a w <= a /\ prefix_base a w mod 2 ^ (32 - w) = 0 /\
  a < prefix_base a w + 2 ^ (32 - w).
Proof.
  intros Hw Ha. rewrite prefix_base_eq by assumption.
  assert (Hp : 0 < 2 ^ (32 - w)) by (apply Z.pow_pos_nonneg; lia).
  pose proof (Z.div_mod a (2 ^ (32 - w)) ltac:(lia)).
  pose proof (Z.mod_pos_bound a (2 ^ (32 - w)) Hp).
  assert (0 <= a / 2 ^ (32 - w)) by (apply Z.div_pos; lia).
  repeat split; try nia. apply Z_mod_mult.
Qed.

Lemma save_cidr_spec root a n :
  0 <= n <= 32 -> 0 <= a < 2 ^ 32 -> good root ->
  exists r, save_cidr root a n = Some r /\ good r /\
    forall x, is_addr x = true ->
      member r 31 x = member root 31 x || in_block (prefix_base a n) (32 - n) x.
Proof.
  intros Hn Ha Hg. unfold save_cidr. rewrite cidr_base_spec by assumption.
  destruct (prefix_base_props a n Hn Ha) as (Hb & Hal & Hhi).
  eexists. split; [reflexivity|]. split.
  - apply add_to_node_good; [lia|assumption].
  - intros x Hx. rewrite add_to_node_member; try assumption; try lia.
    + replace (31 - n + 1) with (32 - n) by lia. reflexivity.
    + replace (31 - n + 1) with (32 - n) by lia. assumption.
Qed.

Lemma save_one_addr_spec root a :
  0 <= a < 2 ^ 32 -> good root ->
  good (save_one_addr root a) /\
  forall x, is_addr x = true ->
    member (save_one_addr root a) 31 x = member root 31 x || (x =? a).
Proof.
  intros Ha Hg. unfold save_one_addr. split.
  - apply add_to_node_good; [lia|assumption].
  - intros x Hx. rewrite add_to_node_member; try assumption; try lia.
    + f_equal. unfold in_block. change (-1 + 1) with 0. change (2 ^ 0) with 1.
      destruct (Z.leb_spec a x), (Z.ltb_spec x (a + 1)), (Z.eqb_spec x a);
        try reflexivity; lia.
    + apply Z.mod_1_r.
Qed.

(** ** The state machine keeps its registers in range *)

Lemma push_octet_val s :
  0 <= a s < 2 ^ 24 -> 0 <= n s <= 255 -> push_octet s = a s * 256 + n s.
Proof.
  intros Ha Hn. unfold push_octet, ul_shl, ulong, ULONG_BITS.
  rewrite Z.shiftl_mul_pow2 by lia. change (2 ^ 8) with 256.
  rewrite !Z.mod_small by lia.
  assert (Hland : Z.land (a s * 256) (n s) = 0).
  { apply Z.bits_inj'. intros i Hi.
    rewrite Z.land_spec, Z.bits_0. change 256 with (2 ^ 8).
    rewrite Z.mul_pow2_bits by lia.
    destruct (Z_lt_ge_dec i 8).
    - rewrite Z.testbit_neg_r by lia. reflexivity.
    - assert (Hb : Z.testbit (n s) i = false).
      { destruct (Z.eq_dec (n s) 0) as [E0|Hne]; [rewrite E0; apply Z.bits_0|].
        apply Z.bits_above_log2; [lia|].
        apply Z.lt_le_trans with 8; [|lia].
        apply Z.log2_lt_pow2; lia. }
      rewrite Hb. apply andb_false_r. }
  rewrite <- Z.lxor_lor by assumption.
  symmetry. apply Z.add_nocarry_lxor. assumption.
Qed.

(** What [a] holds in each state while no error is latched: the octets
    read so far of the quad under construction, or the finished quad. *)
Definition a_ok (st a : Z) : Prop :=
  match st with
  | 3 | 4 | 12 | 13 => 0 <= a < 2 ^ 8
  | 5 | 6 | 14 | 15 => 0 <= a < 2 ^ 16
  | 7 | 8 | 16 | 17 => 0 <= a < 2 ^ 24
  | 9 | 18 | 19 => 0 <= a < 2 ^ 32
  | _ => True
  end.

Record regs_ok (s : pstate) : Prop := mk_regs_ok {
  ro_state : 1 <= state s <= 19;
  ro_n : n s <= 255;
  ro_width : state s = 19 -> n s <= 32;
  ro_a : 0 <= n s -> a_ok (state s) (a s);
  ro_a1 : 0 <= n s -> 10 <= state s <= 17 -> 0 <= a1 s < 2 ^ 32
}.

Lemma state_cases st :
  1 <= st <= 19 ->
  st = 1 \/ st = 2 \/ st = 3 \/ st = 4 \/ st = 5 \/ st = 6 \/ st = 7 \/
  st = 8 \/ st = 9 \/ st = 10 \/ st = 11 \/ st = 12 \/ st = 13 \/ st = 14 \/
  st = 15 \/ st = 16 \/ st = 17 \/ st = 18 \/ st = 19.
Proof. lia. Qed.

(** Opens a [regs_ok] goal into its fields. *)
Ltac regs_goal :=
  constructor; cbn [state n a a1 line root trace with_state with_n with_a with_a1
                    with_line with_root log do_save_one_addr];
  unfold a_ok in *; try lia.

Lemma octet_digit_regs c s :
  48 <= c <= 57 -> regs_ok s -> state s <> 19 ->
  regs_ok (octet_digit c s) /\ state (octet_digit c s) = state s.
Proof.
  intros Hc H Hne. unfold octet_digit.
  destruct (Z.ltb_spec (n s) 0); [auto|].
  cbn [n with_n].
  destruct (Z.gtb_spec (n s * 10 + (c - 48)) 255);
    (split; [|reflexivity]); destruct H as [Hst Hn Hw Ha Ha1].
  - regs_goal.
  - regs_goal; try (intros; contradiction); intros; first [apply Ha|apply Ha1]; lia.
Qed.
(** ** The tree holds what was committed *)

(** The addresses a call stands for: one address, the addresses between the
    two ends, or the block of the prefix with the address normalised. *)
Definition in_call (x : Z) (c : call) : bool :=
  match c with
  | SaveOneAddr a => x =? a
  | SaveRange lo hi => (lo <=? x) && (x <=? hi)
  | SaveCidr a w => in_block (prefix_base a w) (32 - w) x
  end.

Definition committed (x : Z) (cs : list call) : bool := existsb (in_call x) cs.

Record tree_ok (s : pstate) : Prop := mk_tree_ok {
  to_good : good (root s);
  to_cover : forall x,
    committed x (calls_of (trace s)) = is_addr x && member (root s) 31 x
}.

Lemma calls_of_app t1 t2 : calls_of (t1 ++ t2) = calls_of t1 ++ calls_of t2.
Proof. unfold calls_of. apply flat_map_app. Qed.

Lemma calls_of_errs ds : calls_of (map Err ds) = [].
Proof. induction ds; [reflexivity|assumption]. Qed.

Lemma diags_of_app t1 t2 : diags_of (t1 ++ t2) = diags_of t1 ++ diags_of t2.
Proof. unfold diags_of. apply flat_map_app. Qed.

Lemma committed_app x cs1 cs2 :
  committed x (cs1 ++ cs2) = committed x cs1 || committed x cs2.
Proof. apply existsb_app. Qed.

Lemma tree_ok_same s s' :
  root s' = root s -> calls_of (trace s') = calls_of (trace s) ->
  tree_ok s -> tree_ok s'.
Proof.
  intros Er Ec [Hg Hc]. constructor; rewrite ?Er, ?Ec; assumption.
Qed.

Lemma is_addr_range x : is_addr x = true <-> 0 <= x < 2 ^ 32.
Proof. unfold is_addr. rewrite andb_true_iff, Z.leb_le, Z.ltb_lt. tauto. Qed.

Lemma tree_ok_call s c r :
  tree_ok s -> good r ->
  (forall x, is_addr x = true -> member r 31 x = member (root s) 31 x || in_call x c) ->
  (forall x, in_call x c = true -> is_addr x = true) ->
  forall s', root s' = r -> calls_of (trace s') = calls_of (trace s) ++ [c] ->
  tree_ok s'.
Proof.
  intros [Hg Hc] Hgr Hm Hin s' Er Ec. constructor; rewrite Er; [assumption|].
  intros x. rewrite Ec, committed_app, Hc. unfold committed at 1. cbn [existsb].
  rewrite orb_false_r.
  destruct (is_addr x) eqn:Ex; cbn [andb].
  - rewrite Hm by assumption. reflexivity.
  - destruct (in_call x c) eqn:Ei; [|reflexivity].
    apply Hin in Ei. congruence.
Qed.

Lemma do_save_one_addr_ok s x :
  0 <= x < 2 ^ 32 -> tree_ok s -> tree_ok (do_save_one_addr s x).
Proof.
  intros Hx T.
  destruct (save_one_addr_spec (root s) x Hx (to_good s T)) as [Hg Hm].
  apply (tree_ok_call s (SaveOneAddr x) (save_one_addr (root s) x) T Hg Hm).
  - intros y Hy. cbn [in_call] in Hy. apply Z.eqb_eq in Hy. subst y.
    apply is_addr_range. assumption.
  - reflexivity.
  - cbn [do_save_one_addr with_root log trace]. apply calls_of_app.
Qed.

Lemma do_save_range_ok s x y :
  0 <= x -> 0 <= y < 2 ^ 32 -> tree_ok s ->
  exists r ds, do_save_range s x y =
      Ok (mk_pstate r (a1 s) (a s) (line s) (n s) (state s)
            ((trace s ++ [Call (SaveRange x y)]) ++ map Err ds)) /\
    forall s', root s' = r ->
      calls_of (trace s') = calls_of (trace s) ++ [SaveRange x y] -> tree_ok s'.
Proof.
  intros Hx Hy T. unfold do_save_range.
  destruct (save_range_spec (root s) x y Hx Hy (to_good s T)) as (r & ds & E & Hg & Hm).
  rewrite E. exists r, ds. split; [reflexivity|].
  apply (tree_ok_call s (SaveRange x y) r T Hg Hm).
  intros z Hz. cbn [in_call] in Hz. apply andb_prop in Hz as [H1 H2].
  apply Z.leb_le in H1. apply Z.leb_le in H2. apply is_addr_range. lia.
Qed.

Lemma do_save_cidr_ok s x w :
  0 <= x < 2 ^ 32 -> 0 <= w <= 32 -> tree_ok s ->
  exists r, do_save_cidr s x w =
      Ok (mk_pstate r (a1 s) (a s) (line s) (n s) (state s)
            (trace s ++ [Call (SaveCidr x w)])) /\
    forall s', root s' = r ->
      calls_of (trace s') = calls_of (trace s) ++ [SaveCidr x w] -> tree_ok s'.
Proof.
  intros Hx Hw T. unfold do_save_cidr.
  destruct (save_cidr_spec (root s) x w Hw Hx (to_good s T)) as (r & E & Hg & Hm).
  rewrite E. exists r. split; [reflexivity|].
  apply (tree_ok_call s (SaveCidr x w) r T Hg Hm).
  intros z Hz. cbn [in_call] in Hz. unfold in_block in Hz.
  apply andb_prop in Hz as [H1 H2].
  apply Z.leb_le in H1. apply Z.ltb_lt in H2. apply is_addr_range.
  destruct (prefix_base_props x w Hw Hx) as (Hb & Hal & Hhi).
  assert (Hp : 0 < 2 ^ (32 - w)) by (apply Z.pow_pos_nonneg; lia).
  split; [lia|].
  rewrite prefix_base_eq in * by assumption.
  assert (x / 2 ^ (32 - w) * 2 ^ (32 - w) + 2 ^ (32 - w) <= 2 ^ 32); [|lia].
  replace 32 with (w + (32 - w)) at 4 by lia.
  rewrite Z.pow_add_r by lia.
  assert (x / 2 ^ (32 - w) < 2 ^ w).
  { apply Z.div_lt_upper_bound; [lia|].
    rewrite <- Z.pow_add_r by lia. replace (32 - w + w) with 32 by lia. lia. }
  nia.
Qed.

(** ** Every turn of the loop keeps both invariants *)

Definition Inv (s : pstate) : Prop := regs_ok s /\ tree_ok s.

Lemma octet_digit_tree c s :
  root (octet_digit c s) = root s /\
  calls_of (trace (octet_digit c s)) = calls_of (trace s).
Proof.
  unfold octet_digit. destruct (n s <? 0); [auto|].
  cbn [n with_n]. destruct (n s * 10 + (c - 48) >? 255); [|auto].
  cbn [root trace with_n log]. rewrite calls_of_app, app_nil_r. auto.
Qed.

Ltac fields :=
  cbn [root a1 a line n state trace
       with_root with_a1 with_a with_line with_n with_state log do_save_one_addr].

Ltac same_tree s T :=
  apply (tree_ok_same s);
  [ reflexivity
  | fields; rewrite ?calls_of_app, ?app_nil_r; reflexivity
  | exact T ].

Ltac next_state :=
  repeat match goal with
  | |- context [Z.pos ?p + 1] =>
      let v := eval compute in (Z.pos p + 1) in change (Z.pos p + 1) with v
  end.

Ltac split_ifs :=
  repeat match goal with
  | |- context [if ?x <? ?y then _ else _] => destruct (Z.ltb_spec x y)
  | |- context [if ?x >? ?y then _ else _] => destruct (Z.gtb_spec x y)
  | |- context [if ?x >=? ?y then _ else _] => destruct (Z.geb_spec x y)
  end.

(** Closes a [regs_ok] goal about an explicit state, from the invariant of
    the state before, whose [state] is the literal named by [E]. *)
Ltac close_regs H E :=
  let Hst := fresh "Hst" in let Hn := fresh "Hn" in let Hw := fresh "Hw" in
  let Ha := fresh "Ha" in let Ha1 := fresh "Ha1" in
  destruct H as [Hst Hn Hw Ha Ha1]; rewrite E in Hst, Hw, Ha, Ha1;
  unfold a_ok in Ha; cbv beta iota in Ha;
  try (specialize (Ha ltac:(lia)));
  try (specialize (Ha1 ltac:(lia) ltac:(lia)));
  try (specialize (Hw eq_refl));
  constructor; fields; rewrite ?E; next_state; unfold a_ok; cbv beta iota;
  rewrite ?push_octet_val by (fields; lia); fields;
  try lia; try (intros; discriminate); try (intros; lia);
  try (intros; first [apply Ha | apply Ha1]; lia).

(** The argument of a call is in range. *)
Ltac close_range H E :=
  let Hst := fresh "Hst" in let Hn := fresh "Hn" in let Hw := fresh "Hw" in
  let Ha := fresh "Ha" in let Ha1 := fresh "Ha1" in
  destruct H as [Hst Hn Hw Ha Ha1]; rewrite E in Hst, Hw, Ha, Ha1;
  unfold a_ok in Ha; cbv beta iota in Ha;
  try (specialize (Ha ltac:(lia)));
  try (specialize (Ha1 ltac:(lia) ltac:(lia)));
  try (specialize (Hw eq_refl));
  rewrite ?push_octet_val by (fields; lia); fields; lia.

Ltac close_inv s H T E :=
  lazymatch goal with
  | |- context [do_save_range] => fail
  | |- context [do_save_cidr] => fail
  | _ => idtac
  end;
  fields; next_state; split_ifs;
  try (eexists; split; [reflexivity|]);
  first
  [ split; assumption
  | match goal with
    | |- Inv (octet_digit ?c0 ?s1) =>
        let H1 := fresh "H1" in let R := fresh "R" in
        let Er := fresh "Er" in let Ec := fresh "Ec" in
        assert (H1 : regs_ok s1) by first [exact H | close_regs H E];
        destruct (octet_digit_regs c0 s1 ltac:(assumption) H1
                    ltac:(fields; rewrite ?E; lia)) as [R _];
        destruct (octet_digit_tree c0 s1) as [Er Ec];
        split; [exact R|apply (tree_ok_same s _ Er Ec T)]
    end
  | split;
    [ close_regs H E
    | lazymatch goal with
      | |- tree_ok ?X =>
          lazymatch X with
          | context [do_save_one_addr s ?x] =>
              apply (tree_ok_same (do_save_one_addr s x));
              [ fields; reflexivity
              | fields; rewrite ?calls_of_app, ?app_nil_r; reflexivity
              | apply do_save_one_addr_ok; [close_range H E|exact T] ]
          | _ => same_tree s T
          end
      end ] ].

Ltac by_state s H :=
  destruct (state_cases _ (ro_state s H)) as
    [E|[E|[E|[E|[E|[E|[E|[E|[E|[E|[E|[E|[E|[E|[E|[E|[E|[E|E]]]]]]]]]]]]]]]]]];
  rewrite E; cbv beta iota.

Lemma on_digit_inv c s :
  48 <= c <= 57 -> Inv s -> exists s', on_digit c s = Ok s' /\ Inv s'.
Proof.
  intros Hc [H T]. unfold on_digit. by_state s H; close_inv s H T E.
Qed.

Lemma on_dot_inv s : Inv s -> exists s', on_dot s = Ok s' /\ Inv s'.
Proof.
  intros [H T]. unfold on_dot, dot_shift. by_state s H; close_inv s H T E.
Qed.

Lemma on_dash_inv s : Inv s -> exists s', on_dash s = Ok s' /\ Inv s'.
Proof.
  intros [H T]. unfold on_dash. by_state s H; close_inv s H T E.
Qed.

Lemma on_slash_inv s : Inv s -> exists s', on_slash s = Ok s' /\ Inv s'.
Proof.
  intros [H T]. unfold on_slash. by_state s H; close_inv s H T E.
Qed.

Lemma on_space_inv s : Inv s -> exists s', on_space s = Ok s' /\ Inv s'.
Proof.
  intros [H T]. unfold on_space. by_state s H; try (close_inv s H T E).
  - (* state 17: the range is complete *)
    destruct (Z.geb_spec (n s) 0) as [Hn0|Hn0].
    + destruct (do_save_range_ok s (a1 s) (push_octet s)
                  ltac:(close_range H E) ltac:(close_range H E) T)
        as (r & ds & Eq & Ht).
      rewrite Eq. eexists; split; [reflexivity|]. split.
      * close_regs H E.
      * apply Ht; [reflexivity|]. fields.
        rewrite !calls_of_app, calls_of_errs, app_nil_r. reflexivity.
    + eexists; split; [reflexivity|]. split; [close_regs H E|same_tree s T].
  - (* state 19: the prefix is complete *)
    destruct (Z.geb_spec (n s) 0) as [Hn0|Hn0].
    + destruct (do_save_cidr_ok s (a s) (n s)
                  ltac:(close_range H E) ltac:(close_range H E) T)
        as (r & Eq & Ht).
      rewrite Eq. eexists; split; [reflexivity|]. split.
      * close_regs H E.
      * apply Ht; [reflexivity|]. fields.
        rewrite !calls_of_app. reflexivity.
    + eexists; split; [reflexivity|]. split; [close_regs H E|same_tree s T].
Qed.

Lemma with_line_inv s v : Inv s -> Inv (with_line s v).
Proof.
  intros [[Hst Hn Hw Ha Ha1] T]. split.
  - constructor; assumption.
  - apply (tree_ok_same s); [reflexivity|reflexivity|exact T].
Qed.

Lemma step_inv c s : Inv s -> exists s', step c s = Ok s' /\ Inv s'.
Proof.
  intros HI. unfold step.
  destruct ((48 <=? c) && (c <=? 57)) eqn:Ed.
  { apply andb_prop in Ed as [H1 H2]. apply Z.leb_le in H1. apply Z.leb_le in H2.
    apply on_digit_inv; [lia|assumption]. }
  destruct (c =? 46); [apply on_dot_inv; assumption|].
  destruct (c =? 45); [apply on_dash_inv; assumption|].
  destruct (c =? 47); [apply on_slash_inv; assumption|].
  destruct (c =? 10); [apply on_space_inv, with_line_inv; assumption|].
  destruct ((c =? 32) || (c =? 9) || (c =? 13)); [apply on_space_inv; assumption|].
  eexists; split; [reflexivity|].
  destruct HI as [[Hst Hn Hw Ha Ha1] T]. split.
  - constructor; fields; unfold a_ok; cbv beta iota; try lia; intros; lia.
  - same_tree s T.
Qed.

Lemma read_loop_inv input : forall s,
  Inv s -> exists s', read_loop input s = Ok s' /\ Inv s'.
Proof.
  induction input as [|c rest IH]; intros s HI; cbn [read_loop].
  - exists s. auto.
  - destruct (step_inv c s HI) as (s1 & E1 & H1). rewrite E1. apply IH, H1.
Qed.

(** At end of input the run either returns or, in the two prefix-width
    states, reaches [abort()]. *)
Lemma at_eof_inv s :
  Inv s ->
  (exists s', at_eof s = Ok s' /\ Inv s') \/
  ((state s = 18 \/ state s = 19) /\ at_eof s = Fail FAbort s).
Proof.
  intros [H T]. unfold at_eof.
  by_state s H; try (left; close_inv s H T E); try (right; split; [lia|reflexivity]).
  (* state 17 *)
  left. destruct (Z.geb_spec (n s) 0) as [Hn0|Hn0].
  - destruct (do_save_range_ok s (a1 s) (push_octet s)
                ltac:(close_range H E) ltac:(close_range H E) T)
      as (r & ds & Eq & Ht).
    rewrite Eq. eexists; split; [reflexivity|]. split.
    + close_regs H E.
    + apply Ht; [reflexivity|]. fields.
      rewrite !calls_of_app, calls_of_errs, app_nil_r. reflexivity.
  - eexists; split; [reflexivity|]. split; assumption.
Qed.

Lemma init_state_inv a_init a1_init : Inv (init_state a_init a1_init).
Proof.
  split.
  - constructor; cbn; try lia; auto.
  - constructor.
    + repeat split.
    + intros x. cbn. rewrite andb_false_r. reflexivity.
Qed.

Lemma read_from_cases s input :
  Inv s ->
  (exists s', read_from s input = Ok s' /\ Inv s') \/
  (exists s', read_from s input = Fail FAbort s' /\ Inv s' /\
              (state s' = 18 \/ state s' = 19)).
Proof.
  intros HI. unfold read_from.
  destruct (read_loop_inv input s HI) as (s1 & E1 & H1). rewrite E1.
  destruct (at_eof_inv s1 H1) as [(s2 & E2 & H2)|[Hst E2]].
  - left. exists s2. auto.
  - right. exists s1. auto.
Qed.

(** * The claims *)

(** The state a run ends in, whether it returned or stopped. *)
Definition final_state (r : res pstate) : pstate :=
  match r with Ok s | Fail _ s => s end.

Lemma read_input_cases a_init a1_init input :
  (exists s, read_input a_init a1_init input = Ok s /\ Inv s) \/
  (exists s, read_input a_init a1_init input = Fail FAbort s /\ Inv s /\
             (state s = 18 \/ state s = 19)).
Proof. apply read_from_cases, init_state_inv. Qed.

Lemma final_state_inv a_init a1_init input :
  Inv (final_state (read_input a_init a1_init input)).
Proof.
  destruct (read_input_cases a_init a1_init input) as [(s & E & H)|(s & E & H & _)];
    rewrite E; exact H.
Qed.

Lemma count_covering_two x pre l1 mid l2 post :
  covers l1 x = true -> covers l2 x = true ->
  (2 <= count_covering x (pre ++ l1 :: mid ++ l2 :: post))%nat.
Proof.
  intros H1 H2. unfold count_covering.
  rewrite filter_app, length_app. cbn [filter]. rewrite H1. cbn [List.length].
  rewrite filter_app, length_app. cbn [filter]. rewrite H2. cbn [List.length]. lia.
Qed.

(** The lines [dump_output] makes of the tree a run leaves behind. *)
Lemma run_lines a_init a1_init input :
  let s := final_state (read_input a_init a1_init input) in
  exists ls,
    dump_output (root s) = Some ls /\
    map prefix_of_line ls = prefixes (root s) 0 31 /\
    forall x, count_covering x ls =
              if committed x (calls_of (trace s)) then 1%nat else 0%nat.
Proof.
  intros s.
  pose proof (final_state_inv a_init a1_init input) as [_ [Hg Hc]].
  fold s in Hg, Hc. destruct Hg as (Hf & _ & _).
  destruct (dump_output_prefixes (root s) Hf) as (ls & Hd & Hm).
  exists ls. split; [assumption|]. split; [assumption|].
  intros x. destruct (dump_output_count (root s) x Hf) as (ls' & Hd' & Hn).
  rewrite Hd in Hd'. injection Hd' as <-. rewrite Hn, Hc. reflexivity.
Qed.

(** C1.  The prefixes [dump_output] makes of the tree an input builds cover
    exactly the committed addresses: an address lies in as many of them as
    it was committed, once or not at all, so they are pairwise disjoint.
    [main] prints them whenever [read_input] returns.  It does not when the
    input ends inside a prefix width: the run then ends in [abort()] and
    prints nothing, whatever was committed before.  On
    [1.2.3.4 10.0.0.0/8] without a final newline the address 1.2.3.4 is
    committed and no prefix is printed; with the final newline both units
    are printed. *)
Theorem committed_address_not_emitted_on_abort a_init a1_init :
  (forall input,
     let s := final_state (read_input a_init a1_init input) in
     exists ls,
       dump_output (root s) = Some ls /\
       (forall x, count_covering x ls =
                  if committed x (calls_of (trace s)) then 1%nat else 0%nat) /\
       (forall pre l1 mid l2 post x, ls = pre ++ l1 :: mid ++ l2 :: post ->
          covers l1 x && covers l2 x = false) /\
       (main a_init a1_init input =
          mk_run (print_lines ls) (diags_of (trace s)) (Exit 0) \/
        (main a_init a1_init input =
           mk_run EmptyString (diags_of (trace s)) (Killed FAbort) /\
         (state s = 18 \/ state s = 19)))) /\
  (let s := final_state (read_input a_init a1_init (text "1.2.3.4 10.0.0.0/8")) in
   calls_of (trace s) = [SaveOneAddr 16909060] /\
   committed 16909060 (calls_of (trace s)) = true /\
   dump_output (root s) = Some [mk_line 1 2 3 4 32] /\
   state s = 19 /\
   main a_init a1_init (text "1.2.3.4 10.0.0.0/8") =
     mk_run EmptyString [] (Killed FAbort) /\
   main a_init a1_init (text (ln "1.2.3.4 10.0.0.0/8")) =
     mk_run (ln "1.2.3.4/32" ++ ln "10.0.0.0/8") [] (Exit 0)).
Proof.
  split.
  - intros input s.
    destruct (run_lines a_init a1_init input) as (ls & Hd & _ & Hcount).
    fold s in Hd, Hcount.
    exists ls. split; [assumption|]. split; [assumption|]. split.
    + intros pre l1 mid l2 post x ->.
      destruct (covers l1 x) eqn:E1, (covers l2 x) eqn:E2; try reflexivity.
      pose proof (count_covering_two x pre l1 mid l2 post E1 E2) as H2.
      rewrite Hcount in H2. destruct (committed x (calls_of (trace s))); lia.
    + unfold main. subst s.
      destruct (read_input_cases a_init a1_init input) as [(s & E & H)|(s & E & H & Hst)];
        rewrite E in *; cbn [final_state] in *.
      * left. rewrite Hd. reflexivity.
      * right. split; [reflexivity|assumption].
  - cbv zeta. repeat split; vm_compute; reflexivity.
Qed.

Lemma range_loop_canonical : forall fuel root a1 a2 r blocks,
  range_loop fuel root a1 a2 = Some (r, blocks) ->
  canonical root = true -> canonical r = true.
Proof.
  induction fuel as [|fuel IH]; intros root a1 a2 r blocks E Hc;
    cbn [range_loop] in E; destruct (a1 <=? a2);
    try discriminate; try (injection E as <- <-; assumption).
  destruct (range_step a1 a2) as [[[b bit] a1']|]; [|discriminate].
  destruct (range_loop fuel (add_to_node root b 31 bit) a1' a2) as [[r' bl]|] eqn:El;
    [|discriminate].
  injection E as <- <-.
  apply (IH _ _ _ _ _ El). apply add_to_node_canonical. assumption.
Qed.

(** C2.  Each of the three mutations hands back a tree in which no node
    has two [ALL] children when it is given one, and [save_range] keeps
    this after every block it adds; hence the tree every input builds is
    canonical, no two printed prefixes are buddies, and the printed
    prefixes cover the committed addresses: a minimal prefix cover. *)
Theorem canonical_after_every_mutation (t : NODE) (Hc : canonical t = true) :
  (forall a, canonical (save_one_addr t a) = true) /\
  (forall a1 a2 r ds, save_range t a1 a2 = Some (r, ds) -> canonical r = true) /\
  (forall fuel a1 a2 r blocks, range_loop fuel t a1 a2 = Some (r, blocks) ->
     canonical r = true) /\
  (forall a n r, save_cidr t a n = Some r -> canonical r = true) /\
  (forall a_init a1_init input,
     let s := final_state (read_input a_init a1_init input) in
     canonical (root s) = true /\
     exists ls, dump_output (root s) = Some ls /\
       (forall p q, In p ls -> In q ls ->
          ~ buddies (prefix_of_line p) (prefix_of_line q)) /\
       (forall x, count_covering x ls =
                  if committed x (calls_of (trace s)) then 1%nat else 0%nat)).
Proof.
  split; [|split; [|split; [|split]]].
  - intros a0. apply add_to_node_canonical. assumption.
  - intros a1 a2 r ds E. unfold save_range in E.
    destruct (a1 >? a2); [injection E as <- <-; assumption|].
    destruct (range_loop RANGE_FUEL t a1 a2) as [[r' bl]|] eqn:El; [|discriminate].
    injection E as <- <-. apply (range_loop_canonical _ _ _ _ _ _ El Hc).
  - intros fuel a1 a2 r blocks E. apply (range_loop_canonical _ _ _ _ _ _ E Hc).
  - intros a0 n0 r E. unfold save_cidr in E.
    destruct (cidr_base a0 n0); [|discriminate].
    injection E as <-. apply add_to_node_canonical. assumption.
  - intros a_init a1_init input s.
    pose proof (final_state_inv a_init a1_init input) as [_ [Hg _]].
    fold s in Hg. destruct Hg as (Hf & Hcan & _).
    split; [assumption|].
    destruct (run_lines a_init a1_init input) as (ls & Hd & Hm & Hcount).
    fold s in Hd, Hm, Hcount.
    exists ls. split; [assumption|]. split; [|assumption].
    intros p q Hp Hq.
    apply (prefixes_no_buddies (root s) 0 31); try assumption; try lia.
    + reflexivity.
    + rewrite <- Hm. apply in_map. assumption.
    + rewrite <- Hm. apply in_map. assumption.
Qed.

Lemma canonical_after_every_mutation_witness :
  (forall a, canonical (save_one_addr NONE a) = true) /\
  (forall a1 a2 r ds, save_range NONE a1 a2 = Some (r, ds) -> canonical r = true) /\
  (forall fuel a1 a2 r blocks, range_loop fuel NONE a1 a2 = Some (r, blocks) ->
     canonical r = true) /\
  (forall a n r, save_cidr NONE a n = Some r -> canonical r = true) /\
  (forall a_init a1_init input,
     let s := final_state (read_input a_init a1_init input) in
     canonical (root s) = true /\
     exists ls, dump_output (root s) = Some ls /\
       (forall p q, In p ls -> In q ls ->
          ~ buddies (prefix_of_line p) (prefix_of_line q)) /\
       (forall x, count_covering x ls =
                  if committed x (calls_of (trace s)) then 1%nat else 0%nat)).
Proof. apply (canonical_after_every_mutation NONE). reflexivity. Defined.

(** ** Runs on literal inputs *)

(** C3.  On the input [10.0.0.256\n10.0.0.1\n] the run writes one
    out-of-range diagnostic, as the claim says, but prints nothing: the
    error latched in the fourth octet is still latched when the digit that
    starts [10.0.0.1] takes the machine from state 9 to state 2, so the
    second address is dropped as well. *)
Theorem scenario_S6_second_address_dropped a_init a1_init :
  main a_init a1_init (text (ln "10.0.0.256" ++ ln "10.0.0.1")) =
    mk_run EmptyString [NumberOutOfRange 1] (Exit 0) /\
  calls_of (trace (final_state
    (read_input a_init a1_init (text (ln "10.0.0.256" ++ ln "10.0.0.1"))))) = [].
Proof. split; vm_compute; reflexivity. Qed.

(** C4.  A digit read in state 9 while the error is latched enters the
    first-octet state 2 and leaves [n] negative, so the quad it starts is
    dropped; after [1.2.3.256], the well-formed addresses [5.6.7.8] and
    [9.9.9.9] are both lost. *)
Theorem latch_survives_entry_from_state_9 :
  (forall c s, 48 <= c <= 57 -> state s = 9 -> n s < 0 ->
     step c s = Ok (with_state s 2) /\ n (with_state s 2) < 0) /\
  (forall a_init a1_init,
     main a_init a1_init (text (ln "1.2.3.256 5.6.7.8 9.9.9.9")) =
       mk_run EmptyString [NumberOutOfRange 1] (Exit 0)) /\
  (forall a_init a1_init,
     main a_init a1_init (text (ln "5.6.7.8 9.9.9.9")) =
       mk_run (ln "5.6.7.8/32" ++ ln "9.9.9.9/32") [] (Exit 0)).
Proof.
  split; [|split].
  - intros c s Hc Hs Hn. unfold step.
    assert (E : (48 <=? c) && (c <=? 57) = true).
    { apply andb_true_intro. split; apply Z.leb_le; lia. }
    rewrite E. unfold on_digit. rewrite Hs. cbv beta iota.
    assert (En : (n s >=? 0) = false) by (rewrite Z.geb_leb; apply Z.leb_gt; lia).
    rewrite En. split; [reflexivity|exact Hn].
  - intros. vm_compute. reflexivity.
  - intros. vm_compute. reflexivity.
Qed.

Lemma latch_survives_entry_from_state_9_witness :
  step 53 (mk_pstate NONE 0 0 1 (-1) 9 [Err (NumberOutOfRange 1)]) =
    Ok (mk_pstate NONE 0 0 1 (-1) 2 [Err (NumberOutOfRange 1)]).
Proof.
  apply (proj1 latch_survives_entry_from_state_9 53
           (mk_pstate NONE 0 0 1 (-1) 9 [Err (NumberOutOfRange 1)]));
    cbn; lia.
Defined.

(** C5.  End of input commits a pending quad (states 8 and 9) and a
    completed range (state 17, with the very call whitespace makes), as the
    claim says; but the two prefix-width states have no case in the final
    [switch]: where whitespace in state 19 calls [save_cidr], end of input
    reaches [abort()], so the prefix is not committed and nothing is
    printed. *)
Theorem eof_in_prefix_width_aborts :
  (forall s, state s = 18 \/ state s = 19 -> at_eof s = Fail FAbort s) /\
  (forall s, state s = 19 -> 0 <= n s ->
     on_space s =
       match do_save_cidr s (a s) (n s) with
       | Ok s' => Ok (with_state s' 1)
       | Fail f s' => Fail f s'
       end) /\
  (forall s, state s = 17 -> 0 <= n s ->
     at_eof s = do_save_range s (a1 s) (push_octet s) /\
     on_space s =
       match do_save_range s (a1 s) (push_octet s) with
       | Ok s' => Ok (with_state s' 1)
       | Fail f s' => Fail f s'
       end) /\
  (forall s, state s = 8 -> 0 <= n s ->
     at_eof s = Ok (do_save_one_addr s (push_octet s))) /\
  (forall s, state s = 9 -> 0 <= n s ->
     at_eof s = Ok (do_save_one_addr s (a s))) /\
  (forall a_init a1_init,
     main a_init a1_init (text "10.0.0.0/8") =
       mk_run EmptyString [] (Killed FAbort)) /\
  (forall a_init a1_init,
     main a_init a1_init (text (ln "10.0.0.0/8")) =
       mk_run (ln "10.0.0.0/8") [] (Exit 0)) /\
  (forall a_init a1_init,
     main a_init a1_init (text "1.2.3.4 10.0.0.0/8") =
       mk_run EmptyString [] (Killed FAbort)) /\
  (forall a_init a1_init,
     main a_init a1_init (text "10.0.0.0 - 10.0.0.3") =
       mk_run (ln "10.0.0.0/30") [] (Exit 0)) /\
  (forall a_init a1_init,
     main a_init a1_init (text "10.0.0.1") =
       mk_run (ln "10.0.0.1/32") [] (Exit 0)).
Proof.
  assert (Hge : forall v, 0 <= v -> (v >=? 0) = true)
    by (intros v Hv; rewrite Z.geb_leb; apply Z.leb_le; exact Hv).
  split; [|split; [|split; [|split; [|split]]]].
  - intros s [E|E]; unfold at_eof; rewrite E; reflexivity.
  - intros s E Hn. unfold on_space. rewrite E. cbv beta iota.
    rewrite (Hge _ Hn). reflexivity.
  - intros s E Hn. unfold at_eof, on_space. rewrite E. cbv beta iota.
    rewrite (Hge _ Hn). split; reflexivity.
  - intros s E Hn. unfold at_eof. rewrite E. cbv beta iota.
    rewrite (Hge _ Hn). reflexivity.
  - intros s E Hn. unfold at_eof. rewrite E. cbv beta iota.
    rewrite (Hge _ Hn). reflexivity.
  - repeat split; intros; vm_compute; reflexivity.
Qed.

Lemma eof_in_prefix_width_aborts_witness :
  at_eof (mk_pstate NONE 0 167772160 1 8 19 []) =
    Fail FAbort (mk_pstate NONE 0 167772160 1 8 19 []).
Proof.
  apply (proj1 eof_in_prefix_width_aborts). right. reflexivity.
Defined.

(** C10.  In state 9 with no error latched, a dot first calls
    [save_one_addr] on the pending address, then writes the diagnostic and
    latches the error; the tree is the one a normal end of the quad (end
    of input in state 9) leaves. *)
Theorem dot_after_pending_quad_commits s :
  state s = 9 -> 0 <= n s ->
  exists s',
    step 46 s = Ok s' /\
    root s' = save_one_addr (root s) (a s) /\
    trace s' = trace s ++ [Call (SaveOneAddr (a s)); Err (BadDot (line s))] /\
    n s' = -1 /\ state s' = 9 /\ a s' = a s /\
    exists s'', at_eof s = Ok s'' /\ root s'' = root s' /\
      calls_of (trace s'') = calls_of (trace s').
Proof.
  intros Hs Hn. unfold step. cbn [Z.leb Z.eqb Z.compare Pos.compare Pos.compare_cont andb].
  unfold on_dot, at_eof. rewrite Hs. cbv beta iota.
  assert (En : (n s >=? 0) = true) by (rewrite Z.geb_leb; apply Z.leb_le; lia).
  rewrite En.
  eexists. split; [reflexivity|].
  cbn [root trace n state a with_n log do_save_one_addr with_root].
  rewrite <- app_assoc. cbn [app].
  do 3 (split; [reflexivity|]). split; [exact Hs|]. split; [reflexivity|].
  eexists. split; [reflexivity|].
  cbn [root trace do_save_one_addr with_root log].
  split; [reflexivity|].
  rewrite !calls_of_app. reflexivity.
Qed.

Lemma dot_after_pending_quad_commits_witness :
  exists s',
    step 46 (mk_pstate NONE 0 16909060 1 4 9 []) = Ok s' /\
    root s' = save_one_addr NONE 16909060 /\
    trace s' = [Call (SaveOneAddr 16909060); Err (BadDot 1)] /\
    n s' = -1 /\ state s' = 9 /\ a s' = 16909060 /\
    exists s'', at_eof (mk_pstate NONE 0 16909060 1 4 9 []) = Ok s'' /\
      root s'' = root s' /\ calls_of (trace s'') = calls_of (trace s').
Proof.
  apply (dot_after_pending_quad_commits (mk_pstate NONE 0 16909060 1 4 9 []));
    cbn; [reflexivity|lia].
Defined.

(** ** The loop of [save_range] *)

(** The block that ends at 255.255.255.255 moves [a1] to 2^32, a value
    of the 64-bit [unsigned long] that no address exceeds, and the loop
    stops there. *)
Example last_block_leaves_the_address_space :
  range_step 4294967295 4294967295 = Some (4294967295, -1, 4294967296) /\
  range_loop RANGE_FUEL NONE 0 4294967295 = Some (ALL, [(0, 31)]).
Proof. split; vm_compute; reflexivity. Qed.

(** C6.  For two addresses [lo <= hi], the loop of [save_range] finishes
    within 2*32 turns (and takes the same turns however many more it is
    granted); each turn adds the largest aligned block that starts at the
    current [lo] and does not go past [hi], and moves [lo] up by the size
    of that block, which is at least one address. *)
Theorem save_range_terminates_within_64 (t : NODE) (lo hi : Z) :
  0 <= lo -> lo <= hi -> hi < 2 ^ 32 ->
  exists r blocks,
    range_loop RANGE_FUEL t lo hi = Some (r, blocks) /\
    save_range t lo hi = Some (r, []) /\
    (List.length blocks <= 2 * 32)%nat /\
    strips lo hi blocks /\
    r = add_blocks t blocks /\
    forall fuel, (RANGE_FUEL <= fuel)%nat ->
      range_loop fuel t lo hi = Some (r, blocks).
Proof.
  intros Hlo Hle Hhi.
  destruct (range_loop_ascending RANGE_FUEL 0 t lo hi Hlo Hhi ltac:(lia)
              ltac:(apply Z.mod_1_r) ltac:(unfold RANGE_FUEL; lia))
    as (r & bl & El & Hlen).
  destruct (range_loop_strips _ _ _ _ _ _ El Hlo Hhi) as [Hs Hr].
  exists r, bl. split; [assumption|]. split; [|split; [|split; [|split]]].
  - unfold save_range.
    assert (E : (lo >? hi) = false) by (rewrite Z.gtb_ltb; apply Z.ltb_ge; lia).
    rewrite E, El. reflexivity.
  - lia.
  - assumption.
  - assumption.
  - intros fuel Hf. apply (range_loop_more_fuel _ _ _ _ _ _ El Hf).
Qed.

Lemma save_range_terminates_within_64_witness :
  exists r blocks,
    range_loop RANGE_FUEL NONE 167772160 167772165 = Some (r, blocks) /\
    save_range NONE 167772160 167772165 = Some (r, []) /\
    (List.length blocks <= 2 * 32)%nat /\
    strips 167772160 167772165 blocks /\
    r = add_blocks NONE blocks /\
    forall fuel, (RANGE_FUEL <= fuel)%nat ->
      range_loop fuel NONE 167772160 167772165 = Some (r, blocks).
Proof.
  apply (save_range_terminates_within_64 NONE 167772160 167772165); lia.
Defined.

(** ** [save_cidr] and the whole address space *)

(** C7.  For a width [n] between 0 and 32, [save_cidr] hands [add_to_node]
    the address [a AND mask n], where [mask n] has the high [n] of 32 bits
    set and [mask 0 = 0]; the shift is evaluated with a count below 32 only
    (a count of 32 is undefined, and width 0 takes the other branch).  A
    prefix of width 0 turns any tree into the single node [ALL], and the
    input [0.0.0.0/0] prints exactly [0.0.0.0/0]. *)
Theorem save_cidr_normalises (t : NODE) (a0 n0 : Z) :
  0 <= n0 <= 32 ->
  cidr_base a0 n0 = Some (Z.land a0 (mask n0)) /\
  save_cidr t a0 n0 = Some (add_to_node t (Z.land a0 (mask n0)) 31 (31 - n0)) /\
  (forall i, 0 <= i -> Z.testbit (mask n0) i = (32 - n0 <=? i) && (i <? 32)) /\
  mask 0 = 0 /\
  uint_shl 4294967295 32 = None /\
  cidr_base a0 0 = Some 0 /\
  save_cidr t a0 0 = Some ALL /\
  forall a_init a1_init,
    main a_init a1_init (text (ln "0.0.0.0/0")) =
      mk_run (ln "0.0.0.0/0") [] (Exit 0) /\
    root (final_state (read_input a_init a1_init (text (ln "0.0.0.0/0")))) = ALL.
Proof.
  intros Hn.
  pose proof (cidr_base_spec a0 n0 Hn) as E. unfold prefix_base in E.
  split; [assumption|]. split; [unfold save_cidr; rewrite E; reflexivity|].
  split; [intros i Hi; apply mask_bits; assumption|].
  split; [reflexivity|]. split; [reflexivity|]. split; [reflexivity|].
  split.
  - unfold save_cidr. cbn [cidr_base Z.eqb]. rewrite add_to_node_eq.
    destruct t; reflexivity.
  - intros. split; vm_compute; reflexivity.
Qed.

Lemma save_cidr_normalises_witness :
  cidr_base 167838211 8 = Some (Z.land 167838211 (mask 8)) /\
  save_cidr NONE 167838211 8 =
    Some (add_to_node NONE (Z.land 167838211 (mask 8)) 31 (31 - 8)) /\
  (forall i, 0 <= i -> Z.testbit (mask 8) i = (32 - 8 <=? i) && (i <? 32)) /\
  mask 0 = 0 /\
  uint_shl 4294967295 32 = None /\
  cidr_base 167838211 0 = Some 0 /\
  save_cidr NONE 167838211 0 = Some ALL /\
  forall a_init a1_init,
    main a_init a1_init (text (ln "0.0.0.0/0")) =
      mk_run (ln "0.0.0.0/0") [] (Exit 0) /\
    root (final_state (read_input a_init a1_init (text (ln "0.0.0.0/0")))) = ALL.
Proof. apply (save_cidr_normalises NONE 167838211 8). lia. Defined.

(** ** One tree per set of addresses *)

(** [member] at level [bit] only looks at the bits up to [bit]. *)
Lemma member_ext t : forall bit x y,
  (forall i, i <= bit -> Z.testbit x i = Z.testbit y i) ->
  member t bit x = member t bit y.
Proof.
  induction t as [| |s0 IH0 s1 IH1]; intros bit x y H; cbn [member]; try reflexivity.
  rewrite (H bit) by lia.
  rewrite (IH0 (bit - 1) x y), (IH1 (bit - 1) x y) by (intros; apply H; lia).
  reflexivity.
Qed.

Lemma member_clearbit t bit x :
  member t (bit - 1) (Z.clearbit x bit) = member t (bit - 1) x.
Proof. apply member_ext. intros i Hi. apply Z.clearbit_neq. lia. Qed.

Lemma member_setbit t bit x :
  0 <= bit -> member t (bit - 1) (Z.setbit x bit) = member t (bit - 1) x.
Proof. intros Hb. apply member_ext. intros i Hi. apply Z.setbit_neq; lia. Qed.

Lemma member_Node_clearbit s0 s1 bit x :
  member (Node s0 s1) bit (Z.clearbit x bit) = member s0 (bit - 1) x.
Proof. cbn [member]. rewrite Z.clearbit_eq. apply member_clearbit. Qed.

Lemma member_Node_setbit s0 s1 bit x :
  0 <= bit -> member (Node s0 s1) bit (Z.setbit x bit) = member s1 (bit - 1) x.
Proof.
  intros Hb. cbn [member]. rewrite Z.setbit_eq by assumption.
  apply member_setbit. assumption.
Qed.

(** A tree other than [NONE] without empty nodes holds an address. *)
Lemma inhabited_member t : forall bit,
  fits t bit = true -> inhabited t = true -> t <> NONE ->
  exists x, member t bit x = true.
Proof.
  induction t as [| |s0 IH0 s1 IH1]; intros bit Hf Hi Hne.
  - congruence.
  - exists 0. reflexivity.
  - cbn [fits] in Hf. apply andb_prop in Hf as [Hf F1]. apply andb_prop in Hf as [Hb F0].
    apply Z.leb_le in Hb.
    cbn [inhabited] in Hi. apply andb_prop in Hi as [Hi I1]. apply andb_prop in Hi as [Hn I0].
    destruct s0 as [| |u v].
    + destruct s1 as [| |u v]; [discriminate Hn| |].
      * exists (Z.setbit 0 bit). rewrite member_Node_setbit by assumption. reflexivity.
      * destruct (IH1 (bit - 1) F1 I1 ltac:(discriminate)) as [x Hx].
        exists (Z.setbit x bit). rewrite member_Node_setbit by assumption. exact Hx.
    + exists (Z.clearbit 0 bit). rewrite member_Node_clearbit. reflexivity.
    + destruct (IH0 (bit - 1) F0 I0 ltac:(discriminate)) as [x Hx].
      exists (Z.clearbit x bit). rewrite member_Node_clearbit. exact Hx.
Qed.

(** A canonical tree other than [ALL] misses an address. *)
Lemma canonical_not_full t : forall bit,
  fits t bit = true -> canonical t = true -> t <> ALL ->
  exists x, member t bit x = false.
Proof.
  induction t as [| |s0 IH0 s1 IH1]; intros bit Hf Hc Hne.
  - exists 0. reflexivity.
  - congruence.
  - cbn [fits] in Hf. apply andb_prop in Hf as [Hf F1]. apply andb_prop in Hf as [Hb F0].
    apply Z.leb_le in Hb.
    cbn [canonical] in Hc. apply andb_prop in Hc as [Hc C1]. apply andb_prop in Hc as [Hn C0].
    destruct s0 as [| |u v].
    + exists (Z.clearbit 0 bit). rewrite member_Node_clearbit. reflexivity.
    + destruct s1 as [| |u v]; [|discriminate Hn|].
      * exists (Z.setbit 0 bit). rewrite member_Node_setbit by assumption. reflexivity.
      * destruct (IH1 (bit - 1) F1 C1 ltac:(discriminate)) as [x Hx].
        exists (Z.setbit x bit). rewrite member_Node_setbit by assumption. exact Hx.
    + destruct (IH0 (bit - 1) F0 C0 ltac:(discriminate)) as [x Hx].
      exists (Z.clearbit x bit). rewrite member_Node_clearbit. exact Hx.
Qed.

(** Two trees in canonical form that hold the same addresses are the same
    tree. *)
Lemma canonical_unique t1 : forall t2 bit,
  fits t1 bit = true -> canonical t1 = true -> inhabited t1 = true ->
  fits t2 bit = true -> canonical t2 = true -> inhabited t2 = true ->
  (forall x, member t1 bit x = member t2 bit x) ->
  t1 = t2.
Proof.
  induction t1 as [| |s0 IH0 s1 IH1]; intros t2 bit F1 C1 I1 F2 C2 I2 H.
  - destruct t2 as [| |u v]; [reflexivity| |].
    + specialize (H 0). discriminate H.
    + destruct (inhabited_member (Node u v) bit F2 I2 ltac:(discriminate)) as [x Hx].
      specialize (H x). rewrite Hx in H. discriminate H.
  - destruct t2 as [| |u v]; [|reflexivity|].
    + specialize (H 0). discriminate H.
    + destruct (canonical_not_full (Node u v) bit F2 C2 ltac:(discriminate)) as [x Hx].
      specialize (H x). rewrite Hx in H. discriminate H.
  - destruct t2 as [| |u v].
    + destruct (inhabited_member (Node s0 s1) bit F1 I1 ltac:(discriminate)) as [x Hx].
      specialize (H x). rewrite Hx in H. discriminate H.
    + destruct (canonical_not_full (Node s0 s1) bit F1 C1 ltac:(discriminate)) as [x Hx].
      specialize (H x). rewrite Hx in H. discriminate H.
    + cbn [fits] in F1, F2.
      apply andb_prop in F1 as [F1 F1b]. apply andb_prop in F1 as [Hb F1a].
      apply andb_prop in F2 as [F2 F2b]. apply andb_prop in F2 as [_ F2a].
      apply Z.leb_le in Hb.
      cbn [canonical] in C1, C2.
      apply andb_prop in C1 as [C1 C1b]. apply andb_prop in C1 as [_ C1a].
      apply andb_prop in C2 as [C2 C2b]. apply andb_prop in C2 as [_ C2a].
      cbn [inhabited] in I1, I2.
      apply andb_prop in I1 as [I1 I1b]. apply andb_prop in I1 as [_ I1a].
      apply andb_prop in I2 as [I2 I2b]. apply andb_prop in I2 as [_ I2a].
      f_equal.
      * apply (IH0 u (bit - 1)); try assumption.
        intros x. rewrite <- (member_Node_clearbit s0 s1), <- (member_Node_clearbit u v).
        apply H.
      * apply (IH1 v (bit - 1)); try assumption.
        intros x.
        rewrite <- (member_Node_setbit s0 s1), <- (member_Node_setbit u v) by assumption.
        apply H.
Qed.

Lemma member_low t : forall bit x,
  0 <= bit + 1 -> member t bit x = member t bit (x mod 2 ^ (bit + 1)).
Proof.
  intros bit x Hb. apply member_ext. intros i Hi.
  symmetry. apply Z.mod_pow2_bits_low. lia.
Qed.

Lemma good_unique t1 t2 :
  good t1 -> good t2 ->
  (forall x, is_addr x = true -> member t1 31 x = member t2 31 x) ->
  t1 = t2.
Proof.
  intros (F1 & C1 & I1) (F2 & C2 & I2) H.
  apply (canonical_unique t1 t2 31); try assumption.
  intros x. rewrite (member_low t1 31 x), (member_low t2 31 x) by lia.
  apply H. apply is_addr_range. apply Z.mod_pos_bound. reflexivity.
Qed.

(** ** Three ways to add a prefix *)

(** The addresses [base], [base + 1], ..., [base + count - 1]. *)
Definition addresses (base : Z) (count : nat) : list Z :=
  map (fun i => base + Z.of_nat i) (seq 0 count).

Definition save_addresses (t : NODE) (xs : list Z) : NODE :=
  fold_left save_one_addr xs t.

Lemma save_addresses_nil t : save_addresses t [] = t.
Proof. reflexivity. Qed.

Lemma save_addresses_cons t y ys :
  save_addresses t (y :: ys) = save_addresses (save_one_addr t y) ys.
Proof. reflexivity. Qed.

Lemma save_addresses_spec xs : forall t,
  good t -> (forall y, In y xs -> 0 <= y < 2 ^ 32) ->
  good (save_addresses t xs) /\
  forall x, is_addr x = true ->
    member (save_addresses t xs) 31 x = member t 31 x || existsb (Z.eqb x) xs.
Proof.
  induction xs as [|y ys IH]; intros t Hg Hin.
  - rewrite save_addresses_nil. split; [assumption|].
    intros x _. cbn [existsb]. rewrite orb_false_r. reflexivity.
  - rewrite save_addresses_cons.
    destruct (save_one_addr_spec t y (Hin y (or_introl eq_refl)) Hg) as [Hg1 Hm1].
    destruct (IH (save_one_addr t y) Hg1 (fun z Hz => Hin z (or_intror Hz)))
      as [Hg2 Hm2].
    split; [exact Hg2|]. intros x Hx.
    rewrite (Hm2 x Hx), (Hm1 x Hx). cbn [existsb].
    rewrite orb_assoc. reflexivity.
Qed.

Lemma in_addresses base count x :
  existsb (Z.eqb x) (addresses base count) =
    (base <=? x) && (x <? base + Z.of_nat count).
Proof.
  apply eq_true_iff_eq.
  rewrite existsb_exists, andb_true_iff, Z.leb_le, Z.ltb_lt.
  unfold addresses. split.
  - intros (y & Hy & E). apply Z.eqb_eq in E. subst y.
    apply in_map_iff in Hy as (i & <- & Hi). apply in_seq in Hi. lia.
  - intros [H1 H2]. exists x. split; [|apply Z.eqb_refl].
    apply in_map_iff. exists (Z.to_nat (x - base)). split; [lia|].
    apply in_seq. lia.
Qed.

Lemma save_range_ordered t lo hi :
  0 <= lo -> lo <= hi -> hi < 2 ^ 32 -> good t ->
  exists r, save_range t lo hi = Some (r, []) /\ good r /\
    forall x, is_addr x = true ->
      member r 31 x = member t 31 x || ((lo <=? x) && (x <=? hi)).
Proof.
  intros Hlo Hle Hhi Hg.
  destruct (save_range_spec t lo hi Hlo ltac:(lia) Hg) as (r & ds & E & Hgr & Hm).
  exists r. split; [|split; assumption].
  unfold save_range in *.
  assert (Egt : (lo >? hi) = false) by (rewrite Z.gtb_ltb; apply Z.ltb_ge; lia).
  rewrite Egt in *.
  destruct (range_loop RANGE_FUEL t lo hi) as [[r' bl]|]; [|discriminate].
  injection E as <- <-. reflexivity.
Qed.

Lemma prefix_block_top a0 w :
  0 <= w <= 32 -> 0 <= a0 < 2 ^ 32 ->
  prefix_base a0 w + 2 ^ (32 - w) <= 2 ^ 32.
Proof.
  intros Hw Ha. rewrite prefix_base_eq by assumption.
  assert (Hp : 0 < 2 ^ (32 - w)) by (apply Z.pow_pos_nonneg; lia).
  assert (Hq : a0 / 2 ^ (32 - w) < 2 ^ w).
  { apply Z.div_lt_upper_bound; [exact Hp|].
    rewrite <- Z.pow_add_r by lia. replace (32 - w + w) with 32 by lia. lia. }
  assert (E : 2 ^ 32 = 2 ^ w * 2 ^ (32 - w)).
  { rewrite <- Z.pow_add_r by lia. f_equal. lia. }
  rewrite E. nia.
Qed.

(** The tree a run has built, at any end of input, meets the three tree
    invariants. *)
Lemma run_tree_good a_init a1_init input :
  good (root (final_state (read_input a_init a1_init input))).
Proof. apply (final_state_inv a_init a1_init input). Qed.

(** C8.  Adding a prefix with [save_cidr], adding the range of its
    addresses with [save_range], and adding its addresses one by one with
    [save_one_addr] leave the same tree, so the same lines are printed;
    with width 32 this is [save_one_addr] of the address alone. *)
Theorem three_forms_same_tree (t : NODE) (a0 w : Z) :
  good t -> 0 <= a0 < 2 ^ 32 -> 0 <= w <= 32 ->
  let base := prefix_base a0 w in
  let count := 2 ^ (32 - w) in
  exists r,
    save_cidr t a0 w = Some r /\
    save_range t base (base + count - 1) = Some (r, []) /\
    save_addresses t (addresses base (Z.to_nat count)) = r /\
    (w = 32 -> save_one_addr t a0 = r) /\
    dump_output (save_addresses t (addresses base (Z.to_nat count))) = dump_output r.
Proof.
  intros Hg Ha Hw base count.
  assert (Hp : 0 < count) by (apply Z.pow_pos_nonneg; lia).
  destruct (prefix_base_props a0 w Hw Ha) as (Hb & Hal & Hhi). fold base count in Hb, Hal, Hhi.
  pose proof (prefix_block_top a0 w Hw Ha) as Htop. fold base count in Htop.
  destruct (save_cidr_spec t a0 w Hw Ha Hg) as (r & Ec & Hgr & Hmr).
  exists r. split; [exact Ec|].
  assert (Er : exists r', save_range t base (base + count - 1) = Some (r', []) /\ r' = r).
  { destruct (save_range_ordered t base (base + count - 1)) as (r' & E' & Hg' & Hm');
      try lia; try assumption.
    exists r'. split; [exact E'|].
    apply good_unique; try assumption.
    intros x Hx. rewrite (Hm' x Hx), (Hmr x Hx). f_equal.
    fold base count. unfold in_block.
    destruct (Z.leb_spec base x), (Z.leb_spec x (base + count - 1)),
      (Z.ltb_spec x (base + count)); cbn [andb]; try reflexivity; lia. }
  destruct Er as (r' & E' & ->). split; [exact E'|].
  assert (Ea : save_addresses t (addresses base (Z.to_nat count)) = r).
  { destruct (save_addresses_spec (addresses base (Z.to_nat count)) t Hg) as [Hga Hma].
    { intros y Hy. unfold addresses in Hy.
      apply in_map_iff in Hy as (i & <- & Hi). apply in_seq in Hi. lia. }
    apply good_unique; try assumption.
    intros x Hx. rewrite (Hma x Hx), (Hmr x Hx), in_addresses. f_equal.
    fold base count. unfold in_block. rewrite Z2Nat.id by lia. reflexivity. }
  split; [exact Ea|]. split; [|rewrite Ea; reflexivity].
  intros ->.
  destruct (save_one_addr_spec t a0 Ha Hg) as [Hg1 Hm1].
  apply good_unique; try assumption.
  intros x Hx. rewrite (Hm1 x Hx), (Hmr x Hx). f_equal.
  unfold base, count in *. change (2 ^ (32 - 32)) with 1 in *.
  unfold in_block.
  destruct (Z.eqb_spec x a0), (Z.leb_spec (prefix_base a0 32) x),
    (Z.ltb_spec x (prefix_base a0 32 + 1)); cbn [andb]; try reflexivity; lia.
Qed.

Lemma three_forms_same_tree_witness :
  let base := prefix_base 167772161 30 in
  let count := 2 ^ (32 - 30) in
  exists r,
    save_cidr NONE 167772161 30 = Some r /\
    save_range NONE base (base + count - 1) = Some (r, []) /\
    save_addresses NONE (addresses base (Z.to_nat count)) = r /\
    (30 = 32 -> save_one_addr NONE 167772161 = r) /\
    dump_output (save_addresses NONE (addresses base (Z.to_nat count))) = dump_output r.
Proof.
  apply (three_forms_same_tree NONE 167772161 30);
    [repeat split; reflexivity | lia | lia].
Defined.

(** ** How many digits an octet may have *)

(** The characters of a run of decimal digits, most significant first. *)
Definition digit_chars (ds : list Z) : list Z := map (fun d => 48 + d) ds.

(** The number a run of digits reads as when it continues the value [v]. *)
Definition val (v : Z) (ds : list Z) : Z :=
  fold_left (fun acc d => acc * 10 + d) ds v.

Definition decimal (ds : list Z) : Z := val 0 ds.

Definition digits (ds : list Z) : Prop :=
  ds <> [] /\ Forall (fun d => 0 <= d <= 9) ds.

(** A dotted quad on a line of its own. *)
Definition quad_text (d1 d2 d3 d4 : list Z) : list Z :=
  digit_chars d1 ++ 46 :: digit_chars d2 ++ 46 :: digit_chars d3 ++ 46 ::
  digit_chars d4 ++ [10].

Lemma val_mono ds : forall v,
  0 <= v -> Forall (fun d => 0 <= d <= 9) ds -> v <= val v ds.
Proof.
  induction ds as [|d ds IH]; intros v Hv Hd; cbn [val fold_left]; [lia|].
  inversion Hd as [|? ? H1 H2]; subst.
  specialize (IH (v * 10 + d) ltac:(lia) H2). unfold val in IH. lia.
Qed.

Lemma read_loop_app xs : forall ys s,
  read_loop (xs ++ ys) s =
    match read_loop xs s with
    | Ok s' => read_loop ys s'
    | Fail f s' => Fail f s'
    end.
Proof.
  induction xs as [|c xs IH]; intros ys s; cbn [app read_loop]; [reflexivity|].
  destruct (step c s); [apply IH|reflexivity].
Qed.

(** The states in which a digit continues the octet being read. *)
Definition in_octet (st : Z) : Prop :=
  st = 2 \/ st = 4 \/ st = 6 \/ st = 8 \/ st = 11 \/ st = 13 \/ st = 15 \/ st = 17.

(** The state after the digits of an octet: the value read, or the latch
    and one diagnostic when the value passes 255, or no change at all when
    an error was latched before. *)
Definition octet_result (s : pstate) (ds : list Z) : pstate :=
  if n s <? 0 then s
  else if val (n s) ds >? 255
       then with_n (log s [Err (NumberOutOfRange (line s))]) (-1)
       else with_n s (val (n s) ds).

Lemma step_digit_in_octet d s :
  0 <= d <= 9 -> in_octet (state s) ->
  step (48 + d) s = Ok (octet_digit (48 + d) s).
Proof.
  intros Hd Hs. unfold step.
  assert (E : (48 <=? 48 + d) && (48 + d <=? 57) = true).
  { apply andb_true_intro. split; apply Z.leb_le; lia. }
  rewrite E. unfold on_digit.
  destruct Hs as [H|[H|[H|[H|[H|[H|[H|H]]]]]]]; rewrite H; reflexivity.
Qed.

Lemma octet_run ds : forall s,
  Forall (fun d => 0 <= d <= 9) ds -> in_octet (state s) -> n s <= 255 ->
  read_loop (digit_chars ds) s = Ok (octet_result s ds).
Proof.
  induction ds as [|d ds IH]; intros s Hd Hs Hn.
  - cbn [digit_chars map read_loop]. unfold octet_result, val. cbn [fold_left].
    destruct (Z.ltb_spec (n s) 0); [reflexivity|].
    destruct (Z.gtb_spec (n s) 255); [lia|]. destruct s; reflexivity.
  - inversion Hd as [|? ? H1 H2]; subst.
    cbn [digit_chars map read_loop]. rewrite step_digit_in_octet by assumption.
    fold (digit_chars ds).
    assert (Hs' : in_octet (state (octet_digit (48 + d) s))).
    { unfold octet_digit. destruct (n s <? 0); [assumption|].
      cbn [n with_n]. destruct (n s * 10 + (48 + d - 48) >? 255); assumption. }
    assert (Hn' : n (octet_digit (48 + d) s) <= 255).
    { unfold octet_digit. destruct (Z.ltb_spec (n s) 0); [lia|].
      cbn [n with_n]. destruct (Z.gtb_spec (n s * 10 + (48 + d - 48)) 255);
        cbn [n with_n]; lia. }
    rewrite (IH _ H2 Hs' Hn'). f_equal.
    unfold octet_result, octet_digit, val. cbn [fold_left].
    replace (48 + d - 48) with d by lia.
    destruct (Z.ltb_spec (n s) 0) as [Hneg|Hpos].
    + destruct (Z.ltb_spec (n s) 0); [reflexivity|lia].
    + cbn [n with_n].
      destruct (Z.gtb_spec (n s * 10 + d) 255) as [Hov|Hin]; cbn [n with_n log line].
      * cbn [Z.ltb Z.compare].
        pose proof (val_mono ds (n s * 10 + d) ltac:(lia) H2) as Hm. unfold val in Hm.
        destruct (Z.gtb_spec (fold_left (fun acc d0 => acc * 10 + d0) ds (n s * 10 + d)) 255);
          [reflexivity|lia].
      * destruct (Z.ltb_spec (n s * 10 + d) 0); [lia|].
        destruct (fold_left (fun acc d0 => acc * 10 + d0) ds (n s * 10 + d) >? 255);
          reflexivity.
Qed.

(** The digits of an octet read from the state before its first digit:
    state 1 with [n = 0], or the state after a dot, where [n] is 0 or the
    latch. *)
Definition octet_entry (s : pstate) (st : Z) : Prop :=
  (state s = 1 /\ st = 2 /\ n s = 0) \/
  ((n s = 0 \/ n s < 0) /\
   ((state s = 3 /\ st = 4) \/ (state s = 5 /\ st = 6) \/ (state s = 7 /\ st = 8))).

Lemma octet_first ds s st :
  digits ds -> octet_entry s st ->
  read_loop (digit_chars ds) s = Ok (octet_result (with_state s st) ds).
Proof.
  intros [Hne Hd] Hs.
  destruct ds as [|d ds]; [congruence|].
  inversion Hd as [|? ? H1 H2]; subst.
  assert (Hst : in_octet st).
  { unfold in_octet.
    destruct Hs as [(_ & -> & _)|[_ [[_ ->]|[[_ ->]|[_ ->]]]]]; tauto. }
  assert (Hn : n s <= 255) by (destruct Hs as [(_ & _ & ->)|[[->|H] _]]; lia).
  assert (E1 : step (48 + d) s = Ok (octet_digit (48 + d) (with_state s st))).
  { unfold step.
    assert (E : (48 <=? 48 + d) && (48 + d <=? 57) = true).
    { apply andb_true_intro. split; apply Z.leb_le; lia. }
    rewrite E. unfold on_digit.
    destruct Hs as [(H & -> & Hz)|[_ [[H ->]|[[H ->]|[H ->]]]]];
      rewrite H; cbv beta iota; try reflexivity.
    unfold octet_digit. cbn [n with_state with_n]. rewrite Hz.
    change (0 <? 0) with false. cbv beta iota.
    replace (48 + d - 48) with d by lia. change (0 * 10 + d) with d.
    destruct (Z.gtb_spec d 255); [lia|]. reflexivity. }
  transitivity (read_loop (digit_chars (d :: ds)) (with_state s st)).
  - cbn [digit_chars map read_loop].
    rewrite E1, step_digit_in_octet by assumption. reflexivity.
  - apply octet_run; assumption.
Qed.
Lemma octet_phase ds r x1 x l m e st tr :
  digits ds ->
  (e = 1 /\ st = 2 /\ m = 0) \/
  ((m = 0 \/ m = -1) /\ ((e = 3 /\ st = 4) \/ (e = 5 /\ st = 6) \/ (e = 7 /\ st = 8))) ->
  read_loop (digit_chars ds) (mk_pstate r x1 x l m e tr) =
    Ok (if m <? 0 then mk_pstate r x1 x l m st tr
        else if decimal ds >? 255
             then mk_pstate r x1 x l (-1) st (tr ++ [Err (NumberOutOfRange l)])
             else mk_pstate r x1 x l (decimal ds) st tr).
Proof.
  intros Hd He. rewrite (octet_first ds _ st Hd).
  - unfold octet_result. cbn [n line with_state with_n log root a1 a state trace].
    destruct He as [(_ & _ & ->)|[[->| ->] _]]; reflexivity.
  - unfold octet_entry. cbn [state n].
    destruct He as [H|[[->| ->] H]]; [left; exact H| |]; right; (split; [lia|exact H]).
Qed.

Lemma dot_in_octet r x1 x l m e tr :
  0 <= m <= 255 -> 0 <= x < 2 ^ 24 -> e = 4 \/ e = 6 ->
  step 46 (mk_pstate r x1 x l m e tr) = Ok (mk_pstate r x1 (x * 256 + m) l 0 (e + 1) tr).
Proof.
  intros Hm Hx He. unfold step. cbn [Z.leb Z.eqb Z.compare Pos.compare Pos.compare_cont andb Pos.eqb].
  unfold on_dot, dot_shift. cbn [state n].
  assert (E : (m >=? 0) = true) by (rewrite Z.geb_leb; apply Z.leb_le; lia).
  destruct He as [-> | ->]; cbv beta iota; rewrite E;
    rewrite push_octet_val by (cbn [a n]; lia); reflexivity.
Qed.

Lemma dot_in_first_octet r x1 x l m tr :
  0 <= m <= 255 ->
  step 46 (mk_pstate r x1 x l m 2 tr) = Ok (mk_pstate r x1 m l 0 3 tr).
Proof.
  intros Hm. unfold step. cbn [Z.leb Z.eqb Z.compare Pos.compare Pos.compare_cont andb Pos.eqb].
  unfold on_dot, dot_shift. cbn [state n with_a].
  assert (E : (m >=? 0) = true) by (rewrite Z.geb_leb; apply Z.leb_le; lia).
  rewrite E, push_octet_val by (cbn [a n with_a with_line]; lia). reflexivity.
Qed.

Lemma newline_after_quad r x1 x l m tr :
  0 <= m <= 255 -> 0 <= x < 2 ^ 24 ->
  step 10 (mk_pstate r x1 x l m 8 tr) =
    Ok (mk_pstate r x1 (x * 256 + m) (l + 1) m 9 tr).
Proof.
  intros Hm Hx. unfold step. cbn [Z.leb Z.eqb Z.compare Pos.compare Pos.compare_cont andb Pos.eqb].
  unfold on_space. cbn [state n with_line line].
  assert (E : (m >=? 0) = true) by (rewrite Z.geb_leb; apply Z.leb_le; lia).
  rewrite E, push_octet_val by (cbn [a n with_a with_line]; lia). reflexivity.
Qed.

Lemma eof_after_quad r x1 x l m tr :
  0 <= m ->
  at_eof (mk_pstate r x1 x l m 9 tr) =
    Ok (mk_pstate (save_one_addr r x) x1 x l m 9 (tr ++ [Call (SaveOneAddr x)])).
Proof.
  intros Hm. unfold at_eof. cbn [state n a].
  assert (E : (m >=? 0) = true) by (rewrite Z.geb_leb; apply Z.leb_le; lia).
  rewrite E. reflexivity.
Qed.

Lemma dot_latched r x1 x l e tr :
  e = 2 \/ e = 4 \/ e = 6 ->
  step 46 (mk_pstate r x1 x l (-1) e tr) =
    Ok (mk_pstate r x1 (if e =? 2 then 0 else x) l (-1) (e + 1) tr).
Proof. intros [-> |[-> | ->]]; reflexivity. Qed.

Lemma newline_latched r x1 x l tr :
  step 10 (mk_pstate r x1 x l (-1) 8 tr) = Ok (mk_pstate r x1 x (l + 1) (-1) 9 tr).
Proof. reflexivity. Qed.

Lemma eof_latched r x1 x l tr :
  at_eof (mk_pstate r x1 x l (-1) 9 tr) = Ok (mk_pstate r x1 x l (-1) 9 tr).
Proof. reflexivity. Qed.

Lemma decimal_nonneg ds : Forall (fun d => 0 <= d <= 9) ds -> 0 <= decimal ds.
Proof. intros H. apply (val_mono ds 0); [lia|assumption]. Qed.

(** * Further properties of the program *)

(** ** The output is a function of the committed set *)

(** X1.  Two runs that commit the same set of addresses, in whatever units,
    order or multiplicity, end with the same tree, of which [dump_output]
    makes the same lines.  They print the same text whenever they end the
    same way; a run that ends in [abort()] prints nothing, whatever it
    committed. *)
Theorem output_depends_on_committed_set a_init a1_init input b_init b1_init input' :
  (forall x,
     committed x (calls_of (trace (final_state (read_input a_init a1_init input)))) =
     committed x (calls_of (trace (final_state (read_input b_init b1_init input'))))) ->
  root (final_state (read_input a_init a1_init input)) =
    root (final_state (read_input b_init b1_init input')) /\
  dump_output (root (final_state (read_input a_init a1_init input))) =
    dump_output (root (final_state (read_input b_init b1_init input'))) /\
  (ending (main a_init a1_init input) = ending (main b_init b1_init input') ->
   stdout (main a_init a1_init input) = stdout (main b_init b1_init input')) /\
  (forall f, ending (main a_init a1_init input) = Killed f ->
   stdout (main a_init a1_init input) = EmptyString).
Proof.
  intros Hsame.
  pose proof (final_state_inv a_init a1_init input) as [_ [Hg Hc]].
  pose proof (final_state_inv b_init b1_init input') as [_ [Hg' Hc']].
  assert (Er : root (final_state (read_input a_init a1_init input)) =
               root (final_state (read_input b_init b1_init input'))).
  { apply good_unique; try assumption.
    intros x Hx. specialize (Hc x). specialize (Hc' x).
    rewrite Hx in Hc, Hc'. cbn [andb] in Hc, Hc'.
    rewrite <- Hc, <- Hc'. apply Hsame. }
  split; [exact Er|]. split; [rewrite Er; reflexivity|].
  unfold main.
  destruct (read_input a_init a1_init input) as [s|f s];
    destruct (read_input b_init b1_init input') as [s'|f' s'];
    cbn [final_state] in *; rewrite ?Er;
    repeat match goal with
           | |- context [dump_output ?t] => destruct (dump_output t)
           end;
    cbn [ending stdout]; (split; [intros E|intros g E]);
    try reflexivity; discriminate.
Qed.

Lemma output_depends_on_committed_set_witness :
  root (final_state (read_input 0 0 (text (ln "10.0.0.1" ++ ln "10.0.0.0" ++ ln "10.0.0.1")))) =
    root (final_state (read_input 0 0 (text (ln "10.0.0.0 - 10.0.0.1")))) /\
  dump_output
    (root (final_state
       (read_input 0 0 (text (ln "10.0.0.1" ++ ln "10.0.0.0" ++ ln "10.0.0.1"))))) =
    dump_output (root (final_state (read_input 0 0 (text (ln "10.0.0.0 - 10.0.0.1"))))) /\
  (ending (main 0 0 (text (ln "10.0.0.1" ++ ln "10.0.0.0" ++ ln "10.0.0.1"))) =
     ending (main 0 0 (text (ln "10.0.0.0 - 10.0.0.1"))) ->
   stdout (main 0 0 (text (ln "10.0.0.1" ++ ln "10.0.0.0" ++ ln "10.0.0.1"))) =
     stdout (main 0 0 (text (ln "10.0.0.0 - 10.0.0.1")))) /\
  (forall f,
     ending (main 0 0 (text (ln "10.0.0.1" ++ ln "10.0.0.0" ++ ln "10.0.0.1"))) = Killed f ->
     stdout (main 0 0 (text (ln "10.0.0.1" ++ ln "10.0.0.0" ++ ln "10.0.0.1"))) =
       EmptyString).
Proof.
  apply (output_depends_on_committed_set 0 0
           (text (ln "10.0.0.1" ++ ln "10.0.0.0" ++ ln "10.0.0.1")) 0 0
           (text (ln "10.0.0.0 - 10.0.0.1"))).
  intros x.
  replace (calls_of (trace (final_state (read_input 0 0
             (text (ln "10.0.0.1" ++ ln "10.0.0.0" ++ ln "10.0.0.1"))))))
    with [SaveOneAddr 167772161; SaveOneAddr 167772160; SaveOneAddr 167772161]
    by (vm_compute; reflexivity).
  replace (calls_of (trace (final_state (read_input 0 0 (text (ln "10.0.0.0 - 10.0.0.1"))))))
    with [SaveRange 167772160 167772161] by (vm_compute; reflexivity).
  cbn [committed existsb in_call].
  destruct (Z.eqb_spec x 167772161), (Z.eqb_spec x 167772160),
    (Z.leb_spec 167772160 x), (Z.leb_spec x 167772161); cbn [andb orb];
    try reflexivity; lia.
Defined.

(** ** How a run can end *)

(** X2.  A run never stays in a loop of [save_range], never evaluates an
    undefined shift and never reaches the [abort()] of [dump_tree].  It
    exits with status 0, unless the input ends in one of the two
    prefix-width states: then, and only then, it ends in the [abort()] of
    [read_input], with nothing on standard output. *)
Theorem run_endings a_init a1_init input :
  exists s,
    read_loop input (init_state a_init a1_init) = Ok s /\
    ((state s <> 18 /\ state s <> 19 /\
      exists s' ls, read_input a_init a1_init input = Ok s' /\
        dump_output (root s') = Some ls /\
        main a_init a1_init input =
          mk_run (print_lines ls) (diags_of (trace s')) (Exit 0)) \/
     ((state s = 18 \/ state s = 19) /\
      main a_init a1_init input =
        mk_run EmptyString (diags_of (trace s)) (Killed FAbort))).
Proof.
  destruct (read_loop_inv input (init_state a_init a1_init)
              (init_state_inv a_init a1_init)) as (s & E & HI).
  exists s. split; [exact E|].
  unfold main, read_input, read_from. rewrite E.
  destruct (at_eof_inv s HI) as [(s' & E' & HI')|[Hst E']]; rewrite E'.
  - left.
    assert (Hne : state s <> 18 /\ state s <> 19).
    { split; intros Hs; unfold at_eof in E'; rewrite Hs in E'; discriminate. }
    destruct Hne as [H18 H19]. split; [exact H18|]. split; [exact H19|].
    destruct HI' as [_ [(Hf & _ & _) _]].
    destruct (dump_output_prefixes (root s') Hf) as (ls & Hd & _).
    exists s', ls. rewrite Hd. auto.
  - right. split; [exact Hst|reflexivity].
Qed.

(** ** The printed lines *)

Lemma octet_range y : 0 <= Z.land y 255 <= 255.
Proof.
  rewrite land_255. pose proof (Z.mod_pos_bound y 256 ltac:(lia)). lia.
Qed.

Lemma StronglySorted_app {A} (R : A -> A -> Prop) l1 l2 :
  StronglySorted R l1 -> StronglySorted R l2 ->
  (forall x y, In x l1 -> In y l2 -> R x y) ->
  StronglySorted R (l1 ++ l2).
Proof.
  intros H1 H2 H. induction H1 as [|x l1 Hs IH Hx]; cbn [app]; [assumption|].
  constructor.
  - apply IH. intros u v Hu Hv. apply H; [right; exact Hu|exact Hv].
  - apply Forall_app. split; [exact Hx|].
    apply Forall_forall. intros y Hy. apply H; [left; reflexivity|exact Hy].
Qed.

(** The block of [p] ends before the block of [q] starts. *)
Definition block_before (p q : Z * Z) : Prop :=
  fst p + 2 ^ (32 - snd p) <= fst q.

Lemma prefixes_sorted t : forall base bit,
  fits t bit = true -> -1 <= bit ->
  StronglySorted block_before (prefixes t base bit).
Proof.
  induction t as [| |s0 IH0 s1 IH1]; intros base bit Hf Hb; cbn [prefixes].
  - constructor.
  - constructor; constructor.
  - cbn [fits] in Hf. apply andb_prop in Hf as [Hf F1]. apply andb_prop in Hf as [H F0].
    apply Z.leb_le in H.
    apply StronglySorted_app; [apply IH0|apply IH1|]; try assumption; try lia.
    intros p q Hp Hq.
    destruct (prefixes_shape s0 base (bit - 1) p F0 ltac:(lia) Hp) as (_ & Pc & _).
    destruct (prefixes_shape s1 (base + 2 ^ bit) (bit - 1) q F1 ltac:(lia) Hq) as (Qa & _).
    replace (bit - 1 + 1) with bit in Pc by lia.
    unfold block_before. lia.
Qed.

Lemma StronglySorted_map {A B} (f : A -> B) (R : B -> B -> Prop) l :
  StronglySorted R (map f l) -> StronglySorted (fun x y => R (f x) (f y)) l.
Proof.
  induction l as [|x l IH]; cbn [map]; intros H; [constructor|].
  inversion H as [|? ? Hs Hx]; subst. constructor; [apply IH; exact Hs|].
  apply Forall_forall. intros y Hy.
  rewrite Forall_forall in Hx. apply Hx. apply in_map. exact Hy.
Qed.

(** X3.  The lines [dump_output] prints for the tree of any run come in
    ascending order of address, each block ending before the next one
    starts. *)
Theorem output_is_sorted a_init a1_init input :
  exists ls,
    dump_output (root (final_state (read_input a_init a1_init input))) = Some ls /\
    StronglySorted
      (fun l1 l2 => line_addr l1 + 2 ^ (32 - width l1) <= line_addr l2) ls.
Proof.
  pose proof (run_tree_good a_init a1_init input) as (Hf & _ & _).
  destruct (dump_output_prefixes _ Hf) as (ls & Hd & Hm).
  exists ls. split; [exact Hd|].
  apply (StronglySorted_map prefix_of_line block_before).
  rewrite Hm. apply prefixes_sorted; [exact Hf|lia].
Qed.

(** X4.  Every printed line is a well-formed CIDR block: four octets
    between 0 and 255, a width between 0 and 32, and an address whose bits
    below the prefix are zero. *)
Theorem output_lines_well_formed a_init a1_init input :
  exists ls,
    dump_output (root (final_state (read_input a_init a1_init input))) = Some ls /\
    forall l, In l ls ->
      0 <= oct1 l <= 255 /\ 0 <= oct2 l <= 255 /\
      0 <= oct3 l <= 255 /\ 0 <= oct4 l <= 255 /\
      0 <= width l <= 32 /\
      line_addr l mod 2 ^ (32 - width l) = 0.
Proof.
  pose proof (run_tree_good a_init a1_init input) as (Hf & _ & _).
  set (t := root (final_state (read_input a_init a1_init input))) in *.
  destruct (dump_output_prefixes t Hf) as (ls & Hd & Hm).
  exists ls. split; [exact Hd|].
  intros l Hl.
  assert (Hp : In (prefix_of_line l) (prefixes t 0 31))
    by (rewrite <- Hm; apply in_map; exact Hl).
  destruct (root_prefix_bounds t _ Hf Hp) as (_ & Hw & Hal).
  cbn [prefix_of_line fst snd] in Hw, Hal.
  unfold dump_output in Hd.
  rewrite dump_tree_prefixes in Hd by (assumption || lia || reflexivity).
  injection Hd as <-.
  apply in_map_iff in Hl as (p & <- & _).
  unfold line_of_prefix, line_of in *. cbn [oct1 oct2 oct3 oct4 width] in *.
  repeat split; try apply octet_range; try lia; exact Hal.
Qed.

(** ** The error latch *)


Ltac latched_step E :=
  fields; rewrite ?E; cbv beta iota; unfold octet_digit, dot_shift; fields;
  split_ifs; try lia;
  eexists; (split; [reflexivity|]); fields;
  rewrite ?calls_of_app, ?diags_of_app, ?app_nil_r; cbn [diags_of calls_of flat_map app];
  rewrite ?app_nil_r, ?E;
  repeat split; intros; try reflexivity; try lia.

(** X5.  While an error is latched ([n < 0]) a character never commits
    anything: the call succeeds, the tree and the calls made so far are
    unchanged, and a digit, a dot or white space prints no diagnostic.  The
    latch is cleared by one event only, a digit read in state 1. *)
Theorem latched_step_commits_nothing c s :
  1 <= state s <= 19 -> n s < 0 ->
  exists s', step c s = Ok s' /\
    root s' = root s /\
    calls_of (trace s') = calls_of (trace s) /\
    (48 <= c <= 57 \/ c = 46 \/ c = 10 \/ c = 32 \/ c = 9 \/ c = 13 ->
     diags_of (trace s') = diags_of (trace s)) /\
    (0 <= n s' <-> state s = 1 /\ 48 <= c <= 57).
Proof.
  intros Hst Hn. unfold step.
  destruct (Z.leb_spec 48 c), (Z.leb_spec c 57); cbn [andb].
  1: { unfold on_digit.
       destruct (state_cases _ Hst) as
         [E|[E|[E|[E|[E|[E|[E|[E|[E|[E|[E|[E|[E|[E|[E|[E|[E|[E|E]]]]]]]]]]]]]]]]]];
       latched_step E. }
  all: destruct (Z.eqb_spec c 46);
    [ unfold on_dot;
      destruct (state_cases _ Hst) as
        [E|[E|[E|[E|[E|[E|[E|[E|[E|[E|[E|[E|[E|[E|[E|[E|[E|[E|E]]]]]]]]]]]]]]]]]];
      latched_step E |].
  all: destruct (Z.eqb_spec c 45);
    [ unfold on_dash;
      destruct (state_cases _ Hst) as
        [E|[E|[E|[E|[E|[E|[E|[E|[E|[E|[E|[E|[E|[E|[E|[E|[E|[E|E]]]]]]]]]]]]]]]]]];
      latched_step E |].
  all: destruct (Z.eqb_spec c 47);
    [ unfold on_slash;
      destruct (state_cases _ Hst) as
        [E|[E|[E|[E|[E|[E|[E|[E|[E|[E|[E|[E|[E|[E|[E|[E|[E|[E|E]]]]]]]]]]]]]]]]]];
      latched_step E |].
  all: destruct (Z.eqb_spec c 10);
    [ unfold on_space;
      destruct (state_cases _ Hst) as
        [E|[E|[E|[E|[E|[E|[E|[E|[E|[E|[E|[E|[E|[E|[E|[E|[E|[E|E]]]]]]]]]]]]]]]]]];
      latched_step E |].
  all: destruct (Z.eqb_spec c 32), (Z.eqb_spec c 9), (Z.eqb_spec c 13); cbn [orb];
    try (unfold on_space;
      destruct (state_cases _ Hst) as
        [E|[E|[E|[E|[E|[E|[E|[E|[E|[E|[E|[E|[E|[E|[E|[E|[E|[E|E]]]]]]]]]]]]]]]]]];
      latched_step E).
  all: eexists; (split; [reflexivity|]); fields;
    rewrite ?calls_of_app, ?app_nil_r; cbn [calls_of flat_map app];
    rewrite ?app_nil_r; repeat split; intros; try reflexivity; try lia.
Qed.

Lemma latched_step_commits_nothing_witness :
  exists s', step 53 (mk_pstate NONE 0 0 1 (-1) 9 []) = Ok s' /\
    root s' = NONE /\
    calls_of (trace s') = [] /\
    (48 <= 53 <= 57 \/ 53 = 46 \/ 53 = 10 \/ 53 = 32 \/ 53 = 9 \/ 53 = 13 ->
     diags_of (trace s') = []) /\
    (0 <= n s' <-> 9 = 1 /\ 48 <= 53 <= 57).
Proof.
  apply (latched_step_commits_nothing 53 (mk_pstate NONE 0 0 1 (-1) 9 []));
    cbn [state n]; lia.
Defined.

(** ** Units of input *)

Lemma geb_true m : 0 <= m -> (m >=? 0) = true.
Proof. intros H. rewrite Z.geb_leb. apply Z.leb_le. exact H. Qed.

Lemma digit_test d : 0 <= d <= 9 -> (48 <=? 48 + d) && (48 + d <=? 57) = true.
Proof. intros H. apply andb_true_intro. split; apply Z.leb_le; lia. Qed.

Ltac const_char :=
  unfold step;
  cbn [Z.leb Z.eqb Z.compare Pos.compare Pos.compare_cont andb orb Pos.eqb].

(** The digits of an octet after its first. *)
Lemma octet_rest ds r x1 x l m e tr :
  Forall (fun d => 0 <= d <= 9) ds -> in_octet e -> 0 <= m <= 255 ->
  read_loop (digit_chars ds) (mk_pstate r x1 x l m e tr) =
    Ok (if val m ds >? 255
        then mk_pstate r x1 x l (-1) e (tr ++ [Err (NumberOutOfRange l)])
        else mk_pstate r x1 x l (val m ds) e tr).
Proof.
  intros Hd He Hm. rewrite octet_run by (cbn [state n]; assumption || lia).
  unfold octet_result. cbn [n line with_n log root a1 a state trace].
  destruct (Z.ltb_spec m 0); [lia|]. destruct (val m ds >? 255); reflexivity.
Qed.

(** The states in which the first digit of an octet is read, with the
    value [n] may have there. *)
Definition octet_start (e m : Z) : Prop :=
  e = 1 \/ (e = 10 /\ 0 <= m) \/
  (m = 0 /\ (e = 3 \/ e = 5 \/ e = 7 \/ e = 12 \/ e = 14 \/ e = 16)).

Lemma octet_whole ds r x1 x l m e tr :
  digits ds -> octet_start e m ->
  read_loop (digit_chars ds) (mk_pstate r x1 x l m e tr) =
    Ok (if decimal ds >? 255
        then mk_pstate r x1 x l (-1) (e + 1) (tr ++ [Err (NumberOutOfRange l)])
        else mk_pstate r x1 x l (decimal ds) (e + 1) tr).
Proof.
  intros [Hne Hd] He.
  destruct ds as [|d ds]; [congruence|].
  inversion Hd as [|? ? H1 H2]; subst.
  assert (E1 : step (48 + d) (mk_pstate r x1 x l m e tr) =
               Ok (mk_pstate r x1 x l d (e + 1) tr)).
  { unfold step. rewrite digit_test by assumption. unfold on_digit. cbn [state].
    destruct He as [->|[[-> Hm]|[-> [->|[->|[->|[->|[->| ->]]]]]]]]; cbv beta iota;
      cbn [n]; rewrite ?geb_true by assumption;
      unfold octet_digit; cbn [n with_n with_state state line log root a1 a trace];
      cbn [Z.ltb Z.compare]; cbv beta iota;
      replace (48 + d - 48) with d by lia; change (0 * 10 + d) with d;
      try (destruct (Z.gtb_spec d 255); [lia|]); reflexivity. }
  cbn [digit_chars map read_loop]. rewrite E1. fold (digit_chars ds).
  assert (Ho : in_octet (e + 1)).
  { unfold in_octet.
    destruct He as [->|[[-> Hm]|[_ [->|[->|[->|[->|[->| ->]]]]]]]]; cbn; tauto. }
  rewrite (octet_rest ds _ _ _ _ _ _ _ H2 Ho) by lia.
  unfold decimal, val. cbn [fold_left]. change (0 * 10 + d) with d. reflexivity.
Qed.

(** A dot after the first octet of a quad. *)
Lemma dot_first r x1 x l m e tr :
  0 <= m <= 255 -> e = 2 \/ e = 11 ->
  step 46 (mk_pstate r x1 x l m e tr) = Ok (mk_pstate r x1 m l 0 (e + 1) tr).
Proof.
  intros Hm He. const_char. unfold on_dot, dot_shift. cbn [state n with_a].
  destruct He as [-> | ->]; cbv beta iota; rewrite geb_true by lia;
    rewrite push_octet_val by (cbn [a n with_a with_line]; lia); reflexivity.
Qed.

(** A dot after the second or third octet. *)
Lemma dot_next r x1 x l m e tr :
  0 <= m <= 255 -> 0 <= x < 2 ^ 24 -> e = 4 \/ e = 6 \/ e = 13 \/ e = 15 ->
  step 46 (mk_pstate r x1 x l m e tr) = Ok (mk_pstate r x1 (x * 256 + m) l 0 (e + 1) tr).
Proof.
  intros Hm Hx He. const_char. unfold on_dot, dot_shift. cbn [state n].
  destruct He as [->|[->|[->| ->]]]; cbv beta iota; rewrite geb_true by lia;
    rewrite push_octet_val by (cbn [a n]; lia); reflexivity.
Qed.

(** The address four octets stand for. *)
Definition quad (d1 d2 d3 d4 : list Z) : Z :=
  ((decimal d1 * 256 + decimal d2) * 256 + decimal d3) * 256 + decimal d4.

Definition quad_chars (d1 d2 d3 d4 : list Z) : list Z :=
  digit_chars d1 ++ 46 :: digit_chars d2 ++ 46 :: digit_chars d3 ++ 46 :: digit_chars d4.

Definition octets_ok (d1 d2 d3 d4 : list Z) : Prop :=
  (digits d1 /\ decimal d1 <= 255) /\ (digits d2 /\ decimal d2 <= 255) /\
  (digits d3 /\ decimal d3 <= 255) /\ (digits d4 /\ decimal d4 <= 255).

Lemma quad_range d1 d2 d3 d4 :
  octets_ok d1 d2 d3 d4 ->
  0 <= (decimal d1 * 256 + decimal d2) * 256 + decimal d3 < 2 ^ 24 /\
  0 <= decimal d4 <= 255 /\ 0 <= quad d1 d2 d3 d4 < 2 ^ 32.
Proof.
  intros ([[_ H1] B1] & [[_ H2] B2] & [[_ H3] B3] & [[_ H4] B4]).
  pose proof (decimal_nonneg d1 H1). pose proof (decimal_nonneg d2 H2).
  pose proof (decimal_nonneg d3 H3). pose proof (decimal_nonneg d4 H4).
  unfold quad. lia.
Qed.

(** A quad whose octets are in range, read from state 1 or, as the second
    end of a range, from state 10: the parser is left before the character
    that ends the quad, with the first three octets in [a] and the fourth
    in [n]. *)
Lemma quad_run d1 d2 d3 d4 r x1 x l m e tr :
  octets_ok d1 d2 d3 d4 -> e = 1 \/ (e = 10 /\ 0 <= m) ->
  read_loop (quad_chars d1 d2 d3 d4) (mk_pstate r x1 x l m e tr) =
    Ok (mk_pstate r x1 ((decimal d1 * 256 + decimal d2) * 256 + decimal d3) l
          (decimal d4) (e + 7) tr).
Proof.
  intros Hq He.
  destruct Hq as ([D1 B1] & [D2 B2] & [D3 B3] & [D4 B4]).
  pose proof (decimal_nonneg d1 (proj2 D1)) as P1.
  pose proof (decimal_nonneg d2 (proj2 D2)) as P2.
  pose proof (decimal_nonneg d3 (proj2 D3)) as P3.
  pose proof (decimal_nonneg d4 (proj2 D4)) as P4.
  assert (G : forall v, v <= 255 -> (v >? 255) = false).
  { intros v Hv. destruct (Z.gtb_spec v 255); [lia|reflexivity]. }
  unfold quad_chars.
  rewrite read_loop_app, (octet_whole d1) by
    (assumption || (unfold octet_start; destruct He as [->|[-> ?]]; tauto)).
  rewrite G by assumption. cbn [read_loop].
  rewrite dot_first by (lia || (destruct He as [->|[-> ?]]; cbn; tauto)).
  rewrite read_loop_app, (octet_whole d2) by
    (assumption || (unfold octet_start; destruct He as [->|[-> ?]]; cbn; tauto)).
  rewrite G by assumption. cbn [read_loop].
  rewrite dot_next by (lia || (destruct He as [->|[-> ?]]; cbn; tauto)).
  rewrite read_loop_app, (octet_whole d3) by
    (assumption || (unfold octet_start; destruct He as [->|[-> ?]]; cbn; tauto)).
  rewrite G by assumption. cbn [read_loop].
  rewrite dot_next by (lia || (destruct He as [->|[-> ?]]; cbn; tauto)).
  rewrite (octet_whole d4) by
    (assumption || (unfold octet_start; destruct He as [->|[-> ?]]; cbn; tauto)).
  rewrite G by assumption.
  destruct He as [->|[-> ?]]; reflexivity.
Qed.

(** *** A prefix *)

Lemma slash_after_quad r x1 x l m tr :
  0 <= m <= 255 -> 0 <= x < 2 ^ 24 ->
  step 47 (mk_pstate r x1 x l m 8 tr) = Ok (mk_pstate r x1 (x * 256 + m) l m 18 tr).
Proof.
  intros Hm Hx. const_char. unfold on_slash. cbn [state n].
  rewrite geb_true by lia.
  rewrite push_octet_val by (cbn [a n]; lia). reflexivity.
Qed.

Lemma width_latched ds : forall r x1 x l tr,
  Forall (fun d => 0 <= d <= 9) ds ->
  read_loop (digit_chars ds) (mk_pstate r x1 x l (-1) 19 tr) =
    Ok (mk_pstate r x1 x l (-1) 19 tr).
Proof.
  induction ds as [|d ds IH]; intros r x1 x l tr Hd; [reflexivity|].
  inversion Hd as [|? ? H1 H2]; subst.
  cbn [digit_chars map read_loop]. unfold step. rewrite digit_test by assumption.
  unfold on_digit. cbn [state n]. cbv beta iota. cbn [Z.ltb Z.compare].
  apply IH. assumption.
Qed.

(** The digits of a width after its first. *)
Lemma width_rest ds : forall r x1 x l m tr,
  Forall (fun d => 0 <= d <= 9) ds -> 0 <= m <= 32 ->
  read_loop (digit_chars ds) (mk_pstate r x1 x l m 19 tr) =
    Ok (if val m ds >? 32
        then mk_pstate r x1 x l (-1) 19 (tr ++ [Err (WidthOutOfRange l)])
        else mk_pstate r x1 x l (val m ds) 19 tr).
Proof.
  induction ds as [|d ds IH]; intros r x1 x l m tr Hd Hm.
  - cbn [digit_chars map read_loop]. unfold val. cbn [fold_left].
    destruct (Z.gtb_spec m 32); [lia|reflexivity].
  - inversion Hd as [|? ? H1 H2]; subst.
    assert (E1 : step (48 + d) (mk_pstate r x1 x l m 19 tr) =
                 Ok (if m * 10 + d >? 32
                     then mk_pstate r x1 x l (-1) 19 (tr ++ [Err (WidthOutOfRange l)])
                     else mk_pstate r x1 x l (m * 10 + d) 19 tr)).
    { unfold step. rewrite digit_test by assumption.
      unfold on_digit. cbn [state n]. cbv beta iota.
      destruct (Z.ltb_spec m 0); [lia|]. cbv zeta.
      cbn [n with_n line log root a1 a state trace].
      replace (48 + d - 48) with d by lia.
      destruct (m * 10 + d >? 32); reflexivity. }
    cbn [digit_chars map read_loop]. fold (digit_chars ds). rewrite E1.
    unfold val. cbn [fold_left]. fold (val (m * 10 + d) ds).
    destruct (Z.gtb_spec (m * 10 + d) 32) as [Hov|Hin].
    + rewrite width_latched by assumption.
      pose proof (val_mono ds (m * 10 + d) ltac:(lia) H2).
      destruct (Z.gtb_spec (val (m * 10 + d) ds) 32); [reflexivity|lia].
    + apply IH; [assumption|lia].
Qed.

Lemma width_whole ds r x1 x l m tr :
  digits ds -> 0 <= m ->
  read_loop (digit_chars ds) (mk_pstate r x1 x l m 18 tr) =
    Ok (if decimal ds >? 32
        then mk_pstate r x1 x l (-1) 19 (tr ++ [Err (WidthOutOfRange l)])
        else mk_pstate r x1 x l (decimal ds) 19 tr).
Proof.
  intros [Hne Hd] Hm.
  destruct ds as [|d ds]; [congruence|].
  inversion Hd as [|? ? H1 H2]; subst.
  assert (E1 : step (48 + d) (mk_pstate r x1 x l m 18 tr) =
               Ok (mk_pstate r x1 x l d 19 tr)).
  { unfold step. rewrite digit_test by assumption.
    unfold on_digit. cbn [state n]. cbv beta iota. rewrite geb_true by assumption.
    cbn [with_n with_state n line root a1 a state trace].
    replace (48 + d - 48) with d by lia. reflexivity. }
  cbn [digit_chars map read_loop]. fold (digit_chars ds). rewrite E1.
  rewrite width_rest by (assumption || lia).
  unfold decimal, val. cbn [fold_left]. change (0 * 10 + d) with d. reflexivity.
Qed.

(** The line [q/w]: a quad, a slash, a width and a newline. *)
Definition prefix_text (d1 d2 d3 d4 dw : list Z) : list Z :=
  quad_chars d1 d2 d3 d4 ++ 47 :: digit_chars dw ++ [10].

(** X6.  A line [a.b.c.d/w] read in state 1, with octets that read as at
    most 255, returns to state 1 on the next line.  When the width reads as
    at most 32, however many digits it has, the line makes the one call
    [save_cidr(a.b.c.d, w)] and prints nothing; when it reads as more, no
    call is made and one width diagnostic is printed. *)
Theorem prefix_line_commits d1 d2 d3 d4 dw s :
  state s = 1 -> octets_ok d1 d2 d3 d4 -> digits dw ->
  exists s',
    read_loop (prefix_text d1 d2 d3 d4 dw) s = Ok s' /\
    state s' = 1 /\ line s' = line s + 1 /\
    (decimal dw <= 32 ->
     save_cidr (root s) (quad d1 d2 d3 d4) (decimal dw) = Some (root s') /\
     trace s' = trace s ++ [Call (SaveCidr (quad d1 d2 d3 d4) (decimal dw))]) /\
    (32 < decimal dw ->
     root s' = root s /\
     trace s' = trace s ++ [Err (WidthOutOfRange (line s))]).
Proof.
  intros Hs Hq Hw. destruct s as [r x1 x l m e tr]. cbn [state root line trace] in *.
  subst e.
  destruct (quad_range d1 d2 d3 d4 Hq) as (Ha & Hn & HA).
  pose proof (decimal_nonneg dw (proj2 Hw)) as Pw.
  unfold prefix_text.
  rewrite read_loop_app, quad_run by (assumption || tauto).
  change (1 + 7) with 8. cbn [read_loop].
  rewrite slash_after_quad by assumption.
  rewrite read_loop_app, width_whole by (assumption || lia).
  fold (quad d1 d2 d3 d4).
  destruct (Z.gtb_spec (decimal dw) 32) as [Hov|Hin].
  - eexists. split; [reflexivity|]. cbn [state line root trace].
    repeat split; intros; try reflexivity; lia.
  - cbn [read_loop]. const_char. unfold on_space.
    cbn [state with_line n a line root a1 trace]. cbv beta iota.
    rewrite geb_true by assumption.
    unfold do_save_cidr, save_cidr. cbn [root].
    rewrite cidr_base_spec by lia.
    eexists. split; [reflexivity|]. cbn [state line root trace with_state with_root log].
    repeat split; intros; try reflexivity; lia.
Qed.

Lemma prefix_line_commits_witness :
  prefix_text [0; 1; 0] [0] [0] [7] [0; 0; 8] = text (ln "010.0.0.7/008") /\
  exists s',
    read_loop (prefix_text [0; 1; 0] [0] [0] [7] [0; 0; 8]) (init_state 0 0) = Ok s' /\
    state s' = 1 /\ line s' = line (init_state 0 0) + 1 /\
    (decimal [0; 0; 8] <= 32 ->
     save_cidr (root (init_state 0 0)) (quad [0; 1; 0] [0] [0] [7]) (decimal [0; 0; 8]) =
       Some (root s') /\
     trace s' = trace (init_state 0 0) ++
       [Call (SaveCidr (quad [0; 1; 0] [0] [0] [7]) (decimal [0; 0; 8]))]) /\
    (32 < decimal [0; 0; 8] ->
     root s' = root (init_state 0 0) /\
     trace s' = trace (init_state 0 0) ++ [Err (WidthOutOfRange (line (init_state 0 0)))]).
Proof.
  split; [reflexivity|].
  apply (prefix_line_commits [0; 1; 0] [0] [0] [7] [0; 0; 8] (init_state 0 0)).
  - reflexivity.
  - unfold octets_ok, digits, decimal, val. cbn [fold_left].
    repeat split; try discriminate; try lia; repeat constructor; lia.
  - split; [discriminate|repeat constructor; lia].
Defined.

(** *** A range *)

(** Blanks: space, tab and carriage return. *)
Definition blanks (sp : list Z) : Prop :=
  Forall (fun c => c = 32 \/ c = 9 \/ c = 13) sp.

Lemma blank_step c s :
  c = 32 \/ c = 9 \/ c = 13 -> step c s = on_space s.
Proof. intros [->|[->| ->]]; reflexivity. Qed.

Lemma blanks_skipped sp r x1 x l m e tr :
  blanks sp -> e = 9 \/ e = 10 ->
  read_loop sp (mk_pstate r x1 x l m e tr) = Ok (mk_pstate r x1 x l m e tr).
Proof.
  intros Hb He. induction Hb as [|c sp Hc _ IH]; [reflexivity|].
  cbn [read_loop]. rewrite blank_step by assumption.
  unfold on_space. cbn [state]. destruct He as [-> | ->]; cbv beta iota; exact IH.
Qed.

(** From the end of the first quad to the state after the dash, with or
    without blanks before the dash. *)
Lemma dash_after_quad sp r x1 x l m tr :
  blanks sp -> 0 <= m <= 255 -> 0 <= x < 2 ^ 24 ->
  exists x',
    read_loop (sp ++ [45]) (mk_pstate r x1 x l m 8 tr) =
      Ok (mk_pstate r (x * 256 + m) x' l m 10 tr).
Proof.
  intros Hb Hm Hx. destruct Hb as [|c sp Hc Hb].
  - exists x. cbn [app read_loop]. const_char. unfold on_dash. cbn [state n].
    rewrite geb_true by lia.
    rewrite push_octet_val by (cbn [a n]; lia). reflexivity.
  - exists (x * 256 + m). cbn [app read_loop]. rewrite blank_step by assumption.
    unfold on_space. cbn [state n]. cbv beta iota. rewrite geb_true by lia.
    rewrite push_octet_val by (cbn [a n]; lia).
    cbv beta iota. unfold with_state, with_a. cbn [root a1 a line n state trace].
    rewrite read_loop_app, blanks_skipped by (assumption || tauto).
    cbn [read_loop]. const_char. unfold on_dash. cbn [state a with_a1 with_state].
    reflexivity.
Qed.

(** The line [q1-q2], with optional blanks on either side of the dash. *)
Definition range_text (d1 d2 d3 d4 sp1 sp2 e1 e2 e3 e4 : list Z) : list Z :=
  quad_chars d1 d2 d3 d4 ++ (sp1 ++ [45]) ++ sp2 ++ quad_chars e1 e2 e3 e4 ++ [10].

(** X7.  A line [a.b.c.d - e.f.g.h] read in state 1, with or without blanks
    around the dash and with octets that read as at most 255, makes the one
    call [save_range(a.b.c.d, e.f.g.h)] and returns to state 1 on the next
    line.  The call prints its one diagnostic exactly when the ends are in
    the wrong order; otherwise the tree then holds the addresses it held
    and those between the two ends. *)
Theorem range_line_commits d1 d2 d3 d4 sp1 sp2 e1 e2 e3 e4 s :
  state s = 1 -> good (root s) ->
  octets_ok d1 d2 d3 d4 -> octets_ok e1 e2 e3 e4 -> blanks sp1 -> blanks sp2 ->
  exists s',
    read_loop (range_text d1 d2 d3 d4 sp1 sp2 e1 e2 e3 e4) s = Ok s' /\
    state s' = 1 /\ line s' = line s + 1 /\
    trace s' =
      (trace s ++ [Call (SaveRange (quad d1 d2 d3 d4) (quad e1 e2 e3 e4))]) ++
      (if quad d1 d2 d3 d4 >? quad e1 e2 e3 e4 then [Err RangeReversed] else []) /\
    good (root s') /\
    forall x, is_addr x = true ->
      member (root s') 31 x =
        member (root s) 31 x ||
        ((quad d1 d2 d3 d4 <=? x) && (x <=? quad e1 e2 e3 e4)).
Proof.
  intros Hs Hg Hq He Hb1 Hb2. destruct s as [r x1 x l m e tr].
  cbn [state root line trace] in *. subst e.
  destruct (quad_range d1 d2 d3 d4 Hq) as (Ha & Hn & HA).
  destruct (quad_range e1 e2 e3 e4 He) as (Ha' & Hn' & HA').
  unfold range_text.
  rewrite read_loop_app, quad_run by (assumption || tauto).
  change (1 + 7) with 8.
  destruct (dash_after_quad sp1 r x1
              ((decimal d1 * 256 + decimal d2) * 256 + decimal d3) l (decimal d4) tr
              Hb1 Hn Ha) as (x' & Ed).
  rewrite read_loop_app, Ed. fold (quad d1 d2 d3 d4).
  rewrite read_loop_app, blanks_skipped by (assumption || tauto).
  rewrite read_loop_app, quad_run by (assumption || (right; split; [reflexivity|lia])).
  change (10 + 7) with 17. cbn [read_loop]. const_char. unfold on_space.
  cbn [state with_line n a line root a1 trace]. cbv beta iota.
  rewrite geb_true by lia.
  rewrite push_octet_val by (cbn [a n with_line]; lia).
  cbn [root a1 a line n state trace with_line]. fold (quad e1 e2 e3 e4).
  unfold do_save_range. cbv zeta. cbn [root with_line].
  destruct (save_range_spec r (quad d1 d2 d3 d4) (quad e1 e2 e3 e4)
              ltac:(lia) HA' Hg) as (r' & ds & Es & Hg' & Hm).
  rewrite Es.
  assert (Eds : ds = if quad d1 d2 d3 d4 >? quad e1 e2 e3 e4 then [RangeReversed] else []).
  { unfold save_range in Es.
    destruct (quad d1 d2 d3 d4 >? quad e1 e2 e3 e4); [congruence|].
    destruct (range_loop RANGE_FUEL r (quad d1 d2 d3 d4) (quad e1 e2 e3 e4))
      as [[? ?]|]; congruence. }
  eexists. split; [reflexivity|].
  cbn [state line root trace with_state with_root log].
  split; [reflexivity|]. split; [reflexivity|]. split; [|split; assumption].
  rewrite Eds. destruct (quad d1 d2 d3 d4 >? quad e1 e2 e3 e4); reflexivity.
Qed.

Lemma range_line_commits_witness :
  range_text [1; 0] [0] [0] [0] [32] [] [1; 0] [0] [0] [7] = text (ln "10.0.0.0 -10.0.0.7") /\
  exists s',
    read_loop (range_text [1; 0] [0] [0] [0] [32] [] [1; 0] [0] [0] [7]) (init_state 0 0)
      = Ok s' /\
    state s' = 1 /\ line s' = line (init_state 0 0) + 1 /\
    trace s' =
      (trace (init_state 0 0) ++
         [Call (SaveRange (quad [1; 0] [0] [0] [0]) (quad [1; 0] [0] [0] [7]))]) ++
      (if quad [1; 0] [0] [0] [0] >? quad [1; 0] [0] [0] [7]
       then [Err RangeReversed] else []) /\
    good (root s') /\
    forall x, is_addr x = true ->
      member (root s') 31 x =
        member (root (init_state 0 0)) 31 x ||
        ((quad [1; 0] [0] [0] [0] <=? x) && (x <=? quad [1; 0] [0] [0] [7])).
Proof.
  split; [reflexivity|].
  apply (range_line_commits [1; 0] [0] [0] [0] [32] [] [1; 0] [0] [0] [7] (init_state 0 0)).
  - reflexivity.
  - repeat split.
  - unfold octets_ok, digits, decimal, val. cbn [fold_left].
    repeat split; try discriminate; try lia; repeat constructor; lia.
  - unfold octets_ok, digits, decimal, val. cbn [fold_left].
    repeat split; try discriminate; try lia; repeat constructor; lia.
  - repeat constructor.
  - constructor.
Defined.

(** ** The output read back *)

Lemma bytes_of_string_app s1 s2 :
  bytes_of_string (s1 ++ s2) = bytes_of_string s1 ++ bytes_of_string s2.
Proof.
  unfold bytes_of_string. rewrite <- map_app. f_equal.
  induction s1 as [|c s1 IH]; cbn [String.append list_ascii_of_string app];
    [reflexivity|]. rewrite IH. reflexivity.
Qed.

(** The digits [dec] prints, as numbers. *)
Definition dec_digits (v : Z) : list Z :=
  map (fun c => c - 48) (bytes_of_string (dec v)).

Lemma dec_digits_chars v : digit_chars (dec_digits v) = bytes_of_string (dec v).
Proof.
  unfold digit_chars, dec_digits. rewrite map_map.
  rewrite <- (map_id (bytes_of_string (dec v))) at 2.
  apply map_ext. intros c. lia.
Qed.

Definition dec_digits_check (v : Z) : bool :=
  match dec_digits v with
  | [] => false
  | ds => forallb (fun d => (0 <=? d) && (d <=? 9)) ds && (decimal ds =? v)
  end.

(** A number up to 255 is printed as a run of digits that reads as the
    number. *)
Lemma dec_digits_ok v :
  0 <= v <= 255 -> digits (dec_digits v) /\ decimal (dec_digits v) = v.
Proof.
  intros Hv.
  assert (Hall : forallb dec_digits_check (map Z.of_nat (seq 0 256)) = true)
    by (vm_compute; reflexivity).
  rewrite forallb_forall in Hall.
  assert (Hc : dec_digits_check v = true).
  { apply Hall. replace v with (Z.of_nat (Z.to_nat v)) by lia.
    apply in_map, in_seq. lia. }
  unfold dec_digits_check in Hc.
  destruct (dec_digits v) as [|d ds] eqn:E; [discriminate|].
  apply andb_prop in Hc as [Hd Hval]. apply Z.eqb_eq in Hval.
  split; [|exact Hval]. split; [discriminate|].
  apply Forall_forall. intros y Hy.
  rewrite forallb_forall in Hd. specialize (Hd y Hy).
  apply andb_prop in Hd as [H1 H2]. apply Z.leb_le in H1. apply Z.leb_le in H2. lia.
Qed.

(** A line as [dump_tree] prints them. *)
Definition line_ok (l : cidr_line) : Prop :=
  0 <= oct1 l <= 255 /\ 0 <= oct2 l <= 255 /\ 0 <= oct3 l <= 255 /\
  0 <= oct4 l <= 255 /\ 0 <= width l <= 32.

Lemma print_line_chars l :
  bytes_of_string (print_line l) =
    prefix_text (dec_digits (oct1 l)) (dec_digits (oct2 l)) (dec_digits (oct3 l))
      (dec_digits (oct4 l)) (dec_digits (width l)).
Proof.
  unfold print_line, prefix_text, quad_chars.
  rewrite !bytes_of_string_app, !dec_digits_chars.
  change (bytes_of_string ".") with [46]. change (bytes_of_string "/") with [47].
  change (bytes_of_string LF) with [10].
  cbn [app]. repeat (rewrite <- app_assoc; cbn [app]). reflexivity.
Qed.

Lemma line_octets_ok l :
  line_ok l ->
  octets_ok (dec_digits (oct1 l)) (dec_digits (oct2 l)) (dec_digits (oct3 l))
    (dec_digits (oct4 l)) /\
  quad (dec_digits (oct1 l)) (dec_digits (oct2 l)) (dec_digits (oct3 l))
    (dec_digits (oct4 l)) = line_addr l /\
  digits (dec_digits (width l)) /\ decimal (dec_digits (width l)) = width l.
Proof.
  intros (H1 & H2 & H3 & H4 & Hw).
  destruct (dec_digits_ok _ H1) as [D1 E1]. destruct (dec_digits_ok _ H2) as [D2 E2].
  destruct (dec_digits_ok _ H3) as [D3 E3]. destruct (dec_digits_ok _ H4) as [D4 E4].
  destruct (dec_digits_ok (width l) ltac:(lia)) as [Dw Ew].
  unfold octets_ok, quad, line_addr. rewrite E1, E2, E3, E4.
  repeat split; try assumption; try lia;
    first [apply D1|apply D2|apply D3|apply D4|apply Dw].
Qed.

(** Reading printed lines back: one [save_cidr] call a line, no
    diagnostic. *)
Lemma read_printed_lines ls : forall s,
  state s = 1 -> Forall line_ok ls ->
  exists s',
    read_loop (bytes_of_string (print_lines ls)) s = Ok s' /\ state s' = 1 /\
    trace s' =
      trace s ++ map Call (map (fun l => SaveCidr (line_addr l) (width l)) ls).
Proof.
  induction ls as [|l ls IH]; intros s Hs Hok.
  - exists s. cbn [print_lines fold_right map]. rewrite app_nil_r. auto.
  - inversion Hok as [|? ? Hl Hls]; subst.
    destruct (line_octets_ok l Hl) as (Ho & Eq & Dw & Ew).
    cbn [print_lines fold_right]. fold (print_lines ls).
    rewrite bytes_of_string_app, read_loop_app, print_line_chars.
    destruct (prefix_line_commits _ _ _ _ _ s Hs Ho Dw) as (s1 & E1 & Hs1 & _ & Hin & _).
    rewrite E1. rewrite Eq, Ew in Hin.
    destruct (Hin ltac:(destruct Hl as (_ & _ & _ & _ & ?); lia)) as [_ Ht].
    destruct (IH s1 Hs1 Hls) as (s' & E' & Hs' & Ht').
    exists s'. split; [exact E'|]. split; [exact Hs'|].
    rewrite Ht', Ht, <- app_assoc. reflexivity.
Qed.

Lemma calls_of_calls cs : calls_of (map Call cs) = cs.
Proof. induction cs as [|c cs IH]; [reflexivity|]. cbn. f_equal. exact IH. Qed.

Lemma diags_of_calls cs : diags_of (map Call cs) = [].
Proof. induction cs as [|c cs IH]; [reflexivity|exact IH]. Qed.

Lemma existsb_count {A} (f : A -> bool) l :
  existsb f l = negb (Nat.eqb (List.length (filter f l)) 0).
Proof.
  induction l as [|x l IH]; cbn [existsb filter]; [reflexivity|].
  destruct (f x); cbn [orb List.length]; [reflexivity|exact IH].
Qed.

Lemma committed_lines x ls :
  (forall l, In l ls -> prefix_base (line_addr l) (width l) = line_addr l) ->
  committed x (map (fun l => SaveCidr (line_addr l) (width l)) ls) =
    negb (Nat.eqb (count_covering x ls) 0).
Proof.
  intros Hbase. unfold committed, count_covering. rewrite existsb_count. do 2 f_equal.
  induction ls as [|l ls IH]; [reflexivity|].
  cbn [map filter in_call]. rewrite Hbase by (left; reflexivity).
  fold (covers l x).
  destruct (covers l x); cbn [List.length]; rewrite IH;
    try reflexivity; intros; apply Hbase; right; assumption.
Qed.

(** The lines of a tree that respects invariant D. *)
Lemma tree_lines t ls :
  fits t 31 = true -> dump_output t = Some ls ->
  Forall line_ok ls /\
  forall l, In l ls -> prefix_base (line_addr l) (width l) = line_addr l.
Proof.
  intros Hf Hd.
  destruct (dump_output_prefixes t Hf) as (ls' & Hd' & Hm).
  rewrite Hd in Hd'. injection Hd' as <-.
  assert (Hb : forall l, In l ls ->
            0 <= line_addr l < 2 ^ 32 /\ 0 <= width l <= 32 /\
            line_addr l mod 2 ^ (32 - width l) = 0).
  { intros l Hl.
    assert (Hp : In (prefix_of_line l) (prefixes t 0 31))
      by (rewrite <- Hm; apply in_map; exact Hl).
    exact (root_prefix_bounds t _ Hf Hp). }
  split.
  - apply Forall_forall. intros l Hl. destruct (Hb l Hl) as (_ & Hw & _).
    unfold dump_output in Hd.
    rewrite dump_tree_prefixes in Hd by (assumption || lia || reflexivity).
    injection Hd as <-. apply in_map_iff in Hl as (p & <- & _).
    unfold line_ok, line_of_prefix, line_of in *. cbn [oct1 oct2 oct3 oct4 width] in *.
    repeat split; try apply octet_range; lia.
  - intros l Hl. destruct (Hb l Hl) as (Ha & Hw & Hal).
    rewrite prefix_base_eq by assumption.
    assert (Hp : 0 < 2 ^ (32 - width l)) by (apply Z.pow_pos_nonneg; lia).
    pose proof (Z.div_mod (line_addr l) (2 ^ (32 - width l)) ltac:(lia)). lia.
Qed.

(** X8.  The output of a run is a fixed point of the program: given its own
    standard output as input, the program prints the same text again,
    writes no diagnostic and exits with status 0. *)
Theorem output_read_back_is_unchanged a_init a1_init input out errs b_init b1_init :
  main a_init a1_init input = mk_run out errs (Exit 0) ->
  main b_init b1_init (bytes_of_string out) = mk_run out [] (Exit 0).
Proof.
  intros Hrun. unfold main in Hrun.
  pose proof (final_state_inv a_init a1_init input) as [_ [Hg Hc]].
  destruct (read_input a_init a1_init input) as [s|f s]; [|discriminate].
  cbn [final_state] in Hg, Hc.
  destruct (dump_output (root s)) as [ls|] eqn:Hd; [|discriminate].
  injection Hrun as <- _.
  destruct (tree_lines (root s) ls (proj1 Hg) Hd) as [Hok Hbase].
  destruct (read_printed_lines ls (init_state b_init b1_init) eq_refl Hok)
    as (s2 & E2 & Hs2 & Ht2).
  cbn [init_state trace app] in Ht2.
  destruct (read_loop_inv (bytes_of_string (print_lines ls)) (init_state b_init b1_init)
              (init_state_inv b_init b1_init)) as (s2' & E2' & _ & Hg2 & Hc2).
  rewrite E2 in E2'. injection E2' as <-.
  assert (Er : root s2 = root s).
  { apply good_unique; try assumption.
    intros x Hx. specialize (Hc x). specialize (Hc2 x).
    rewrite Hx in Hc, Hc2. cbn [andb] in Hc, Hc2.
    rewrite <- Hc2, Ht2, calls_of_calls.
    destruct (dump_output_count (root s) x (proj1 Hg)) as (ls' & Hd' & Hn).
    rewrite Hd in Hd'. injection Hd' as <-.
    rewrite Hx in Hn. cbn [andb] in Hn.
    rewrite committed_lines by assumption. rewrite Hn.
    destruct (member (root s) 31 x); reflexivity. }
  unfold main, read_input, read_from. rewrite E2.
  unfold at_eof. rewrite Hs2. cbv beta iota.
  rewrite Er, Hd, Ht2, diags_of_calls. reflexivity.
Qed.

Lemma output_read_back_is_unchanged_witness :
  main 7 7 (bytes_of_string
              (ln "10.0.0.0/31" ++ ln "10.0.0.2/32" ++ ln "10.0.0.4/30")) =
    mk_run (ln "10.0.0.0/31" ++ ln "10.0.0.2/32" ++ ln "10.0.0.4/30") [] (Exit 0).
Proof.
  apply (output_read_back_is_unchanged 0 0
           (text (ln "10.0.0.4 - 10.0.0.7" ++ ln "010.0.0.0 - 10.0.0.2"))
           (ln "10.0.0.0/31" ++ ln "10.0.0.2/32" ++ ln "10.0.0.4/30") [] 7 7).
  vm_compute. reflexivity.
Defined.

(** ** Insertions into the tree *)

(** X9.  Two insertions into a tree that respects the invariants give the
    same tree in either order. *)
Theorem add_to_node_commutes t a e b f :
  good t ->
  -1 <= e <= 31 -> 0 <= a < 2 ^ 32 -> a mod 2 ^ (e + 1) = 0 ->
  -1 <= f <= 31 -> 0 <= b < 2 ^ 32 -> b mod 2 ^ (f + 1) = 0 ->
  add_to_node (add_to_node t a 31 e) b 31 f =
    add_to_node (add_to_node t b 31 f) a 31 e.
Proof.
  intros Hg He Ha Hal Hf Hb Hbl.
  apply good_unique.
  - apply add_to_node_good; [lia|]. apply add_to_node_good; [lia|assumption].
  - apply add_to_node_good; [lia|]. apply add_to_node_good; [lia|assumption].
  - intros x Hx. rewrite !add_to_node_member by assumption.
    destruct (member t 31 x), (in_block a (e + 1) x), (in_block b (f + 1) x);
      reflexivity.
Qed.

Lemma add_to_node_commutes_witness :
  add_to_node (add_to_node NONE 167772160 31 7) 3232235777 31 (-1) =
    add_to_node (add_to_node NONE 3232235777 31 (-1)) 167772160 31 7.
Proof.
  apply (add_to_node_commutes NONE 167772160 7 3232235777 (-1));
    first [lia | reflexivity | repeat split].
Defined.

(** X10.  Inserting a block whose addresses the tree holds already leaves
    the tree as it is: no node is added or freed. *)
Theorem add_to_node_absorbs t a e :
  good t ->
  -1 <= e <= 31 -> 0 <= a < 2 ^ 32 -> a mod 2 ^ (e + 1) = 0 ->
  (forall x, is_addr x = true -> in_block a (e + 1) x = true -> member t 31 x = true) ->
  add_to_node t a 31 e = t.
Proof.
  intros Hg He Ha Hal Hin.
  apply good_unique.
  - apply add_to_node_good; [lia|assumption].
  - assumption.
  - intros x Hx. rewrite add_to_node_member by assumption.
    destruct (in_block a (e + 1) x) eqn:Eb.
    + rewrite (Hin x Hx Eb). reflexivity.
    + apply orb_false_r.
Qed.

Lemma add_to_node_absorbs_witness :
  add_to_node (add_to_node NONE 167772160 31 7) 167772164 31 1 =
    add_to_node NONE 167772160 31 7.
Proof.
  apply (add_to_node_absorbs (add_to_node NONE 167772160 31 7) 167772164 1);
    try lia; try reflexivity.
  - apply add_to_node_good; [lia|repeat split].
  - intros x Hx Hb.
    rewrite add_to_node_member by first [lia | reflexivity | exact Hx | idtac].
    unfold in_block in *. cbn [member]. cbn [orb].
    apply andb_prop in Hb as [H1 H2]. apply Z.leb_le in H1. apply Z.ltb_lt in H2.
    change (2 ^ (1 + 1)) with 4 in H2. change (2 ^ (7 + 1)) with 256.
    apply andb_true_intro. split; [apply Z.leb_le|apply Z.ltb_lt]; lia.
Defined.

(** ** Input without units *)

Definition white (c : Z) : Prop := c = 32 \/ c = 9 \/ c = 13 \/ c = 10.

Lemma white_skipped input : forall r x1 x l m tr,
  Forall white input ->
  exists l',
    read_loop input (mk_pstate r x1 x l m 1 tr) = Ok (mk_pstate r x1 x l' m 1 tr).
Proof.
  induction input as [|c input IH]; intros r x1 x l m tr Hw.
  - exists l. reflexivity.
  - inversion Hw as [|? ? Hc Hrest]; subst. cbn [read_loop].
    destruct Hc as [->|[->|[->| ->]]];
      (const_char; unfold on_space; cbn [state with_line root a1 a line n trace];
       cbv beta iota; apply IH; assumption).
Qed.

(** X11.  An input that holds white space only, or nothing at all, is
    accepted: the program prints nothing on either stream and exits with
    status 0. *)
Theorem white_input_prints_nothing a_init a1_init input :
  Forall white input ->
  main a_init a1_init input = mk_run EmptyString [] (Exit 0).
Proof.
  intros Hw. unfold main, read_input, read_from, init_state.
  destruct (white_skipped input NONE a1_init a_init 1 0 [] Hw) as (l' & E).
  rewrite E. reflexivity.
Qed.

Lemma white_input_prints_nothing_witness :
  main 0 0 [32; 10; 9; 13; 10] = mk_run EmptyString [] (Exit 0).
Proof.
  apply (white_input_prints_nothing 0 0 [32; 10; 9; 13; 10]).
  repeat constructor; unfold white; tauto.
Defined.

(** ** The last line *)

(** X12.  The newline after the last unit is optional for an address and
    for a range: with it or without it the run returns with the same tree
    and the same calls and diagnostics. *)
Theorem final_newline_is_optional d1 d2 d3 d4 sp1 sp2 e1 e2 e3 e4 s :
  state s = 1 -> good (root s) ->
  octets_ok d1 d2 d3 d4 -> octets_ok e1 e2 e3 e4 -> blanks sp1 -> blanks sp2 ->
  (exists s1 s2,
     read_from s (quad_chars d1 d2 d3 d4) = Ok s1 /\
     read_from s (quad_chars d1 d2 d3 d4 ++ [10]) = Ok s2 /\
     root s1 = save_one_addr (root s) (quad d1 d2 d3 d4) /\
     root s2 = root s1 /\
     trace s1 = trace s ++ [Call (SaveOneAddr (quad d1 d2 d3 d4))] /\
     trace s2 = trace s1) /\
  (exists s1 s2,
     read_from s (quad_chars d1 d2 d3 d4 ++ (sp1 ++ [45]) ++ sp2 ++
                  quad_chars e1 e2 e3 e4) = Ok s1 /\
     read_from s (range_text d1 d2 d3 d4 sp1 sp2 e1 e2 e3 e4) = Ok s2 /\
     root s2 = root s1 /\ trace s2 = trace s1).
Proof.
  intros Hs Hg Hq He Hb1 Hb2. destruct s as [r x1 x l m e tr].
  cbn [state root line trace] in *. subst e.
  destruct (quad_range d1 d2 d3 d4 Hq) as (Ha & Hn & HA).
  destruct (quad_range e1 e2 e3 e4 He) as (Ha' & Hn' & HA').
  split.
  - unfold read_from.
    rewrite read_loop_app, quad_run by (assumption || tauto).
    change (1 + 7) with 8. cbn [read_loop].
    rewrite newline_after_quad by assumption.
    rewrite eof_after_quad by lia.
    unfold at_eof. cbn [state n]. cbv beta iota. rewrite geb_true by lia.
    rewrite push_octet_val by (cbn [a n]; lia). cbn [a n]. fold (quad d1 d2 d3 d4).
    eexists. eexists. split; [reflexivity|]. split; [reflexivity|].
    cbn [root trace do_save_one_addr with_root log]. repeat split.
  - unfold read_from, range_text.
    destruct (dash_after_quad sp1 r x1
                ((decimal d1 * 256 + decimal d2) * 256 + decimal d3) l (decimal d4) tr
                Hb1 Hn Ha) as (x' & Ed).
    rewrite !(read_loop_app (quad_chars d1 d2 d3 d4)), !quad_run by (assumption || tauto).
    change (1 + 7) with 8. rewrite !(read_loop_app (sp1 ++ [45])), !Ed.
    rewrite !(read_loop_app sp2), !blanks_skipped by (assumption || tauto).
    rewrite (read_loop_app (quad_chars e1 e2 e3 e4)).
    rewrite !quad_run by (assumption || (right; split; [reflexivity|lia])).
    change (10 + 7) with 17. cbn [read_loop]. const_char.
    unfold on_space, at_eof.
    cbn [state with_line n a line root a1 trace]. cbv beta iota.
    rewrite !geb_true by lia.
    rewrite !push_octet_val by (cbn [a n with_line]; lia).
    cbn [root a1 a line n state trace with_line].
    fold (quad d1 d2 d3 d4). fold (quad e1 e2 e3 e4).
    unfold do_save_range. cbv zeta. cbn [root with_line].
    destruct (save_range_spec r (quad d1 d2 d3 d4) (quad e1 e2 e3 e4)
                ltac:(lia) HA' Hg) as (r' & ds & Es & _).
    rewrite Es. cbv beta iota.
    cbn [state with_state with_root log root a1 a line n trace].
    eexists. eexists. split; [reflexivity|]. split; [reflexivity|].
    cbn [root trace]. split; reflexivity.
Qed.

Lemma final_newline_is_optional_witness :
  (exists s1 s2,
     read_from (init_state 0 0) (quad_chars [1; 0] [0] [0] [1]) = Ok s1 /\
     read_from (init_state 0 0) (quad_chars [1; 0] [0] [0] [1] ++ [10]) = Ok s2 /\
     root s1 = save_one_addr (root (init_state 0 0)) (quad [1; 0] [0] [0] [1]) /\
     root s2 = root s1 /\
     trace s1 = trace (init_state 0 0) ++ [Call (SaveOneAddr (quad [1; 0] [0] [0] [1]))] /\
     trace s2 = trace s1) /\
  (exists s1 s2,
     read_from (init_state 0 0)
       (quad_chars [1; 0] [0] [0] [1] ++ ([32] ++ [45]) ++ [32] ++
        quad_chars [1; 0] [0] [0] [9]) = Ok s1 /\
     read_from (init_state 0 0)
       (range_text [1; 0] [0] [0] [1] [32] [32] [1; 0] [0] [0] [9]) = Ok s2 /\
     root s2 = root s1 /\ trace s2 = trace s1).
Proof.
  apply (final_newline_is_optional [1; 0] [0] [0] [1] [32] [32] [1; 0] [0] [0] [9]
           (init_state 0 0)).
  - reflexivity.
  - repeat split.
  - unfold octets_ok, digits, decimal, val. cbn [fold_left].
    repeat split; try discriminate; try lia; repeat constructor; lia.
  - unfold octets_ok, digits, decimal, val. cbn [fold_left].
    repeat split; try discriminate; try lia; repeat constructor; lia.
  - repeat constructor.
  - repeat constructor.
Defined.

(** ** The line counter *)

Ltac line_kept E :=
  rewrite E; cbv beta iota;
  unfold octet_digit, dot_shift, do_save_range, do_save_cidr; cbv zeta;
  repeat match goal with
  | |- context [if ?b then _ else _] => destruct b
  | |- context [save_range ?r ?x ?y] => destruct (save_range r x y) as [[? ?]|]
  | |- context [save_cidr ?r ?x ?y] => destruct (save_cidr r x y)
  end;
  let s' := fresh "s'" in let Ek := fresh "Ek" in
  intros s' Ek; inversion Ek; subst; reflexivity.

Lemma handlers_keep_line c s s' :
  1 <= state s <= 19 ->
  on_digit c s = Ok s' \/ on_dot s = Ok s' \/ on_dash s = Ok s' \/
  on_slash s = Ok s' \/ on_space s = Ok s' ->
  line s' = line s.
Proof.
  intros Hst [H|[H|[H|[H|H]]]]; revert s' H;
    [unfold on_digit|unfold on_dot|unfold on_dash|unfold on_slash|unfold on_space];
    destruct (state_cases _ Hst) as
      [E|[E|[E|[E|[E|[E|[E|[E|[E|[E|[E|[E|[E|[E|[E|[E|[E|[E|E]]]]]]]]]]]]]]]]]];
    line_kept E.
Qed.

Lemma step_line c s s' :
  1 <= state s <= 19 -> step c s = Ok s' ->
  line s' = line s + (if c =? 10 then 1 else 0).
Proof.
  intros Hst. unfold step.
  destruct ((48 <=? c) && (c <=? 57)) eqn:Ed.
  { intros H. apply andb_prop in Ed as [H1 H2].
    apply Z.leb_le in H1. apply Z.leb_le in H2.
    destruct (Z.eqb_spec c 10); [lia|].
    rewrite (handlers_keep_line c s s' Hst); [lia|tauto]. }
  destruct (Z.eqb_spec c 46).
  { intros H. subst c. rewrite (handlers_keep_line 46 s s' Hst); [cbn [Z.eqb Pos.eqb]; lia|tauto]. }
  destruct (Z.eqb_spec c 45).
  { intros H. subst c. rewrite (handlers_keep_line 45 s s' Hst); [cbn [Z.eqb Pos.eqb]; lia|tauto]. }
  destruct (Z.eqb_spec c 47).
  { intros H. subst c. rewrite (handlers_keep_line 47 s s' Hst); [cbn [Z.eqb Pos.eqb]; lia|tauto]. }
  destruct (Z.eqb_spec c 10).
  { intros H. subst c.
    rewrite (handlers_keep_line 10 (with_line s (line s + 1)) s' Hst);
      [cbn [line with_line Z.eqb Pos.eqb]; lia|tauto]. }
  destruct ((c =? 32) || (c =? 9) || (c =? 13)).
  { intros H. rewrite (handlers_keep_line c s s' Hst); [lia|tauto]. }
  intros H. inversion H. cbn [line with_state with_n log]. lia.
Qed.

(** X13.  The line number used in diagnostics is one more than the number
    of newline characters read so far; a carriage return does not count.
    The counter is an [int], so this holds while it does not overflow. *)
Theorem line_counts_newlines a_init a1_init input :
  Z.of_nat (count_occ Z.eq_dec input 10) < 2 ^ 31 - 1 ->
  exists s,
    read_loop input (init_state a_init a1_init) = Ok s /\
    line s = 1 + Z.of_nat (count_occ Z.eq_dec input 10).
Proof.
  intros _.
  assert (G : forall inp s, Inv s ->
            exists s', read_loop inp s = Ok s' /\
                       line s' = line s + Z.of_nat (count_occ Z.eq_dec inp 10)).
  { induction inp as [|c rest IH]; intros s HI.
    - exists s. split; [reflexivity|]. cbn [count_occ]. lia.
    - destruct (step_inv c s HI) as (s1 & E1 & H1).
      destruct (IH s1 H1) as (s' & E' & Hl).
      exists s'. cbn [read_loop]. rewrite E1. split; [exact E'|].
      rewrite Hl, (step_line c s s1 (ro_state s (proj1 HI)) E1).
      cbn [count_occ]. destruct (Z.eq_dec c 10) as [->|Hne].
      + cbn [Z.eqb Pos.eqb]. lia.
      + destruct (Z.eqb_spec c 10); [contradiction|]. lia. }
  destruct (G input (init_state a_init a1_init) (init_state_inv a_init a1_init))
    as (s & E & Hl).
  exists s. split; [exact E|]. rewrite Hl. reflexivity.
Qed.

Lemma line_counts_newlines_witness :
  exists s,
    read_loop (text (ln "1.2.3.4" ++ "x" ++ ln "" ++ "5.6.7.8")) (init_state 0 0) = Ok s /\
    line s = 1 + Z.of_nat (count_occ Z.eq_dec
                             (text (ln "1.2.3.4" ++ "x" ++ ln "" ++ "5.6.7.8")) 10).
Proof.
  apply (line_counts_newlines 0 0 (text (ln "1.2.3.4" ++ "x" ++ ln "" ++ "5.6.7.8"))).
  vm_compute. reflexivity.
Defined.

(** ** No shorter list of blocks *)

(** A CIDR block: a width up to 32 and an address with no bit set below
    the prefix. *)
Definition cidr_block (p : Z * Z) : Prop :=
  0 <= snd p <= 32 /\ 0 <= fst p < 2 ^ 32 /\ fst p mod 2 ^ (32 - snd p) = 0.

Definition covered_by (L : list (Z * Z)) (x : Z) : bool :=
  existsb (fun p => covers_prefix p x) L.

(** An aligned block does not straddle a multiple of its size. *)
Lemma aligned_below a m k :
  0 <= k -> a mod 2 ^ k = 0 -> m mod 2 ^ k = 0 -> a < m -> a + 2 ^ k <= m.
Proof.
  intros Hk Ha Hm Hlt.
  assert (Hp : 0 < 2 ^ k) by (apply Z.pow_pos_nonneg; lia).
  pose proof (Z.div_mod a (2 ^ k) ltac:(lia)) as Ea. rewrite Ha in Ea.
  pose proof (Z.div_mod m (2 ^ k) ltac:(lia)) as Em. rewrite Hm in Em.
  assert (a / 2 ^ k < m / 2 ^ k) by nia. nia.
Qed.

Lemma filter_split_length {A} (g : A -> bool) l :
  List.length l =
    (List.length (filter g l) + List.length (filter (fun p => negb (g p)) l))%nat.
Proof.
  induction l as [|p l IH]; [reflexivity|]. cbn [filter].
  destruct (g p); cbn [negb List.length]; lia.
Qed.

Lemma existsb_filter_split {A} (f g : A -> bool) l :
  existsb f l =
    existsb f (filter g l) || existsb f (filter (fun p => negb (g p)) l).
Proof.
  induction l as [|p l IH]; [reflexivity|]. cbn [existsb filter].
  destruct (g p); cbn [negb existsb]; rewrite IH;
    destruct (f p), (existsb f (filter g l)); reflexivity.
Qed.

Lemma existsb_none {A} (f : A -> bool) l :
  (forall p, In p l -> f p = false) -> existsb f l = false.
Proof.
  intros H. induction l as [|p l IH]; [reflexivity|]. cbn [existsb].
  rewrite (H p (or_introl eq_refl)). apply IH. intros q Hq. apply H. right. exact Hq.
Qed.

Lemma member_shift t bit base x :
  -1 <= bit -> base mod 2 ^ (bit + 1) = 0 ->
  member t bit (base + x mod 2 ^ (bit + 1)) = member t bit x.
Proof.
  intros Hb Hal.
  rewrite (member_low t bit (base + x mod 2 ^ (bit + 1))), (member_low t bit x) by lia.
  f_equal. rewrite <- Zplus_mod_idemp_l, Hal. cbn [Z.add]. apply Z.mod_mod.
  assert (0 < 2 ^ (bit + 1)) by (apply Z.pow_pos_nonneg; lia). lia.
Qed.

(** The blocks of a subtree that respects invariant C are at most as many
    as the blocks of any list that covers the same addresses. *)
Lemma prefixes_fewest t : forall base bit L,
  fits t bit = true -> canonical t = true ->
  -1 <= bit -> base mod 2 ^ (bit + 1) = 0 ->
  (forall p, In p L ->
     0 <= 32 - snd p /\ fst p mod 2 ^ (32 - snd p) = 0 /\
     base <= fst p /\ fst p + 2 ^ (32 - snd p) <= base + 2 ^ (bit + 1)) ->
  (forall x, base <= x < base + 2 ^ (bit + 1) -> covered_by L x = member t bit x) ->
  (List.length (prefixes t base bit) <= List.length L)%nat.
Proof.
  induction t as [| |s0 IH0 s1 IH1]; intros base bit L Hf Hc Hb Hal HL Hcov;
    cbn [prefixes List.length].
  - lia.
  - assert (Hp : 0 < 2 ^ (bit + 1)) by (apply Z.pow_pos_nonneg; lia).
    specialize (Hcov base ltac:(lia)). cbn [member] in Hcov.
    destruct L; [discriminate|]. cbn [List.length]. lia.
  - pose proof Hf as Hfit. pose proof Hc as Hcan.
    cbn [fits] in Hf. apply andb_prop in Hf as [Hf F1]. apply andb_prop in Hf as [H F0].
    apply Z.leb_le in H.
    cbn [canonical] in Hc. apply andb_prop in Hc as [Hc C1]. apply andb_prop in Hc as [_ C0].
    assert (Hp : 0 < 2 ^ bit) by (apply Z.pow_pos_nonneg; lia).
    assert (E2 : 2 ^ (bit + 1) = 2 ^ bit * 2)
      by (rewrite Z.pow_add_r by lia; reflexivity).
    assert (Hhalf : base mod 2 ^ bit = 0) by (apply (mod_pow2_le base bit (bit + 1)); [lia|assumption]).
    assert (Hmid : (base + 2 ^ bit) mod 2 ^ bit = 0).
    { rewrite <- Zplus_mod_idemp_l, Hhalf. apply Z_mod_same_full. }
    (* no block of the list is the whole block of the node *)
    assert (Hsmall : forall p, In p L -> 32 - snd p <= bit).
    { intros p Hp'. destruct (HL p Hp') as (Hk & Hpa & Hlo & Hhi).
      destruct (Z.le_gt_cases (32 - snd p) bit) as [|Hbig]; [assumption|exfalso].
      assert (Hle : 2 ^ (bit + 1) <= 2 ^ (32 - snd p)) by (apply Z.pow_le_mono_r; lia).
      destruct (canonical_not_full (Node s0 s1) bit Hfit Hcan ltac:(discriminate))
        as (x0 & Hx0).
      pose proof (Z.mod_pos_bound x0 (2 ^ (bit + 1)) ltac:(lia)) as Hm.
      rewrite <- (member_shift _ bit base x0) in Hx0 by (assumption || lia).
      rewrite <- Hcov in Hx0 by lia.
      unfold covered_by in Hx0.
      assert (Ht : existsb (fun q => covers_prefix q (base + x0 mod 2 ^ (bit + 1))) L = true).
      { apply existsb_exists. exists p. split; [assumption|].
        unfold covers_prefix, in_block.
        apply andb_true_intro. split; [apply Z.leb_le|apply Z.ltb_lt]; lia. }
      congruence. }
    set (g := fun p : Z * Z => fst p <? base + 2 ^ bit).
    rewrite length_app, (filter_split_length g L).
    apply Nat.add_le_mono.
    + apply IH0; try assumption; try lia.
      * replace (bit - 1 + 1) with bit by lia. assumption.
      * intros p Hp'. apply filter_In in Hp' as [Hp' Hg]. unfold g in Hg.
        apply Z.ltb_lt in Hg.
        destruct (HL p Hp') as (Hk & Hpa & Hlo & Hhi). specialize (Hsmall p Hp').
        replace (bit - 1 + 1) with bit by lia.
        repeat split; try assumption.
        apply aligned_below; try assumption.
        apply (mod_pow2_le _ (32 - snd p) bit); [lia|assumption].
      * intros x Hx. replace (bit - 1 + 1) with bit in Hx by lia.
        specialize (Hcov x ltac:(lia)). cbn [member] in Hcov.
        rewrite (testbit_in_block base bit x) in Hcov by (assumption || lia).
        destruct (Z.leb_spec (base + 2 ^ bit) x); [lia|].
        rewrite <- Hcov. unfold covered_by.
        rewrite (existsb_filter_split _ g L).
        rewrite (existsb_none _ (filter (fun p => negb (g p)) L)); [symmetry; apply orb_false_r|].
        intros p Hp'. apply filter_In in Hp' as [Hp' Hg]. unfold g in Hg.
        apply negb_true_iff, Z.ltb_ge in Hg.
        unfold covers_prefix, in_block.
        destruct (Z.leb_spec (fst p) x); [lia|reflexivity].
    + apply IH1; try assumption; try lia.
      * replace (bit - 1 + 1) with bit by lia. assumption.
      * intros p Hp'. apply filter_In in Hp' as [Hp' Hg]. unfold g in Hg.
        apply negb_true_iff, Z.ltb_ge in Hg.
        destruct (HL p Hp') as (Hk & Hpa & Hlo & Hhi).
        replace (bit - 1 + 1) with bit by lia.
        repeat split; try assumption; lia.
      * intros x Hx. replace (bit - 1 + 1) with bit in Hx by lia.
        specialize (Hcov x ltac:(lia)). cbn [member] in Hcov.
        rewrite (testbit_in_block base bit x) in Hcov by (assumption || lia).
        destruct (Z.leb_spec (base + 2 ^ bit) x); [|lia].
        rewrite <- Hcov. unfold covered_by.
        rewrite (existsb_filter_split _ g L).
        rewrite (existsb_none _ (filter g L)); [reflexivity|].
        intros p Hp'. apply filter_In in Hp' as [Hp' Hg]. unfold g in Hg.
        apply Z.ltb_lt in Hg.
        destruct (HL p Hp') as (Hk & Hpa & Hlo & Hhi). specialize (Hsmall p Hp').
        assert (fst p + 2 ^ (32 - snd p) <= base + 2 ^ bit).
        { apply aligned_below; try assumption.
          apply (mod_pow2_le _ (32 - snd p) bit); [lia|assumption]. }
        unfold covers_prefix, in_block.
        destruct (Z.ltb_spec x (fst p + 2 ^ (32 - snd p))); [lia|].
        apply andb_false_r.
Qed.

(** X14.  The output is as short as can be: a list of CIDR blocks that
    covers exactly the addresses a run committed has at least as many
    blocks as the run prints lines. *)
Theorem output_has_fewest_blocks a_init a1_init input (L : list (Z * Z)) :
  (forall p, In p L -> cidr_block p) ->
  (forall x, covered_by L x =
             committed x (calls_of (trace (final_state (read_input a_init a1_init input))))) ->
  exists ls,
    dump_output (root (final_state (read_input a_init a1_init input))) = Some ls /\
    (List.length ls <= List.length L)%nat.
Proof.
  intros HL Hcov.
  pose proof (final_state_inv a_init a1_init input) as [_ [Hg Hc]].
  set (t := root (final_state (read_input a_init a1_init input))) in *.
  destruct Hg as (Hf & Hcan & Hin).
  destruct (dump_output_prefixes t Hf) as (ls & Hd & Hm).
  exists ls. split; [exact Hd|].
  rewrite <- (length_map prefix_of_line), Hm.
  apply prefixes_fewest; try assumption; try lia; try reflexivity.
  - intros p Hp. destruct (HL p Hp) as (Hw & Ha & Hal).
    repeat split; try lia; try assumption.
    change (0 + 2 ^ (31 + 1)) with (2 ^ 32).
    apply aligned_below; try assumption; try lia.
    replace 32 with ((32 - (32 - snd p)) + (32 - snd p)) at 1 by lia.
    rewrite Z.pow_add_r by lia. apply Z_mod_mult.
  - intros x Hx. rewrite Hcov, Hc.
    change (0 + 2 ^ (31 + 1)) with (2 ^ 32) in Hx.
    rewrite (proj2 (is_addr_range x)) by lia. reflexivity.
Qed.

Lemma output_has_fewest_blocks_witness :
  exists ls,
    dump_output (root (final_state (read_input 0 0
      (text (ln "10.0.0.1" ++ ln "10.0.0.0" ++ ln "10.0.0.2"))))) = Some ls /\
    (List.length ls <= List.length [(167772160, 31); (167772162, 32)]%Z)%nat.
Proof.
  apply (output_has_fewest_blocks 0 0
           (text (ln "10.0.0.1" ++ ln "10.0.0.0" ++ ln "10.0.0.2"))
           [(167772160, 31); (167772162, 32)]).
  - intros p [<-|[<-|[]]]; unfold cidr_block; cbn [fst snd];
      (split; [lia|split; [lia|reflexivity]]).
  - intros x.
    replace (calls_of (trace (final_state (read_input 0 0
               (text (ln "10.0.0.1" ++ ln "10.0.0.0" ++ ln "10.0.0.2"))))))
      with [SaveOneAddr 167772161; SaveOneAddr 167772160; SaveOneAddr 167772162]
      by (vm_compute; reflexivity).
    unfold covered_by, covers_prefix, in_block.
    cbn [committed existsb in_call fst snd].
    change (2 ^ (32 - 31)) with 2. change (2 ^ (32 - 32)) with 1.
    destruct (Z.eqb_spec x 167772161), (Z.eqb_spec x 167772160),
      (Z.eqb_spec x 167772162), (Z.leb_spec 167772160 x),
      (Z.ltb_spec x (167772160 + 2)), (Z.leb_spec 167772162 x),
      (Z.ltb_spec x (167772162 + 1)); cbn [andb orb]; try reflexivity; lia.
Defined.

(** ** The heap *)

(** [free_tree(n)], as the number of calls to [free] it makes: one for each
    heap node at or below [n]. *)
Fixpoint free_tree (n : NODE) : nat :=
  match n with
  | Node s0 s1 => (free_tree s0 + free_tree s1 + 1)%nat
  | _ => 0%nat
  end.

(** [add_to_node] once more, with its calls counted: the new value of
    [*np], the number of calls to [malloc] and the number of calls to
    [free], those of [free_tree] included. *)
Fixpoint add_to_node_heap (fuel : nat) (n : NODE) (a bit end_ : Z)
  : NODE * nat * nat :=
  match n with
  | ALL => (ALL, 0%nat, 0%nat)
  | _ =>
      if bit <=? end_
      then (ALL, 0%nat, match n with NONE => 0%nat | _ => free_tree n end)
      else
        match fuel with
        | O => (n, 0%nat, 0%nat)
        | S fuel' =>
            let '(s0, s1, m) :=
              match n with
              | Node s0 s1 => (s0, s1, 0%nat)
              | _ => (NONE, NONE, 1%nat)
              end in
            let '(t0, t1, m', f') :=
              if Z.land (Z.shiftr a bit) 1 =? 0
              then let '(t, m', f') := add_to_node_heap fuel' s0 a (bit - 1) end_ in
                   (t, s1, m', f')
              else let '(t, m', f') := add_to_node_heap fuel' s1 a (bit - 1) end_ in
                   (s0, t, m', f') in
            if NODE_eqb_ALL t0 && NODE_eqb_ALL t1
            then (ALL, (m + m')%nat, (f' + 1)%nat)
            else (Node t0 t1, (m + m')%nat, f')
        end
  end.

Lemma add_to_node_heap_spec fuel : forall n a bit end_,
  let '(t, m, f) := add_to_node_heap fuel n a bit end_ in
  t = add_to_node_rec fuel n a bit end_ /\
  (free_tree t + f = free_tree n + m)%nat /\
  (m <= fuel)%nat.
Proof.
  induction fuel as [|fuel IH]; intros n a bit end_.
  - destruct n; cbn [add_to_node_heap add_to_node_rec];
      destruct (bit <=? end_); cbn [free_tree]; repeat split; lia.
  - destruct n as [| |s0 s1]; cbn [add_to_node_heap add_to_node_rec].
    + destruct (bit <=? end_); [cbn [free_tree]; repeat split; lia|].
      destruct (Z.land (Z.shiftr a bit) 1 =? 0).
      * specialize (IH NONE a (bit - 1) end_).
        destruct (add_to_node_heap fuel NONE a (bit - 1) end_) as [[t m'] f'].
        destruct IH as (<- & Hh & Hm).
        cbn [NODE_eqb_ALL]. rewrite andb_false_r.
        cbn [free_tree] in *; repeat split; lia.
      * specialize (IH NONE a (bit - 1) end_).
        destruct (add_to_node_heap fuel NONE a (bit - 1) end_) as [[t m'] f'].
        destruct IH as (<- & Hh & Hm).
        cbn [NODE_eqb_ALL andb].
        cbn [free_tree] in *; repeat split; lia.
    + repeat split; lia.
    + destruct (bit <=? end_); [cbn [free_tree]; repeat split; lia|].
      destruct (Z.land (Z.shiftr a bit) 1 =? 0).
      * specialize (IH s0 a (bit - 1) end_).
        destruct (add_to_node_heap fuel s0 a (bit - 1) end_) as [[t m'] f'].
        destruct IH as (<- & Hh & Hm).
        destruct (NODE_eqb_ALL t && NODE_eqb_ALL s1) eqn:Eb;
          [|cbn [free_tree] in *; repeat split; lia].
        apply andb_prop in Eb as [E0 E1].
        destruct t; try discriminate. destruct s1; try discriminate.
        cbn [free_tree] in *; repeat split; lia.
      * specialize (IH s1 a (bit - 1) end_).
        destruct (add_to_node_heap fuel s1 a (bit - 1) end_) as [[t m'] f'].
        destruct IH as (<- & Hh & Hm).
        destruct (NODE_eqb_ALL s0 && NODE_eqb_ALL t) eqn:Eb;
          [|cbn [free_tree] in *; repeat split; lia].
        apply andb_prop in Eb as [E0 E1].
        destruct t; try discriminate. destruct s0; try discriminate.
        cbn [free_tree] in *; repeat split; lia.
Qed.

(** X15.  [add_to_node] leaks no memory.  The tree it leaves is the one of
    the model without a heap; the heap nodes in it are those that were in
    the tree before, plus the nodes allocated, minus the nodes freed; and a
    call allocates at most one node for each level between [bit] and
    [end]. *)
Theorem add_to_node_leaks_nothing n a bit end_ :
  let '(t, m, f) := add_to_node_heap (Z.to_nat (bit - end_)) n a bit end_ in
  t = add_to_node n a bit end_ /\
  (free_tree t + f = free_tree n + m)%nat /\
  Z.of_nat m <= Z.max 0 (bit - end_).
Proof.
  pose proof (add_to_node_heap_spec (Z.to_nat (bit - end_)) n a bit end_) as H.
  destruct (add_to_node_heap (Z.to_nat (bit - end_)) n a bit end_) as [[t m] f].
  destruct H as (Ht & Hh & Hm). unfold add_to_node. repeat split; try assumption. lia.
Qed.

(** ** The firewall of [dump_tree] *)

(** X16.  The walk of [dump_tree] reaches its [abort()] exactly when the
    tree has a heap node below the last level, whatever the address so
    far. *)
Theorem dump_tree_aborts_iff_too_deep t : forall v bit,
  dump_tree t v bit = None <-> fits t bit = false.
Proof.
  induction t as [| |s0 IH0 s1 IH1]; intros v bit; cbn [dump_tree fits].
  - split; discriminate.
  - split; discriminate.
  - destruct (Z.ltb_spec bit 0) as [Hneg|Hpos].
    + assert (E : (0 <=? bit) = false) by (apply Z.leb_gt; lia).
      rewrite E. split; reflexivity.
    + assert (E : (0 <=? bit) = true) by (apply Z.leb_le; lia).
      rewrite E. cbn [andb].
      specialize (IH0 v (bit - 1)).
      specialize (IH1 (Z.lor v (ulong (sint (Z.shiftl 1 bit)))) (bit - 1)).
      destruct (dump_tree s0 v (bit - 1)) as [l0|].
      * destruct (dump_tree s1 (Z.lor v (ulong (sint (Z.shiftl 1 bit)))) (bit - 1))
          as [l1|].
        -- split; [discriminate|]. intros H.
           apply andb_false_iff in H as [H|H];
             [apply IH0 in H|apply IH1 in H]; discriminate.
        -- split; [|reflexivity]. intros _.
           rewrite (proj1 IH1 eq_refl). apply andb_false_r.
      * split; [|reflexivity]. intros _. rewrite (proj1 IH0 eq_refl). reflexivity.
Qed.

(** ** Looking up what was saved *)

(** X17.  On a tree that respects the invariants each of the three saving
    functions returns, keeps the invariants, and adds exactly its
    addresses: the one address, the addresses between the two ends (none
    when the ends are reversed), or the block of the prefix with its
    address normalised. *)
Theorem saved_addresses_are_members t :
  good t ->
  (forall a0, 0 <= a0 < 2 ^ 32 ->
     good (save_one_addr t a0) /\
     forall x, is_addr x = true ->
       member (save_one_addr t a0) 31 x = member t 31 x || (x =? a0)) /\
  (forall lo hi, 0 <= lo -> 0 <= hi < 2 ^ 32 ->
     exists r ds, save_range t lo hi = Some (r, ds) /\ good r /\
       forall x, is_addr x = true ->
         member r 31 x = member t 31 x || ((lo <=? x) && (x <=? hi))) /\
  (forall a0 w, 0 <= a0 < 2 ^ 32 -> 0 <= w <= 32 ->
     exists r, save_cidr t a0 w = Some r /\ good r /\
       forall x, is_addr x = true ->
         member r 31 x =
           member t 31 x || in_block (a0 / 2 ^ (32 - w) * 2 ^ (32 - w)) (32 - w) x).
Proof.
  intros Hg. split; [|split].
  - intros a0 Ha. apply save_one_addr_spec; assumption.
  - intros lo hi Hlo Hhi. apply save_range_spec; assumption.
  - intros a0 w Ha Hw.
    destruct (save_cidr_spec t a0 w Hw Ha Hg) as (r & E & Hr & Hm).
    exists r. split; [exact E|]. split; [exact Hr|].
    intros x Hx. rewrite (Hm x Hx), prefix_base_eq by assumption. reflexivity.
Qed.

Lemma saved_addresses_are_members_witness :
  (forall a0, 0 <= a0 < 2 ^ 32 ->
     good (save_one_addr NONE a0) /\
     forall x, is_addr x = true ->
       member (save_one_addr NONE a0) 31 x = member NONE 31 x || (x =? a0)) /\
  (forall lo hi, 0 <= lo -> 0 <= hi < 2 ^ 32 ->
     exists r ds, save_range NONE lo hi = Some (r, ds) /\ good r /\
       forall x, is_addr x = true ->
         member r 31 x = member NONE 31 x || ((lo <=? x) && (x <=? hi))) /\
  (forall a0 w, 0 <= a0 < 2 ^ 32 -> 0 <= w <= 32 ->
     exists r, save_cidr NONE a0 w = Some r /\ good r /\
       forall x, is_addr x = true ->
         member r 31 x =
           member NONE 31 x || in_block (a0 / 2 ^ (32 - w) * 2 ^ (32 - w)) (32 - w) x).
Proof.
  apply (saved_addresses_are_members NONE). repeat split.
Defined.

(** ** Nothing is taken back *)

Ltac trace_grows E :=
  rewrite E; cbv beta iota;
  unfold octet_digit, dot_shift, do_save_range, do_save_cidr; cbv zeta;
  repeat match goal with
  | |- context [if ?b then _ else _] => destruct b
  | |- context [save_range ?r ?x ?y] => destruct (save_range r x y) as [[? ?]|]
  | |- context [save_cidr ?r ?x ?y] => destruct (save_cidr r x y)
  end;
  let s' := fresh "s'" in let Ek := fresh "Ek" in
  intros s' Ek; inversion Ek; subst;
  cbn [trace with_root with_a1 with_a with_line with_n with_state log do_save_one_addr];
  rewrite <- ?app_assoc;
  first [ exists []; rewrite app_nil_r; reflexivity | eexists; reflexivity ].

Lemma handlers_extend_trace c s s' :
  1 <= state s <= 19 ->
  on_digit c s = Ok s' \/ on_dot s = Ok s' \/ on_dash s = Ok s' \/
  on_slash s = Ok s' \/ on_space s = Ok s' ->
  exists es, trace s' = trace s ++ es.
Proof.
  intros Hst [H|[H|[H|[H|H]]]]; revert s' H;
    [unfold on_digit|unfold on_dot|unfold on_dash|unfold on_slash|unfold on_space];
    destruct (state_cases _ Hst) as
      [E|[E|[E|[E|[E|[E|[E|[E|[E|[E|[E|[E|[E|[E|[E|[E|[E|[E|E]]]]]]]]]]]]]]]]]];
    trace_grows E.
Qed.

Lemma step_extends_trace c s s' :
  1 <= state s <= 19 -> step c s = Ok s' -> exists es, trace s' = trace s ++ es.
Proof.
  intros Hst. unfold step.
  destruct ((48 <=? c) && (c <=? 57)).
  { intros H. apply (handlers_extend_trace c s s' Hst). tauto. }
  destruct (c =? 46).
  { intros H. apply (handlers_extend_trace c s s' Hst). tauto. }
  destruct (c =? 45).
  { intros H. apply (handlers_extend_trace c s s' Hst). tauto. }
  destruct (c =? 47).
  { intros H. apply (handlers_extend_trace c s s' Hst). tauto. }
  destruct (c =? 10).
  { intros H. apply (handlers_extend_trace c (with_line s (line s + 1)) s' Hst). tauto. }
  destruct ((c =? 32) || (c =? 9) || (c =? 13)).
  { intros H. apply (handlers_extend_trace c s s' Hst). tauto. }
  intros H. inversion H. cbn [trace with_state with_n log]. eexists. reflexivity.
Qed.

Lemma read_loop_extends_trace input : forall s s',
  Inv s -> read_loop input s = Ok s' -> exists es, trace s' = trace s ++ es.
Proof.
  induction input as [|c rest IH]; intros s s' HI E; cbn [read_loop] in E.
  - inversion E. exists []. rewrite app_nil_r. reflexivity.
  - destruct (step_inv c s HI) as (s1 & E1 & H1). rewrite E1 in E.
    destruct (step_extends_trace c s s1 (ro_state s (proj1 HI)) E1) as (es1 & T1).
    destruct (IH s1 s' H1 E) as (es & T). exists (es1 ++ es).
    rewrite T, T1, app_assoc. reflexivity.
Qed.

(** X18.  What has been written stays written and what has been committed
    stays committed: reading more input only appends to the calls and
    diagnostics made so far, and an address the tree holds after part of
    the input is held after any continuation of it. *)
Theorem more_input_takes_nothing_back a_init a1_init input more :
  exists s s' es,
    read_loop input (init_state a_init a1_init) = Ok s /\
    read_loop (input ++ more) (init_state a_init a1_init) = Ok s' /\
    trace s' = trace s ++ es /\
    forall x, is_addr x = true ->
      member (root s) 31 x = true -> member (root s') 31 x = true.
Proof.
  destruct (read_loop_inv input (init_state a_init a1_init)
              (init_state_inv a_init a1_init)) as (s & E & HI).
  destruct (read_loop_inv more s HI) as (s' & E' & HI').
  destruct (read_loop_extends_trace more s s' HI E') as (es & T).
  exists s, s', es. split; [exact E|]. split; [rewrite read_loop_app, E; exact E'|].
  split; [exact T|].
  intros x Hx Hm.
  destruct HI as [_ [_ Hc]]. destruct HI' as [_ [_ Hc']].
  specialize (Hc x). specialize (Hc' x). rewrite Hx in Hc, Hc'. cbn [andb] in Hc, Hc'.
  rewrite <- Hc', T, calls_of_app, committed_app, Hc, Hm. reflexivity.
Qed.

(** ** Octets and units in general *)















(** *** The three units, read from state 1 *)



(** *** Where a unit starts *)







